(** * Pathfinding visualizer: the incremental grid-search engine

    A shallow embedding of [src/pathfinder.py]: the [Node] class, the
    [GRID] matrix with Python's list indexing, the helper functions that
    mutate the grid, the four step functions ([DFS], [BFS], [Greedy],
    [AStar]) and [reconstructPath].  The user-interface code (pygame
    drawing, buttons) is not modelled; the event handlers are modelled
    by their effect on the global state. *)

From stdpp Require Import base list numbers sorting.
From Stdlib Require Import ZArith Lia.

Local Open Scope Z_scope.

(** ** Python exceptions and results *)

Inductive exn := IndexError.

Inductive result (A : Type) : Type :=
| Return (a : A)
| Raise (e : exn).
Arguments Return {A} a.
Arguments Raise {A} e.

Global Instance result_ret : MRet result := λ A a, Return a.
Global Instance result_bind : MBind result := λ A B f m,
  match m with
  | Return a => f a
  | Raise e => Raise e
  end.

(** [for x in l: s = body(s, x)], stopping at the first exception. *)
Fixpoint for_each {S A : Type} (body : S → A → result S) (l : list A) (s : S)
  : result S :=
  match l with
  | [] => Return s
  | a :: l' => s' ← body s a; for_each body l' s'
  end.

(** ** Python list indexing

    [l[i]] accepts [-len(l) <= i < len(l)]; a negative index counts from
    the end, anything else raises [IndexError]. *)

Definition py_index (len : nat) (i : Z) : option nat :=
  if (0 <=? i) && (i <? Z.of_nat len) then Some (Z.to_nat i)
  else if (- Z.of_nat len <=? i) && (i <? 0) then Some (Z.to_nat (Z.of_nat len + i))
  else None.

Definition getitem {A : Type} (l : list A) (i : Z) : result A :=
  match py_index (length l) i with
  | Some n => match l !! n with
              | Some a => Return a
              | None => Raise IndexError
              end
  | None => Raise IndexError
  end.

Definition setitem {A : Type} (l : list A) (i : Z) (v : A) : result (list A) :=
  match py_index (length l) i with
  | Some n => Return (<[n:=v]> l)
  | None => Raise IndexError
  end.

(** [range(n)] and [range(a, b)]. *)
Definition range (n : Z) : list Z := seqZ 0 n.
Definition range2 (a b : Z) : list Z := seqZ a (b - a).

(** [list.sort(key = ...)]: Python's sort is stable; it is modelled by a
    stable insertion sort on the key. *)
Section Sort.
Context {A : Type} (key : A → Z).

Fixpoint insert_by (a : A) (l : list A) : list A :=
  match l with
  | [] => [a]
  | b :: l' => if key a <=? key b then a :: b :: l' else b :: insert_by a l'
  end.

Fixpoint sort_by (l : list A) : list A :=
  match l with
  | [] => []
  | a :: l' => insert_by a (sort_by l')
  end.
End Sort.

(** ** class Node *)

Module Node.

#[local] Unset Elimination Schemes.
Inductive t : Type :=
  mk { y : Z; x : Z; parent : option t; gCost : Z; hCost : Z }.
#[local] Set Elimination Schemes.

(** [Node(y, x, parent)]: both costs start at 0. *)
Definition init (y x : Z) (parent : option t) : t := mk y x parent 0 0.

(** [__eq__] against another [Node]. *)
Definition eqb (self node : t) : bool :=
  (y self =? y node) && (x self =? x node).

(** [__eq__] against an arbitrary object, here a [Node] or [None]:
    [isinstance(node, Node) and ...]. *)
Definition eqb_obj (self : t) (node : option t) : bool :=
  match node with
  | Some n => eqb self n
  | None => false
  end.

Definition getPos (self : t) : Z * Z := (y self, x self).

Definition getNeighbors (DIAGONAL : bool) (self : t) : list t :=
  let up := init (y self - 1) (x self) (Some self) in
  let right := init (y self) (x self + 1) (Some self) in
  let down := init (y self + 1) (x self) (Some self) in
  let left := init (y self) (x self - 1) (Some self) in
  if DIAGONAL then
    let ur := init (y self - 1) (x self + 1) (Some self) in
    let dr := init (y self + 1) (x self + 1) (Some self) in
    let dl := init (y self + 1) (x self - 1) (Some self) in
    let ul := init (y self - 1) (x self - 1) (Some self) in
    [up; right; down; left; ur; dr; dl; ul]
  else [up; right; down; left].

Definition fCost (self : t) : Z := gCost self + hCost self.

(** Field assignments [node.gCost = g] and [node.hCost = h]. *)
Definition set_gCost (g : Z) (self : t) : t :=
  mk (y self) (x self) (parent self) g (hCost self).
Definition set_hCost (h : Z) (self : t) : t :=
  mk (y self) (x self) (parent self) (gCost self) h.

(** [node in l]: some element compares equal with [__eq__]. *)
Definition mem (node : t) (l : list t) : bool := existsb (eqb node) l.

(** The discoverer chain [self, self.parent, self.parent.parent, ...]. *)
Fixpoint chain (self : t) : list t :=
  self :: match parent self with
          | Some p => chain p
          | None => []
          end.

(** Number of edges of the discoverer chain. *)
Fixpoint depth (self : t) : nat :=
  match parent self with
  | Some p => S (depth p)
  | None => O
  end.

End Node.

(** ** Tile values of the GRID matrix *)

Definition Open_tile : Z := 0.
Definition Wall : Z := 1.
Definition Start : Z := 2.
Definition End_tile : Z := 3.
Definition Frontier : Z := 4.
Definition Visited : Z := 5.
Definition FinalPath : Z := 6.

Abbreviation grid := (list (list Z)).

(** [GRID[y][x]] *)
Definition get_tile (g : grid) (y x : Z) : result Z :=
  row ← getitem g y; getitem row x.

(** [GRID[y][x] = v]; the rows are distinct list objects. *)
Definition set_tile (g : grid) (y x v : Z) : result grid :=
  row ← getitem g y; row' ← setitem row x v; setitem g y row'.

Definition isPath (g : grid) (node : Node.t) : result bool :=
  v ← get_tile g (Node.y node) (Node.x node); Return (negb (v =? 1)).

(** ** Global state *)

Inductive algorithm := ALG_DFS | ALG_BFS | ALG_Greedy | ALG_AStar.

Record state := mkState {
  GRID : grid;
  START : Node.t;
  END : Node.t;
  ALGORITHM : algorithm;
  DIAGONAL : bool;
  open : list Node.t;
  closed : list Node.t;
  searching : bool
}.

Definition set_GRID (g : grid) (st : state) : state :=
  mkState g (START st) (END st) (ALGORITHM st) (DIAGONAL st) (open st) (closed st) (searching st).
Definition set_START (n : Node.t) (st : state) : state :=
  mkState (GRID st) n (END st) (ALGORITHM st) (DIAGONAL st) (open st) (closed st) (searching st).
Definition set_END (n : Node.t) (st : state) : state :=
  mkState (GRID st) (START st) n (ALGORITHM st) (DIAGONAL st) (open st) (closed st) (searching st).
Definition set_ALGORITHM (a : algorithm) (st : state) : state :=
  mkState (GRID st) (START st) (END st) a (DIAGONAL st) (open st) (closed st) (searching st).
Definition set_DIAGONAL (d : bool) (st : state) : state :=
  mkState (GRID st) (START st) (END st) (ALGORITHM st) d (open st) (closed st) (searching st).
Definition set_open (l : list Node.t) (st : state) : state :=
  mkState (GRID st) (START st) (END st) (ALGORITHM st) (DIAGONAL st) l (closed st) (searching st).
Definition set_closed (l : list Node.t) (st : state) : state :=
  mkState (GRID st) (START st) (END st) (ALGORITHM st) (DIAGONAL st) (open st) l (searching st).
Definition set_searching (b : bool) (st : state) : state :=
  mkState (GRID st) (START st) (END st) (ALGORITHM st) (DIAGONAL st) (open st) (closed st) b.

(** ** Helper functions *)

Definition HCost (END : Node.t) (DIAGONAL : bool) (node : Node.t) : Z :=
  let dy := Z.abs (Node.y END - Node.y node) in
  let dx := Z.abs (Node.x END - Node.x node) in
  if DIAGONAL then Z.max dy dx else dy + dx.

(** ** Algorithms

    Every step function returns [Some false] for Python's [False] (the
    open list is empty), [Some true] for [True] (the End Node was taken
    from the open list) and [None] for the implicit [None] (keep going). *)

(** The loop body shared by [DFS] and [BFS]. *)
Definition visit_plain (closed : list Node.t) (s : grid * list Node.t)
    (neighbor : Node.t) : result (grid * list Node.t) :=
  let '(g, op) := s in
  p ← isPath g neighbor;
  if p && negb (Node.mem neighbor closed) && negb (Node.mem neighbor op) then
    g' ← set_tile g (Node.y neighbor) (Node.x neighbor) 4;
    Return (g', op ++ [neighbor])
  else Return (g, op).

(** The loop body of [Greedy]. *)
Definition visit_greedy (END : Node.t) (DIAGONAL : bool) (closed : list Node.t)
    (s : grid * list Node.t) (neighbor : Node.t) : result (grid * list Node.t) :=
  let '(g, op) := s in
  p ← isPath g neighbor;
  if p && negb (Node.mem neighbor closed) && negb (Node.mem neighbor op) then
    let neighbor := Node.set_hCost (HCost END DIAGONAL neighbor) neighbor in
    g' ← set_tile g (Node.y neighbor) (Node.x neighbor) 4;
    Return (g', op ++ [neighbor])
  else Return (g, op).

(** [for i in range(len(open)): if open[i] == neighbor and
    neighbor.gCost < open[i].gCost: open[i] = neighbor] *)
Fixpoint replace_loop (idxs : list nat) (neighbor : Node.t) (op : list Node.t)
  : list Node.t :=
  match idxs with
  | [] => op
  | i :: idxs' =>
      let op' :=
        match op !! i with
        | Some o =>
            if Node.eqb o neighbor && (Node.gCost neighbor <? Node.gCost o)
            then <[i:=neighbor]> op else op
        | None => op
        end in
      replace_loop idxs' neighbor op'
  end.

(** The loop body of [AStar]. *)
Definition visit_astar (END : Node.t) (DIAGONAL : bool) (curr : Node.t)
    (closed : list Node.t) (s : grid * list Node.t) (neighbor : Node.t)
  : result (grid * list Node.t) :=
  let '(g, op) := s in
  p ← isPath g neighbor;
  if p && negb (Node.mem neighbor closed) then
    let neighbor := Node.set_gCost (Node.gCost curr + 1) neighbor in
    let neighbor := Node.set_hCost (HCost END DIAGONAL neighbor) neighbor in
    if Node.mem neighbor op then
      Return (g, replace_loop (seq 0 (length op)) neighbor op)
    else
      g' ← set_tile g (Node.y neighbor) (Node.x neighbor) 4;
      Return (g', op ++ [neighbor])
  else Return (g, op).

(** The part of a step after [curr] was taken from the open list, which
    the four functions share: [closed.append(curr)], the tile of [curr],
    the test against END and the loop over the neighbors. *)
Definition expand (visit : Node.t → list Node.t → grid * list Node.t → Node.t →
                           result (grid * list Node.t))
    (curr : Node.t) (rest : list Node.t) (st : state)
  : result (state * option bool) :=
  let closed' := closed st ++ [curr] in
  g ← set_tile (GRID st) (Node.y curr) (Node.x curr) 5;
  if Node.eqb curr (END st) then
    Return (set_GRID g (set_open rest (set_closed closed' st)), Some true)
  else
    '(g', op) ← for_each (visit curr closed')
                  (Node.getNeighbors (DIAGONAL st) curr) (g, rest);
    Return (set_GRID g' (set_open op (set_closed closed' st)), None).

Definition DFS (st : state) : result (state * option bool) :=
  match rev (open st) with
  | [] => Return (st, Some false)
  | curr :: r => expand (λ _, visit_plain) curr (rev r) st
  end.

Definition BFS (st : state) : result (state * option bool) :=
  match open st with
  | [] => Return (st, Some false)
  | curr :: rest => expand (λ _, visit_plain) curr rest st
  end.

Definition Greedy (st : state) : result (state * option bool) :=
  match open st with
  | [] => Return (st, Some false)
  | _ :: _ =>
      match sort_by Node.hCost (open st) with
      | curr :: rest =>
          expand (λ _, visit_greedy (END st) (DIAGONAL st)) curr rest st
      | [] => Raise IndexError
      end
  end.

Definition AStar (st : state) : result (state * option bool) :=
  match open st with
  | [] => Return (st, Some false)
  | _ :: _ =>
      match sort_by Node.fCost (open st) with
      | curr :: rest =>
          expand (visit_astar (END st) (DIAGONAL st)) curr rest st
      | [] => Raise IndexError
      end
  end.

Definition step (a : algorithm) : state → result (state * option bool) :=
  match a with
  | ALG_DFS => DFS
  | ALG_BFS => BFS
  | ALG_Greedy => Greedy
  | ALG_AStar => AStar
  end.

(** ** Path reconstruction

    [while parent != None] has no bound of its own (when [parent] is not
    found in [closed] the loop spins), hence the fuel: [None] means that
    the fuel ran out. *)
Fixpoint reconstruct_loop (fuel : nat) (closed : list Node.t) (g : grid)
    (curr : Node.t) (parent : option Node.t) : option (result grid) :=
  match parent with
  | None => Some (Return g)
  | Some p =>
      match fuel with
      | O => None
      | S fuel' =>
          match set_tile g (Node.y curr) (Node.x curr) 6 with
          | Raise e => Some (Raise e)
          | Return g' =>
              match find (λ node, Node.eqb p node) closed with
              | Some node => reconstruct_loop fuel' closed g' node (Node.parent node)
              | None => reconstruct_loop fuel' closed g' curr parent
              end
          end
      end
  end.

Definition reconstructPath (fuel : nat) (st : state) : option (result state) :=
  match rev (closed st) with
  | [] => Some (Raise IndexError)
  | curr :: r =>
      let closed' := rev r in
      match reconstruct_loop fuel closed' (GRID st) curr (Node.parent curr) with
      | None => None
      | Some (Raise e) => Some (Raise e)
      | Some (Return g) =>
          Some (g1 ← set_tile g (Node.y (START st)) (Node.x (START st)) 2;
                g2 ← set_tile g1 (Node.y (END st)) (Node.x (END st)) 3;
                Return (set_GRID g2 (set_closed closed' st)))
      end
  end.

(** ** The functions that depend on the grid dimensions

    [GRID_WIDTH] and [GRID_HEIGHT] are module constants of the source
    (both [WINDOW_HEIGHT // TILE_SIZE]); the development keeps them
    abstract. *)

Definition WINDOW_WIDTH : Z := 900.
Definition WINDOW_HEIGHT : Z := 600.
Definition DEFAULT_TILE_SIZE : Z := 20.
Definition TILE_SIZE : Z := DEFAULT_TILE_SIZE.

Definition getCoordsFromPosition (xPos yPos : Z) : Z * Z :=
  (yPos / TILE_SIZE, xPos / TILE_SIZE).

Definition setStart (START : option Node.t) (g : grid) (x y : Z)
  : result (grid * Node.t) :=
  g1 ← match START with
       | Some s => set_tile g (Node.y s) (Node.x s) 0
       | None => Return g
       end;
  g2 ← set_tile g1 y x 2;
  Return (g2, Node.init y x None).

Definition setEnd (END : option Node.t) (g : grid) (x y : Z)
  : result (grid * Node.t) :=
  g1 ← match END with
       | Some e => set_tile g (Node.y e) (Node.x e) 0
       | None => Return g
       end;
  g2 ← set_tile g1 y x 3;
  Return (g2, Node.init y x None).

Definition toggleDiagonal (st : state) : state :=
  if searching st then st else set_DIAGONAL (negb (DIAGONAL st)) st.

Inductive key := K_r | K_d | K_c | K_SPACE | K_s | K_e | K_other.

Section Dimensions.
Variables GRID_WIDTH GRID_HEIGHT : Z.

Definition inGrid (x y : Z) : bool :=
  ((0 <? x) && (x <? GRID_WIDTH - 1)) && ((0 <? y) && (y <? GRID_HEIGHT - 1)).

(** [for x in range(1, GRID_WIDTH - 1): for y in range(1, GRID_HEIGHT - 1):
    g = body(g, y, x)] *)
Definition for_interior (body : grid → Z → Z → result grid) (g : grid)
  : result grid :=
  for_each (λ g x, for_each (λ g y, body g y x) (range2 1 (GRID_HEIGHT - 1)) g)
           (range2 1 (GRID_WIDTH - 1)) g.

Definition mouseHandler (xPos yPos : Z) (clickType : Z) (st : state)
  : result state :=
  let '(y, x) := getCoordsFromPosition xPos yPos in
  if inGrid x y then
    v ← get_tile (GRID st) y x;
    if (v =? 0) || (v =? 1) then
      if clickType =? 1 then
        g ← set_tile (GRID st) y x 1; Return (set_GRID g st)
      else if clickType =? 3 then
        g ← set_tile (GRID st) y x 0; Return (set_GRID g st)
      else Return st
    else Return st
  else Return st.

Definition clear (st : state) : result state :=
  g ← for_interior (λ g y x, set_tile g y x 0) (GRID st);
  g1 ← set_tile g (Node.y (START st)) (Node.x (START st)) 2;
  g2 ← set_tile g1 (Node.y (END st)) (Node.x (END st)) 3;
  Return (set_searching false (set_GRID g2 st)).

(** The body that [reset] and [start] share. *)
Definition erase_search (g : grid) (y x : Z) : result grid :=
  v ← get_tile g y x;
  if (v =? 4) || (v =? 5) || (v =? 6) then set_tile g y x 0 else Return g.

Definition reset (st : state) : result state :=
  let st := set_closed [] (set_open [START st] st) in
  g ← for_interior erase_search (GRID st);
  g1 ← set_tile g (Node.y (START st)) (Node.x (START st)) 2;
  g2 ← set_tile g1 (Node.y (END st)) (Node.x (END st)) 3;
  Return (set_searching false (set_GRID g2 st)).

Definition start (st : state) : result state :=
  let st := set_closed [] (set_open [START st] st) in
  g ← for_interior erase_search (GRID st);
  g1 ← set_tile g (Node.y (START st)) (Node.x (START st)) 2;
  g2 ← set_tile g1 (Node.y (END st)) (Node.x (END st)) 3;
  Return (set_searching true (set_GRID g2 st)).

Definition selectAlgorithm (a : algorithm) (st : state) : result state :=
  if searching st then Return st else start (set_ALGORITHM a st).

(** [xPos], [yPos] are what [pygame.mouse.get_pos()] returns. *)
Definition keyHandler (k : key) (xPos yPos : Z) (st : state) : result state :=
  match k with
  | K_r => reset st
  | K_d => Return (toggleDiagonal st)
  | K_c => clear st
  | _ =>
      if searching st then Return st
      else match k with
           | K_SPACE => start st
           | K_s =>
               let '(y, x) := getCoordsFromPosition xPos yPos in
               if inGrid x y && negb (bool_decide ((y, x) = Node.getPos (END st))) then
                 '(g, s) ← setStart (Some (START st)) (GRID st) x y;
                 Return (set_START s (set_GRID g st))
               else Return st
           | K_e =>
               let '(y, x) := getCoordsFromPosition xPos yPos in
               if inGrid x y && negb (bool_decide ((y, x) = Node.getPos (START st))) then
                 '(g, e) ← setEnd (Some (END st)) (GRID st) x y;
                 Return (set_END e (set_GRID g st))
               else Return st
           | _ => Return st
           end
  end.

(** The set-up that [main] performs before its event loop. *)
Definition main_setup : result state :=
  let g := replicate (Z.to_nat GRID_HEIGHT) (replicate (Z.to_nat GRID_WIDTH) 0) in
  g ← for_each (λ g x, g1 ← set_tile g 0 x 1; set_tile g1 (GRID_HEIGHT - 1) x 1)
        (range GRID_WIDTH) g;
  g ← for_each (λ g y, g1 ← set_tile g y 0 1; set_tile g1 y (GRID_WIDTH - 1) 1)
        (range GRID_HEIGHT) g;
  '(g, s) ← setStart None g 1 1;
  '(g, e) ← setEnd None g (GRID_WIDTH - 2) (GRID_HEIGHT - 2);
  Return (mkState g s e ALG_AStar true [] [] false).

(** One pass of the search part of the event loop:
    [if searching: found = ALGORITHM(); ...]. *)
Definition tick (fuel : nat) (st : state) : option (result state) :=
  if searching st then
    match step (ALGORITHM st) st with
    | Raise e => Some (Raise e)
    | Return (st', Some false) => Some (Return (set_searching false st'))
    | Return (st', Some true) =>
        match reconstructPath fuel st' with
        | Some (Return st'') => Some (Return (set_searching false st''))
        | r => r
        end
    | Return (st', None) => Some (Return st')
    end
  else Some (Return st).

End Dimensions.

(** ** Drivers *)

(** [n] calls of a step function, whatever they return. *)
Fixpoint steps (alg : state → result (state * option bool)) (n : nat)
    (st : state) : result state :=
  match n with
  | O => Return st
  | S n' => '(st', _) ← alg st; steps alg n' st'
  end.

(** Calls the step function until it returns [True] or [False], at most
    [n] times; the outcome is [None] when the [n] calls all returned
    [None]. *)
Fixpoint search (alg : state → result (state * option bool)) (n : nat)
    (st : state) : result (state * option bool) :=
  match n with
  | O => Return (st, None)
  | S n' =>
      '(st', found) ← alg st;
      match found with
      | Some b => Return (st', Some b)
      | None => search alg n' st'
      end
  end.

(** * Auxiliary definitions for the statements *)

(** ** Coordinates and dimensions *)

Definition in_range (W H y x : Z) : Prop := 0 ≤ y < H ∧ 0 ≤ x < W.
Definition interior (W H y x : Z) : Prop := 0 < y < H - 1 ∧ 0 < x < W - 1.
Definition node_interior (W H : Z) (n : Node.t) : Prop :=
  interior W H (Node.y n) (Node.x n).

Definition grid_dims (W H : Z) (g : grid) : Prop :=
  length g = Z.to_nat H ∧ ∀ row, row ∈ g → length row = Z.to_nat W.

(** The tile at non-negative coordinates, [0] outside the matrix. *)
Definition cell (g : grid) (y x : Z) : Z :=
  default 0 (row ← g !! Z.to_nat y; row !! Z.to_nat x).



(** ** Valid global states

    [valid] is the executable check, [Valid] the same facts as a
    proposition about the tiles. *)

Definition tile_is (g : grid) (y x v : Z) : bool :=
  match get_tile g y x with
  | Return u => u =? v
  | Raise _ => false
  end.

Definition dims_ok (W H : Z) (g : grid) : bool :=
  bool_decide (length g = Z.to_nat H) &&
  forallb (λ row : list Z, bool_decide (length row = Z.to_nat W)) g.

Definition on_border (W H y x : Z) : bool :=
  (y =? 0) || (y =? H - 1) || (x =? 0) || (x =? W - 1).

Definition border_walls (W H : Z) (g : grid) : bool :=
  forallb (λ y, forallb (λ x, implb (on_border W H y x) (tile_is g y x Wall))
                        (range W))
          (range H).

Definition node_inGrid (W H : Z) (n : Node.t) : bool :=
  inGrid W H (Node.x n) (Node.y n).

Definition is_root (n : Node.t) : bool :=
  match Node.parent n with
  | None => true
  | Some _ => false
  end.

(** The matrix is [H] rows of [W] tiles, its border is Wall, the Start
    and End nodes and the nodes of both lists lie inside the border, and
    the Start node has no discoverer. *)
Definition valid (W H : Z) (st : state) : bool :=
  dims_ok W H (GRID st) && border_walls W H (GRID st) &&
  node_inGrid W H (START st) && node_inGrid W H (END st) &&
  forallb (node_inGrid W H) (open st) && forallb (node_inGrid W H) (closed st) &&
  is_root (START st).

Record Valid (W H : Z) (st : state) : Prop := {
  v_dims : grid_dims W H (GRID st);
  v_border : ∀ y x, in_range W H y x → ¬ interior W H y x → cell (GRID st) y x = 1;
  v_start : node_interior W H (START st);
  v_end : node_interior W H (END st);
  v_open : ∀ n, n ∈ open st → node_interior W H n;
  v_closed : ∀ n, n ∈ closed st → node_interior W H n;
  v_root : Node.parent (START st) = None
}.

(** ** The part of validity that the steps work on *)
Record BaseInv (W H : Z) (g : grid) (op cl : list Node.t) : Prop := {
  bi_dims : grid_dims W H g;
  bi_border : ∀ y x, in_range W H y x → ¬ interior W H y x → cell g y x = 1;
  bi_interior : ∀ n, n ∈ op ++ cl → node_interior W H n
}.

(** ** The invariant of a search run

    [g0] is the matrix when the run was seeded, [g] the current matrix,
    [op] and [cl] the open and the closed list. *)
Record RunInv (W H : Z) (START : Node.t) (g0 g : grid) (op cl : list Node.t)
  : Prop := {
  ri_dims : grid_dims W H g;
  ri_border : ∀ y x, in_range W H y x → ¬ interior W H y x → cell g y x = 1;
  ri_interior : ∀ n, n ∈ op ++ cl → node_interior W H n;
  ri_nodup : NoDup (Node.getPos <$> (op ++ cl));
  ri_parent : ∀ n, n ∈ op ++ cl →
              match Node.parent n with
              | None => n = START
              | Some p => p ∈ cl
              end;
  ri_pass : ∀ n, n ∈ op ++ cl → cell g (Node.y n) (Node.x n) ≠ 1;
  ri_nofinal : ∀ y x, in_range W H y x → cell g y x ≠ 6;
  ri_walls : ∀ y x, in_range W H y x → cell g y x = 1 ↔ cell g0 y x = 1
}.

(** What the body of the neighbor loop can do with one neighbor [nb]:
    nothing, admit it (possibly with its costs filled in) and mark its
    tile, or (A* only) run the replacement loop over the open list. *)
Inductive visit_outcome (cl : list Node.t) (g : grid) (op : list Node.t)
    (nb : Node.t) : grid * list Node.t → Prop :=
| vo_skip : visit_outcome cl g op nb (g, op)
| vo_admit nb' g' :
    Node.getPos nb' = Node.getPos nb → Node.parent nb' = Node.parent nb →
    cell g (Node.y nb) (Node.x nb) ≠ 1 →
    Node.mem nb cl = false → Node.mem nb op = false →
    set_tile g (Node.y nb) (Node.x nb) 4 = Return g' →
    visit_outcome cl g op nb (g', op ++ [nb'])
| vo_replace nb' :
    Node.getPos nb' = Node.getPos nb → Node.parent nb' = Node.parent nb →
    cell g (Node.y nb) (Node.x nb) ≠ 1 →
    Node.mem nb cl = false → Node.mem nb op = true →
    visit_outcome cl g op nb (g, replace_loop (seq 0 (length op)) nb' op).

(** The entry that the replacement loop of A* leaves at the place of [o]. *)
Definition relaxed (nb o : Node.t) : Node.t :=
  if Node.eqb o nb && (Node.gCost nb <? Node.gCost o) then nb else o.

Definition run_inv (W H : Z) (g0 : grid) (st : state) : Prop :=
  RunInv W H (START st) g0 (GRID st) (open st) (closed st).

(** A loop body that, inside the matrix, returns one of the outcomes. *)
Definition visit_ok (W H : Z)
    (visit : Node.t → list Node.t → grid * list Node.t → Node.t →
             result (grid * list Node.t)) : Prop :=
  ∀ curr cl g op nb,
    grid_dims W H g → in_range W H (Node.y nb) (Node.x nb) →
    ∃ s', visit curr cl (g, op) nb = Return s' ∧ visit_outcome cl g op nb s'.

(** The parts of the global state that no step function assigns. *)
Definition same_globals (st st' : state) : Prop :=
  START st' = START st ∧ END st' = END st ∧ ALGORITHM st' = ALGORITHM st ∧
  DIAGONAL st' = DIAGONAL st ∧ searching st' = searching st.

(** The outcome of a step in terms of the node it took from the open list. *)
Definition step_outcome (st st' : state) (r : option bool) : Prop :=
  match r with
  | Some false => open st = [] ∧ st' = st
  | _ => ∃ curr, curr ∈ open st ∧ closed st' = closed st ++ [curr] ∧
                 r = (if Node.eqb curr (END st) then Some true else None)
  end.

(** What [reset] and [start] leave of a tile inside the border. *)
Definition erased (v : Z) : Z :=
  if (v =? 4) || (v =? 5) || (v =? 6) then 0 else v.

(** The matrix has the right dimensions and a border of Wall tiles. *)
Definition grid_ok (W H : Z) (g : grid) : Prop :=
  grid_dims W H g ∧
  ∀ y x, in_range W H y x → ¬ interior W H y x → cell g y x = 1.

(** ** The operations that change the global state *)

Inductive operation :=
| OpMouse (xPos yPos clickType : Z)
| OpKey (k : key) (xPos yPos : Z)
| OpClear
| OpReset
| OpStart
| OpSelect (a : algorithm)
| OpToggleDiagonal
| OpStep (a : algorithm)
| OpReconstruct (fuel : nat)
| OpTick (fuel : nat).

Definition apply_op (W H : Z) (o : operation) (st : state)
  : option (result state) :=
  match o with
  | OpMouse xPos yPos c => Some (mouseHandler W H xPos yPos c st)
  | OpKey k xPos yPos => Some (keyHandler W H k xPos yPos st)
  | OpClear => Some (clear W H st)
  | OpReset => Some (reset W H st)
  | OpStart => Some (start W H st)
  | OpSelect a => Some (selectAlgorithm W H a st)
  | OpToggleDiagonal => Some (Return (toggleDiagonal st))
  | OpStep a => Some ('(st', _) ← step a st; Return st')
  | OpReconstruct fuel => reconstructPath fuel st
  | OpTick fuel => tick fuel st
  end.

(** The node that a step function takes from the open list. *)
Definition taken (a : algorithm) (st : state) : option Node.t :=
  match a with
  | ALG_DFS => head (rev (open st))
  | ALG_BFS => head (open st)
  | ALG_Greedy => head (sort_by Node.hCost (open st))
  | ALG_AStar => head (sort_by Node.fCost (open st))
  end.

(** The coordinates at which a step reads or writes the matrix: the tile
    of the node it takes and, unless that is the End node, the tile of
    every neighbor ([isPath], then the write when it is admitted). *)
Definition accessed (a : algorithm) (st : state) : list (Z * Z) :=
  match taken a st with
  | None => []
  | Some curr =>
      Node.getPos curr ::
      (if Node.eqb curr (END st) then []
       else Node.getPos <$> Node.getNeighbors (DIAGONAL st) curr)
  end.

(** The coordinates that are in the open list [op'] and were not in [op]. *)
Definition newly (op' op : list Node.t) (y x : Z) : bool :=
  bool_decide ((y, x) ∈ Node.getPos <$> op') &&
  negb (bool_decide ((y, x) ∈ Node.getPos <$> op)).

(** The candidate that [AStar] makes of the neighbor [nb] of [curr]:
    [nb] with its two costs assigned. *)
Definition candidate (END : Node.t) (DIAGONAL : bool) (curr nb : Node.t) : Node.t :=
  Node.set_hCost (HCost END DIAGONAL (Node.set_gCost (Node.gCost curr + 1) nb))
                 (Node.set_gCost (Node.gCost curr + 1) nb).

(** The discoverer chain of a node without its last node (the one that
    has no discoverer): the nodes at which the loop of [reconstructPath]
    writes a tile. *)
Fixpoint chain_init (n : Node.t) : list Node.t :=
  match Node.parent n with
  | Some p => n :: chain_init p
  | None => []
  end.

(** The last node of the discoverer chain. *)
Fixpoint chain_root (n : Node.t) : Node.t :=
  match Node.parent n with
  | Some p => chain_root p
  | None => n
  end.

(** ** A small fixture: a 6 x 6 matrix with a wall inside *)

Definition example_grid : grid :=
  [ [1; 1; 1; 1; 1; 1];
    [1; 2; 0; 0; 0; 1];
    [1; 0; 1; 1; 0; 1];
    [1; 0; 0; 1; 0; 1];
    [1; 0; 0; 0; 3; 1];
    [1; 1; 1; 1; 1; 1] ].

Definition example_state (a : algorithm) (diagonal : bool) : state :=
  mkState example_grid (Node.init 1 1 None) (Node.init 4 4 None) a diagonal
          [] [] false.

(** The state of [r], or [d] when [r] is an exception. *)
Definition state_of (r : result state) (d : state) : state :=
  match r with
  | Return st => st
  | Raise _ => d
  end.

(** The fixture after [start()]. *)
Definition example_seeded (a : algorithm) (diagonal : bool) : state :=
  state_of (start 6 6 (example_state a diagonal)) (example_state a diagonal).

(** A fixture in which the End tile is walled in. *)
Definition blocked_grid : grid :=
  [ [1; 1; 1; 1; 1; 1];
    [1; 2; 0; 0; 0; 1];
    [1; 0; 0; 0; 0; 1];
    [1; 0; 0; 1; 1; 1];
    [1; 0; 0; 1; 3; 1];
    [1; 1; 1; 1; 1; 1] ].

Definition blocked_state (a : algorithm) (diagonal : bool) : state :=
  mkState blocked_grid (Node.init 1 1 None) (Node.init 4 4 None) a diagonal
          [] [] false.

(** The blocked fixture after [start()] and a search to the end. *)
Definition blocked_finished (a : algorithm) (diagonal : bool) : state :=
  match search (step a) 36 (state_of (start 6 6 (blocked_state a diagonal))
                                     (blocked_state a diagonal)) with
  | Return (st, _) => st
  | Raise _ => blocked_state a diagonal
  end.

(** The seeded fixture after [k] calls of [BFS]. *)
Definition example_after (k : nat) : state :=
  state_of (steps BFS k (example_seeded ALG_BFS false))
           (example_seeded ALG_BFS false).

(** The number of tiles inside the border. *)
Definition interior_size (W H : Z) : nat := Z.to_nat ((W - 2) * (H - 2)).

(** The fixture after [start()] and a search with [a] that is run to its
    end. *)
Definition example_finished (a : algorithm) (diagonal : bool) : state :=
  match search (step a) 36 (example_seeded a diagonal) with
  | Return (st, _) => st
  | Raise _ => example_seeded a diagonal
  end.

(** ** Auxiliary definitions for the user-interface code and the costs *)

(** Two coordinates one move apart: in a row or a column, or, with
    diagonal movement, in any of the eight directions. *)
Definition one_move (diagonal : bool) (c c' : Z * Z) : Prop :=
  let dy := Z.abs (c'.1 - c.1) in
  let dx := Z.abs (c'.2 - c.2) in
  if diagonal then Z.max dy dx = 1 else dy + dx = 1.

(** A walk: every coordinate is one move from the one before it. *)
Fixpoint is_walk (diagonal : bool) (c : Z * Z) (p : list (Z * Z)) : Prop :=
  match p with
  | [] => True
  | c' :: p' => one_move diagonal c c' ∧ is_walk diagonal c' p'
  end.

(** What a mouse button does to a tile: the left button makes a Wall of a
    Path tile, the right button a Path tile of a Wall, and no button
    changes any other tile. *)
Definition painted (clickType v : Z) : Z :=
  if (v =? 0) || (v =? 1) then
    if clickType =? 1 then 1 else if clickType =? 3 then 0 else v
  else v.

(** No tile but the one at the coordinates of the Start node is a Start
    tile, and no tile but the one at the coordinates of the End node is
    an End tile: the executable check and the proposition. *)
Definition ends_only (W H : Z) (st : state) : bool :=
  forallb (λ y, forallb (λ x,
      implb (tile_is (GRID st) y x Start)
            (bool_decide ((y, x) = Node.getPos (START st))) &&
      implb (tile_is (GRID st) y x End_tile)
            (bool_decide ((y, x) = Node.getPos (END st))))
    (range W)) (range H).

Definition EndsOnly (W H : Z) (g : grid) (S E : Node.t) : Prop :=
  ∀ y x, in_range W H y x →
    (cell g y x = 2 → (y, x) = Node.getPos S) ∧
    (cell g y x = 3 → (y, x) = Node.getPos E).

(** The settings of a search: the two end nodes, the movement model and
    the algorithm. *)
Definition keeps_settings (st st' : state) : Prop :=
  START st' = START st ∧ END st' = END st ∧
  DIAGONAL st' = DIAGONAL st ∧ ALGORITHM st' = ALGORITHM st.

(** The operations that test [searching] before they do anything: the
    keys D, SPACE, S and E (and a key without a binding, which never does
    anything), the algorithm buttons and [toggleDiagonal]. *)
Definition locked (o : operation) : bool :=
  match o with
  | OpKey k _ _ =>
      match k with
      | K_r | K_c => false
      | K_d | K_SPACE | K_s | K_e | K_other => true
      end
  | OpSelect _ | OpToggleDiagonal => true
  | _ => false
  end.

Definition ends_kept (W H : Z) (st st' : state) : Prop :=
  EndsOnly W H (GRID st) (START st) (END st) →
  EndsOnly W H (GRID st') (START st') (END st').

(** The state after an operation, or the state itself when the operation
    raises an exception or runs out of fuel. *)
Definition after_op (W H : Z) (o : operation) (st : state) : state :=
  match apply_op W H o st with
  | Some (Return st') => st'
  | _ => st
  end.

(** [n] passes of the search part of the event loop; it stops at the
    first exception or when the fuel of [reconstructPath] runs out. *)
Fixpoint ticks (fuel : nat) (n : nat) (st : state) : option (result state) :=
  match n with
  | O => Some (Return st)
  | S n' =>
      match tick fuel st with
      | Some (Return st') => ticks fuel n' st'
      | r => r
      end
  end.

(** The open list after a step function has taken its node from it. *)
Definition remaining (a : algorithm) (st : state) : list Node.t :=
  match a with
  | ALG_DFS => rev (tail (rev (open st)))
  | ALG_BFS => tail (open st)
  | ALG_Greedy => tail (sort_by Node.hCost (open st))
  | ALG_AStar => tail (sort_by Node.fCost (open st))
  end.

(** The test of the neighbor loop of [DFS], [BFS] and [Greedy]: the tile
    is not a Wall and the coordinates are neither in the closed nor in
    the open list. *)
Definition admissible (g : grid) (cl op : list Node.t) (nb : Node.t) : bool :=
  negb (cell g (Node.y nb) (Node.x nb) =? 1) &&
  negb (Node.mem nb cl) && negb (Node.mem nb op).

(** The node that the loop body of each algorithm makes of the neighbor
    [nb] of [curr] before it puts it on the open list. *)
Definition made (a : algorithm) (E : Node.t) (d : bool) (curr nb : Node.t) : Node.t :=
  match a with
  | ALG_DFS | ALG_BFS => nb
  | ALG_Greedy => Node.set_hCost (HCost E d nb) nb
  | ALG_AStar => candidate E d curr nb
  end.

(** The neighbors of [curr] that a step of [DFS], [BFS] or [Greedy] puts
    on the open list, in the order in which it does. *)
Definition admitted (a : algorithm) (st : state) (curr : Node.t) : list Node.t :=
  made a (END st) (DIAGONAL st) curr <$>
  List.filter (admissible (GRID st) (closed st ++ [curr]) (remaining a st))
              (Node.getNeighbors (DIAGONAL st) curr).

(** The costs that a run keeps in a node other than the Start node [S]:
    [DFS] and [BFS] leave both at 0, [Greedy] sets [hCost] to the
    heuristic, [AStar] sets [hCost] to the heuristic and [gCost] to the
    number of moves along the discoverer chain (on top of the [gCost] of
    the Start node, which no step writes). *)
Definition bookkeeping (a : algorithm) (S E : Node.t) (d : bool) (n : Node.t) : Prop :=
  match a with
  | ALG_DFS | ALG_BFS => n = S ∨ (Node.gCost n = 0 ∧ Node.hCost n = 0)
  | ALG_Greedy => n = S ∨ (Node.gCost n = 0 ∧ Node.hCost n = HCost E d n)
  | ALG_AStar =>
      Node.gCost n = Node.gCost S + Z.of_nat (Node.depth n) ∧
      (n = S ∨ Node.hCost n = HCost E d n)
  end.

(** The discoverer chain of [n] is a walk that ends at the node [S]. *)
Definition chain_walk (S : Node.t) (d : bool) (n : Node.t) : Prop :=
  is_walk d (Node.getPos n) (Node.getPos <$> tail (Node.chain n)) ∧
  last (Node.chain n) = Some S.

(** The fixture after [start()] and [k] calls of the step function. *)
Definition example_run (a : algorithm) (diagonal : bool) (k : nat) : state :=
  state_of (steps (step a) k (example_seeded a diagonal))
           (example_seeded a diagonal).

(** A node of the open list of the fixture after four calls of [DFS]. *)
Definition example_node : Node.t :=
  Node.init 4 2 (Some (Node.init 4 1 (Some (Node.init 3 1 (Some
    (Node.init 2 1 (Some (Node.init 1 1 None)))))))).

(** A state whose closed list ends with a node whose discoverer is not
    in the list. *)
Definition orphan_state : state :=
  mkState example_grid (Node.init 1 1 None) (Node.init 4 4 None) ALG_BFS false
          [] [Node.init 1 1 None; Node.init 4 4 (Some (Node.init 4 3 None))] true.

(** ** Auxiliary definitions for the removal from the open list *)

(** The key of [open.sort(key = ...)]: [node.hCost] in [Greedy],
    [node.fCost()], that is [gCost + hCost], in [AStar]. *)
Definition priority_key (a : algorithm) (n : Node.t) : Z :=
  match a with
  | ALG_Greedy => Node.hCost n
  | _ => Node.gCost n + Node.hCost n
  end.


(** The loop body of each step function. *)
Definition visit_of (a : algorithm) (st : state)
  : Node.t → list Node.t → grid * list Node.t → Node.t →
    result (grid * list Node.t) :=
  match a with
  | ALG_DFS | ALG_BFS => λ _, visit_plain
  | ALG_Greedy => λ _, visit_greedy (END st) (DIAGONAL st)
  | ALG_AStar => visit_astar (END st) (DIAGONAL st)
  end.







(** The state after [start()], and after [k] further calls of the step
    function. *)
Definition seeded (W H : Z) (st : state) : state := state_of (start W H st) st.

Definition after_run (a : algorithm) (k : nat) (st : state) : state :=
  state_of (steps (step a) k st) st.



Definition pair_grid : grid :=
  [ [1; 1; 1; 1; 1; 1; 1];
    [1; 2; 0; 1; 1; 0; 1];
    [1; 0; 1; 0; 0; 1; 1];
    [1; 1; 0; 0; 0; 0; 1];
    [1; 1; 1; 1; 1; 0; 1];
    [1; 3; 0; 0; 1; 0; 1];
    [1; 1; 1; 1; 1; 1; 1] ].

Definition pair_state : state :=
  mkState pair_grid (Node.init 1 1 None) (Node.init 5 1 None) ALG_AStar true
          [] [] false.

(** ** Auxiliary definitions for the relaxation of A* *)

(** What the loop of [AStar] over the neighbors [nbs] of [curr] leaves at
    the place of the entry [o] of the open list: when a neighbor has the
    coordinates of [o], is not on a Wall tile and not in the closed list
    [cl], the candidate made of it if its g-cost is lower than that of
    [o], and [o] otherwise. *)
Definition relax_by (g : grid) (cl : list Node.t) (E : Node.t) (d : bool)
    (curr : Node.t) (nbs : list Node.t) (o : Node.t) : Node.t :=
  match find (λ nb, Node.eqb o nb) nbs with
  | Some nb =>
      if negb (cell g (Node.y nb) (Node.x nb) =? 1) && negb (Node.mem nb cl)
      then relaxed (candidate E d curr nb) o
      else o
  | None => o
  end.

Definition relax_entry (st : state) (curr o : Node.t) : Node.t :=
  relax_by (GRID st) (closed st ++ [curr]) (END st) (DIAGONAL st) curr
           (Node.getNeighbors (DIAGONAL st) curr) o.

(** The entries of the open list that a step leaves in it, in their new
    order: the list without the node taken, in [AStar] with every entry
    relaxed at its place. *)
Definition kept (a : algorithm) (st : state) (curr : Node.t) : list Node.t :=
  match a with
  | ALG_AStar => relax_entry st curr <$> remaining a st
  | _ => remaining a st
  end.

(** ** Auxiliary definitions for the shortest path of BFS *)

(** A tile of the W x H matrix that is not a Wall. *)
Definition passable (W H : Z) (g : grid) (c : Z * Z) : Prop :=
  in_range W H c.1 c.2 ∧ cell g c.1 c.2 ≠ 1.

(** A list of coordinates each of which is one move from the one before
    it. *)
Fixpoint is_path (d : bool) (l : list (Z * Z)) : Prop :=
  match l with
  | c :: (c' :: _) as t => one_move d c c' ∧ is_path d t
  | _ => True
  end.

(** A route from [c] to [c']: a path over tiles that are not Walls; the
    list holds both ends, so the route has one move less than the list
    has entries. *)
Definition route (W H : Z) (g : grid) (d : bool) (c c' : Z * Z)
    (l : list (Z * Z)) : Prop :=
  head l = Some c ∧ last l = Some c' ∧ is_path d l ∧ Forall (passable W H g) l.

Definition moves (l : list (Z * Z)) : nat := pred (length l).

(** The coordinates of the discoverer chain of a node, from the node
    without discoverer to the node itself. *)
Definition chain_route (n : Node.t) : list (Z * Z) :=
  rev (Node.getPos <$> Node.chain n).

(** The order of the open list of BFS: the number of chain edges does not
    fall, and it rises by at most 1. *)
Definition level_le (a b : Node.t) : Prop :=
  (Node.depth a ≤ Node.depth b ≤ Node.depth a + 1)%nat.

(** The invariant of a run of BFS before the End node is taken: the open
    list is in level order; every tile that is not a Wall and one move
    from a node of the closed list has a node in one of the lists; no
    node of the lists has more chain edges than a route from the Start
    tile to its tile has moves; the chain of every node is a walk that
    ends at the Start node; and no node of the closed list has the
    coordinates of the End node. *)
Record BfsInv (W H : Z) (g0 : grid) (d : bool) (S0 E0 : Node.t)
    (op cl : list Node.t) : Prop := {
  bf_sorted : StronglySorted level_le op;
  bf_expanded : ∀ u c, u ∈ cl → one_move d (Node.getPos u) c → passable W H g0 c →
                c ∈ Node.getPos <$> (op ++ cl);
  bf_short : ∀ n l, n ∈ op ++ cl →
             route W H g0 d (Node.getPos S0) (Node.getPos n) l →
             (Node.depth n ≤ moves l)%nat;
  bf_start : Node.getPos S0 ∈ Node.getPos <$> (op ++ cl);
  bf_chain : ∀ n, n ∈ op ++ cl → chain_walk S0 d n;
  bf_noend : ∀ n, n ∈ cl → Node.eqb n E0 = false
}.

(** * Properties *)

(** ** The result monad *)

Lemma bind_Return {A B : Type} (m : result A) (f : A → result B) (b : B) :
  m ≫= f = Return b ↔ ∃ a, m = Return a ∧ f a = Return b.
Proof.
  destruct m as [a|e]; simpl.
  - split; [eauto | intros (a' & [= <-] & H); exact H].
  - split; [discriminate | intros (a' & [=] & _)].
Qed.

Ltac inv_bind H :=
  repeat match type of H with
  | _ ≫= _ = Return _ =>
      let a := fresh "r" in let H1 := fresh "H" in
      apply bind_Return in H; destruct H as (a & H1 & H)
  end.

(** ** Indexing inside the bounds *)

Lemma inGrid_interior W H x y : inGrid W H x y = true ↔ interior W H y x.
Proof. unfold inGrid, interior. rewrite !andb_true_iff, !Z.ltb_lt. lia. Qed.

Lemma interior_in_range W H y x : interior W H y x → in_range W H y x.
Proof. unfold interior, in_range. lia. Qed.

Lemma py_index_nonneg (len : nat) (i : Z) :
  0 ≤ i < Z.of_nat len → py_index len i = Some (Z.to_nat i).
Proof.
  intros Hi. unfold py_index.
  replace (0 <=? i) with true by (symmetry; apply Z.leb_le; lia).
  replace (i <? Z.of_nat len) with true by (symmetry; apply Z.ltb_lt; lia).
  reflexivity.
Qed.

Lemma getitem_nonneg {A : Type} (l : list A) (i : Z) (a : A) :
  0 ≤ i → l !! Z.to_nat i = Some a → getitem l i = Return a.
Proof.
  intros Hi Hl. unfold getitem.
  rewrite py_index_nonneg, Hl; [done|].
  apply lookup_lt_Some in Hl. lia.
Qed.

Lemma setitem_nonneg {A : Type} (l : list A) (i : Z) (v : A) :
  0 ≤ i < Z.of_nat (length l) → setitem l i v = Return (<[Z.to_nat i:=v]> l).
Proof. intros Hi. unfold setitem. by rewrite py_index_nonneg. Qed.

Lemma grid_row W H g y :
  grid_dims W H g → 0 ≤ y < H →
  ∃ row, g !! Z.to_nat y = Some row ∧ length row = Z.to_nat W.
Proof.
  intros [Hl Hr] Hy.
  destruct (lookup_lt_is_Some_2 g (Z.to_nat y)) as [row Hrow]; [lia|].
  exists row. split; [done|]. apply Hr. by eapply list_elem_of_lookup_2.
Qed.

Lemma get_tile_cell W H g y x :
  grid_dims W H g → in_range W H y x → get_tile g y x = Return (cell g y x).
Proof.
  intros Hd [Hy Hx]. destruct (grid_row W H g y Hd Hy) as (row & Hrow & Hlen).
  destruct (lookup_lt_is_Some_2 row (Z.to_nat x)) as [v Hv]; [lia|].
  unfold get_tile, cell. rewrite (getitem_nonneg g y row) by (done || lia).
  simpl. rewrite Hrow. simpl. rewrite Hv. simpl.
  apply getitem_nonneg; [lia | done].
Qed.

(** Writing one tile inside the matrix succeeds, keeps the dimensions and
    changes that tile only. *)
Lemma set_tile_cell W H g y x v :
  grid_dims W H g → in_range W H y x →
  ∃ g', set_tile g y x v = Return g' ∧ grid_dims W H g' ∧
        ∀ y' x', 0 ≤ y' → 0 ≤ x' →
          cell g' y' x' = if decide (y' = y ∧ x' = x) then v else cell g y' x'.
Proof.
  intros Hd [Hy Hx]. destruct (grid_row W H g y Hd Hy) as (row & Hrow & Hlen).
  destruct Hd as [Hl Hr].
  exists (<[Z.to_nat y := <[Z.to_nat x := v]> row]> g). split; [|split].
  - unfold set_tile. rewrite (getitem_nonneg g y row) by (done || lia). simpl.
    rewrite setitem_nonneg by lia. simpl. apply setitem_nonneg. lia.
  - split; [by rewrite length_insert|].
    intros r Hin. apply list_elem_of_lookup in Hin as [i Hi].
    destruct (decide (i = Z.to_nat y)) as [->|Hne].
    + rewrite list_lookup_insert_eq in Hi by lia.
      injection Hi as <-. by rewrite length_insert.
    + rewrite list_lookup_insert_ne in Hi by done.
      apply Hr. by eapply list_elem_of_lookup_2.
  - intros y' x' Hy' Hx'. unfold cell.
    destruct (decide (y' = y)) as [->|Hne].
    + rewrite list_lookup_insert_eq by lia. simpl.
      destruct (decide (x' = x)) as [->|Hnx].
      * rewrite list_lookup_insert_eq by lia.
        by rewrite decide_True.
      * rewrite list_lookup_insert_ne by lia.
        rewrite decide_False by tauto. by rewrite Hrow.
    + rewrite list_lookup_insert_ne by lia.
      by rewrite decide_False by tauto.
Qed.

Lemma isPath_cell W H g n :
  grid_dims W H g → in_range W H (Node.y n) (Node.x n) →
  isPath g n = Return (negb (cell g (Node.y n) (Node.x n) =? 1)).
Proof. intros Hd Hr. unfold isPath. by rewrite (get_tile_cell W H). Qed.

(** ** Node identity *)

Lemma Node_eqb_true (a b : Node.t) :
  Node.eqb a b = true ↔ Node.getPos a = Node.getPos b.
Proof.
  unfold Node.eqb, Node.getPos. rewrite andb_true_iff, !Z.eqb_eq.
  split; [intros [-> ->]; done | intros [= -> ->]; done].
Qed.

Lemma Node_eqb_false (a b : Node.t) :
  Node.eqb a b = false ↔ Node.getPos a ≠ Node.getPos b.
Proof.
  rewrite <- Node_eqb_true. destruct (Node.eqb a b); split; congruence.
Qed.

Lemma Node_eqb_sym (a b : Node.t) : Node.eqb a b = Node.eqb b a.
Proof. unfold Node.eqb. by rewrite (Z.eqb_sym (Node.y a)), (Z.eqb_sym (Node.x a)). Qed.

Lemma Node_mem_true (n : Node.t) (l : list Node.t) :
  Node.mem n l = true ↔ Node.getPos n ∈ Node.getPos <$> l.
Proof.
  unfold Node.mem. rewrite existsb_exists, list_elem_of_fmap.
  split.
  - intros (m & Hin & Heq). exists m. apply Node_eqb_true in Heq.
    split; [done | by apply list_elem_of_In].
  - intros (m & Heq & Hin). exists m.
    split; [by apply list_elem_of_In | by apply Node_eqb_true].
Qed.

Lemma Node_mem_false (n : Node.t) (l : list Node.t) :
  Node.mem n l = false ↔ Node.getPos n ∉ Node.getPos <$> l.
Proof.
  rewrite <- Node_mem_true. destruct (Node.mem n l); split; congruence.
Qed.

(** C9: two nodes compare equal exactly when their row and column
    coordinates are equal (also against [None], which is never equal to a
    node); the discoverer and the two cost fields play no part in the
    comparison. *)
Theorem Node_eq_is_coordinate_equality :
  (∀ a b : Node.t,
     Node.eqb a b = true ↔ Node.y a = Node.y b ∧ Node.x a = Node.x b) ∧
  (∀ a : Node.t, Node.eqb_obj a None = false) ∧
  (∀ (a b : Node.t) (pa pb : option Node.t) (ga ha gb hb : Z),
     Node.eqb (Node.mk (Node.y a) (Node.x a) pa ga ha)
              (Node.mk (Node.y b) (Node.x b) pb gb hb) = Node.eqb a b).
Proof.
  split; [|split].
  - intros a b. unfold Node.eqb. rewrite andb_true_iff, !Z.eqb_eq. tauto.
  - reflexivity.
  - reflexivity.
Qed.

(** ** The model of [list.sort] *)

Section SortFacts.
Context {A : Type} (key : A → Z).

Lemma insert_by_perm (a : A) (l : list A) : insert_by key a l ≡ₚ a :: l.
Proof.
  induction l as [|b l IH]; simpl; [done|].
  destruct (key a <=? key b); [done|].
  rewrite IH. apply Permutation_swap.
Qed.

Lemma sort_by_perm (l : list A) : sort_by key l ≡ₚ l.
Proof.
  induction l as [|a l IH]; simpl; [done|].
  by rewrite insert_by_perm, IH.
Qed.

Lemma sort_by_nil (l : list A) : sort_by key l = [] → l = [].
Proof.
  intros Hnil. apply Permutation_nil_r. rewrite <- Hnil.
  symmetry. apply sort_by_perm.
Qed.






End SortFacts.

(** ** Which node a step removes *)

Lemma expand_closed visit curr rest st st' r :
  expand visit curr rest st = Return (st', r) →
  closed st' = closed st ++ [curr].
Proof.
  unfold expand. intros Hx. inv_bind Hx.
  destruct (Node.eqb curr (END st)).
  - by injection Hx as <- <-.
  - inv_bind Hx. destruct r1 as [g' op]. by injection Hx as <- <-.
Qed.

(** ** The executable validity check and its meaning *)

Lemma forallb_elem_of {A : Type} (f : A → bool) (l : list A) :
  forallb f l = true ↔ ∀ a, a ∈ l → f a = true.
Proof.
  rewrite forallb_forall. split; intros Hf a Ha; apply Hf; by apply list_elem_of_In.
Qed.

Lemma elem_of_range (n k : Z) : k ∈ range n ↔ 0 ≤ k < n.
Proof. unfold range. rewrite elem_of_seqZ. lia. Qed.

Lemma elem_of_range2 (a b k : Z) : k ∈ range2 a b ↔ a ≤ k < b.
Proof. unfold range2. rewrite elem_of_seqZ. lia. Qed.

Lemma dims_ok_spec W H g : dims_ok W H g = true ↔ grid_dims W H g.
Proof.
  unfold dims_ok, grid_dims.
  rewrite andb_true_iff, bool_decide_eq_true, forallb_elem_of.
  split; intros [Hl Hr]; (split; [done|]); intros row Hrow.
  - by eapply bool_decide_eq_true_1, Hr.
  - by apply bool_decide_eq_true_2, Hr.
Qed.

Lemma on_border_spec W H y x :
  in_range W H y x → on_border W H y x = true ↔ ¬ interior W H y x.
Proof.
  unfold in_range, interior, on_border.
  rewrite !orb_true_iff, !Z.eqb_eq. lia.
Qed.

Lemma tile_is_cell W H g y x v :
  grid_dims W H g → in_range W H y x → tile_is g y x v = true ↔ cell g y x = v.
Proof.
  intros Hd Hr. unfold tile_is. rewrite (get_tile_cell W H) by done.
  apply Z.eqb_eq.
Qed.

Lemma border_walls_spec W H g :
  grid_dims W H g →
  border_walls W H g = true ↔
  ∀ y x, in_range W H y x → ¬ interior W H y x → cell g y x = 1.
Proof.
  intros Hd. unfold border_walls. rewrite forallb_elem_of. split.
  - intros Hb y x Hr Hni.
    specialize (Hb y (proj2 (elem_of_range H y) (proj1 Hr))).
    rewrite forallb_elem_of in Hb.
    specialize (Hb x (proj2 (elem_of_range W x) (proj2 Hr))).
    apply (on_border_spec W H y x Hr) in Hni. rewrite Hni in Hb. simpl in Hb.
    by apply (tile_is_cell W H).
  - intros Hb y Hy. apply elem_of_range in Hy.
    apply forallb_elem_of. intros x Hx. apply elem_of_range in Hx.
    destruct (on_border W H y x) eqn:Hob; [|done]. simpl.
    apply (tile_is_cell W H); [done | done |].
    apply Hb; [done|]. by apply on_border_spec.
Qed.

Lemma node_inGrid_spec W H n : node_inGrid W H n = true ↔ node_interior W H n.
Proof. apply inGrid_interior. Qed.

Lemma is_root_spec n : is_root n = true ↔ Node.parent n = None.
Proof. unfold is_root. by destruct (Node.parent n). Qed.

Lemma valid_spec W H st : valid W H st = true ↔ Valid W H st.
Proof.
  unfold valid. rewrite !andb_true_iff, !forallb_elem_of.
  rewrite dims_ok_spec, !node_inGrid_spec, is_root_spec.
  split.
  - intros ((((((Hd & Hb) & Hs) & He) & Ho) & Hc) & Hr).
    rewrite (border_walls_spec W H _ Hd) in Hb.
    split; try done.
    + intros n Hn. by apply node_inGrid_spec, Ho.
    + intros n Hn. by apply node_inGrid_spec, Hc.
  - intros [Hd Hb Hs He Ho Hc Hr].
    refine (conj (conj (conj (conj (conj (conj Hd _) Hs) He) _) _) Hr).
    + by apply (border_walls_spec W H _ Hd).
    + intros n Hn. by apply node_inGrid_spec, Ho.
    + intros n Hn. by apply node_inGrid_spec, Hc.
Qed.

(** ** The neighbor loop *)

Lemma getPos_eq (a b : Node.t) :
  Node.getPos a = Node.getPos b → Node.y a = Node.y b ∧ Node.x a = Node.x b.
Proof. by intros [= -> ->]. Qed.

Lemma for_each_inv {S A : Type} (P : S → Prop) (Q : A → Prop)
    (body : S → A → result S) (l : list A) (s : S) :
  (∀ s a, P s → Q a → ∃ s', body s a = Return s' ∧ P s') →
  (∀ a, a ∈ l → Q a) → P s →
  ∃ s', for_each body l s = Return s' ∧ P s'.
Proof.
  intros Hbody. revert s. induction l as [|a l IH]; intros s Hl Hs; simpl.
  - eauto.
  - destruct (Hbody s a Hs) as (s1 & -> & Hs1); [apply Hl; left|]. simpl.
    apply IH; [|done]. intros b Hb. apply Hl. by right.
Qed.

Lemma getNeighbors_spec (d : bool) (curr nb : Node.t) :
  nb ∈ Node.getNeighbors d curr →
  Node.parent nb = Some curr ∧ Node.gCost nb = 0 ∧ Node.hCost nb = 0 ∧
  Node.getPos nb ≠ Node.getPos curr ∧
  Node.y curr - 1 ≤ Node.y nb ≤ Node.y curr + 1 ∧
  Node.x curr - 1 ≤ Node.x nb ≤ Node.x curr + 1.
Proof.
  unfold Node.getNeighbors, Node.getPos. intros Hin.
  destruct d; repeat (apply elem_of_cons in Hin as [->|Hin]);
    try (by inversion Hin); simpl;
    (split; [done|]); (split; [done|]); (split; [done|]);
    (split; [intros [=]; lia | lia]).
Qed.

Lemma neighbor_in_range W H d curr nb :
  node_interior W H curr → nb ∈ Node.getNeighbors d curr →
  in_range W H (Node.y nb) (Node.x nb).
Proof.
  intros Hc Hnb. apply getNeighbors_spec in Hnb as (_ & _ & _ & _ & Hy & Hx).
  unfold node_interior, interior, in_range in *. lia.
Qed.

(** *** The replacement loop of A* *)

Lemma relaxed_pos nb o : Node.getPos (relaxed nb o) = Node.getPos o.
Proof.
  unfold relaxed. destruct (Node.eqb o nb) eqn:He; [|done].
  apply Node_eqb_true in He. by destruct (Node.gCost nb <? Node.gCost o).
Qed.

Lemma relaxed_cases nb o : relaxed nb o = o ∨ relaxed nb o = nb.
Proof. unfold relaxed. destruct (_ && _); auto. Qed.

Lemma replace_loop_from (nb : Node.t) (k i : nat) (op : list Node.t) :
  (i + k = length op)%nat →
  replace_loop (seq i k) nb op = take i op ++ (relaxed nb <$> drop i op).
Proof.
  revert i op. induction k as [|k IH]; intros i op Hlen; simpl.
  - rewrite drop_ge, take_ge by lia. by rewrite app_nil_r.
  - destruct (lookup_lt_is_Some_2 op i) as [o Ho]; [lia|].
    rewrite Ho.
    assert ((if Node.eqb o nb && (Node.gCost nb <? Node.gCost o)
             then <[i:=nb]> op else op) = <[i:=relaxed nb o]> op) as ->.
    { unfold relaxed. destruct (_ && _); [done|]. by rewrite list_insert_id. }
    rewrite IH by (rewrite length_insert; lia).
    rewrite (drop_S op o i Ho). rewrite fmap_cons.
    rewrite (take_S_r (<[i:=relaxed nb o]> op) i (relaxed nb o))
      by (apply list_lookup_insert_eq; lia).
    rewrite take_insert_ge by lia. rewrite drop_insert_lt by lia.
    by rewrite <- app_assoc.
Qed.

Lemma replace_loop_relaxed (nb : Node.t) (op : list Node.t) :
  replace_loop (seq 0 (length op)) nb op = relaxed nb <$> op.
Proof. by rewrite replace_loop_from. Qed.

(** *** The three loop bodies *)

Lemma visit_plain_ok W H : visit_ok W H (λ _, visit_plain).
Proof.
  intros curr cl g op nb Hd Hr. unfold visit_plain.
  rewrite (isPath_cell W H) by done. simpl.
  destruct (Z.eqb_spec (cell g (Node.y nb) (Node.x nb)) 1) as [|Hc]; simpl.
  { eexists. split; [done | constructor]. }
  destruct (Node.mem nb cl) eqn:Hcl; simpl.
  { eexists. split; [done | constructor]. }
  destruct (Node.mem nb op) eqn:Hop; simpl.
  { eexists. split; [done | constructor]. }
  destruct (set_tile_cell W H g _ _ 4 Hd Hr) as (g' & Hset & _).
  rewrite Hset. simpl. eexists. split; [done|].
  by apply vo_admit.
Qed.

Lemma visit_greedy_ok W H e d : visit_ok W H (λ _, visit_greedy e d).
Proof.
  intros curr cl g op nb Hd Hr. unfold visit_greedy.
  rewrite (isPath_cell W H) by done. simpl.
  destruct (Z.eqb_spec (cell g (Node.y nb) (Node.x nb)) 1) as [|Hc]; simpl.
  { eexists. split; [done | constructor]. }
  destruct (Node.mem nb cl) eqn:Hcl; simpl.
  { eexists. split; [done | constructor]. }
  destruct (Node.mem nb op) eqn:Hop; simpl.
  { eexists. split; [done | constructor]. }
  destruct (set_tile_cell W H g _ _ 4 Hd Hr) as (g' & Hset & _).
  rewrite Hset. simpl. eexists. split; [done|].
  by apply vo_admit.
Qed.

Lemma visit_astar_ok W H e d : visit_ok W H (visit_astar e d).
Proof.
  intros curr cl g op nb Hd Hr. unfold visit_astar.
  rewrite (isPath_cell W H) by done. simpl.
  destruct (Z.eqb_spec (cell g (Node.y nb) (Node.x nb)) 1) as [|Hc]; simpl.
  { eexists. split; [done | constructor]. }
  destruct (Node.mem nb cl) eqn:Hcl; simpl.
  { eexists. split; [done | constructor]. }
  match goal with |- context [Node.mem ?n op] => set (nb' := n) end.
  assert (Node.mem nb' op = Node.mem nb op) as Hmem by done.
  rewrite Hmem.
  destruct (Node.mem nb op) eqn:Hop; simpl.
  { eexists. split; [done|]. by apply vo_replace. }
  destruct (set_tile_cell W H g _ _ 4 Hd Hr) as (g' & Hset & _).
  rewrite Hset. simpl. eexists. split; [done|].
  by apply vo_admit.
Qed.

(** ** Preservation of the run invariant *)

Lemma interior_dec W H y x : interior W H y x ∨ ¬ interior W H y x.
Proof. unfold interior. lia. Qed.

Lemma elem_of_relaxed (nb : Node.t) (op : list Node.t) (n : Node.t) :
  n ∈ relaxed nb <$> op →
  ∃ o, o ∈ op ∧ Node.getPos n = Node.getPos o ∧ (n = o ∨ n = nb).
Proof.
  intros (o & -> & Ho)%list_elem_of_fmap. exists o.
  split; [done|]. split; [apply relaxed_pos | apply relaxed_cases].
Qed.

Lemma BaseInv_pop W H g op cl curr rest :
  BaseInv W H g op cl → op ≡ₚ curr :: rest →
  ∃ g1, set_tile g (Node.y curr) (Node.x curr) 5 = Return g1 ∧
        BaseInv W H g1 rest (cl ++ [curr]).
Proof.
  intros [Hd Hb Hi] Hperm.
  assert (rest ++ cl ++ [curr] ≡ₚ op ++ cl) as Hperm'.
  { rewrite Hperm. simpl. rewrite app_assoc. symmetry. apply Permutation_cons_append. }
  assert (interior W H (Node.y curr) (Node.x curr)) as Hci.
  { apply Hi. apply elem_of_app. left. rewrite Hperm. by left. }
  destruct (set_tile_cell W H g _ _ 5 Hd (interior_in_range _ _ _ _ Hci))
    as (g1 & Hset & Hd1 & Hcell).
  exists g1. split; [done|]. split.
  - done.
  - intros y x Hr Hni. rewrite Hcell by (unfold in_range in Hr; lia).
    destruct (decide _) as [[-> ->]|]; [done | by apply Hb].
  - intros n Hin. rewrite Hperm' in Hin. by apply Hi.
Qed.

Lemma BaseInv_visit W H g op cl nb s' :
  BaseInv W H g op cl → in_range W H (Node.y nb) (Node.x nb) →
  visit_outcome cl g op nb s' →
  BaseInv W H s'.1 s'.2 cl.
Proof.
  intros [Hd Hb Hi] Hr Hout.
  destruct Hout as [|nb' g' Hpos Hpar' Hc Hcl Hop Hset|nb' Hpos Hpar' Hc Hcl Hop].
  - by split.
  - simpl. destruct (set_tile_cell W H g _ _ 4 Hd Hr) as (g1 & Hset' & Hd1 & Hcell).
    rewrite Hset in Hset'. injection Hset' as <-.
    apply getPos_eq in Hpos as [Hy Hx].
    assert (interior W H (Node.y nb) (Node.x nb)) as Hnbi.
    { destruct (interior_dec W H (Node.y nb) (Node.x nb)) as [|Hni]; [done|].
      by specialize (Hb _ _ Hr Hni). }
    split.
    + done.
    + intros y x Hr' Hni. rewrite Hcell by (unfold in_range in Hr'; lia).
      destruct (decide _) as [[-> ->]|]; [done | by apply Hb].
    + intros n Hin. rewrite <- app_assoc in Hin.
      apply elem_of_app in Hin as [Hin|Hin]; [apply Hi, elem_of_app; by left|].
      apply elem_of_cons in Hin as [->|Hin]; [|apply Hi, elem_of_app; by right].
      unfold node_interior. by rewrite Hy, Hx.
  - simpl. rewrite replace_loop_relaxed. split; [done | done |].
    intros n [Hin|Hin]%elem_of_app; [|apply Hi, elem_of_app; by right].
    apply elem_of_relaxed in Hin as (o & Ho & [Hy Hx]%getPos_eq & _).
    unfold node_interior. rewrite Hy, Hx. apply Hi, elem_of_app. by left.
Qed.

Lemma RunInv_pop W H S g0 g op cl curr rest :
  RunInv W H S g0 g op cl → op ≡ₚ curr :: rest →
  ∃ g1, set_tile g (Node.y curr) (Node.x curr) 5 = Return g1 ∧
        RunInv W H S g0 g1 rest (cl ++ [curr]) ∧
        ∀ y x, 0 ≤ y → 0 ≤ x →
          cell g1 y x = if decide (y = Node.y curr ∧ x = Node.x curr) then 5
                        else cell g y x.
Proof.
  intros [Hd Hb Hi Hn Hp Hps Hnf Hw] Hperm.
  assert (rest ++ cl ++ [curr] ≡ₚ op ++ cl) as Hperm'.
  { rewrite Hperm. simpl. rewrite app_assoc. symmetry. apply Permutation_cons_append. }
  assert (curr ∈ op ++ cl) as Hcurr.
  { apply elem_of_app. left. rewrite Hperm. by left. }
  assert (interior W H (Node.y curr) (Node.x curr)) as Hci by (by apply Hi).
  destruct (set_tile_cell W H g _ _ 5 Hd (interior_in_range _ _ _ _ Hci))
    as (g1 & Hset & Hd1 & Hcell).
  exists g1. split; [done|]. split; [|done]. split.
  - done.
  - intros y x Hr Hni. rewrite Hcell by (unfold in_range in Hr; lia).
    destruct (decide _) as [[-> ->]|]; [done | by apply Hb].
  - intros n Hin. rewrite Hperm' in Hin. by apply Hi.
  - by rewrite Hperm'.
  - intros n Hin. rewrite Hperm' in Hin. specialize (Hp n Hin).
    destruct (Node.parent n); [|done]. apply elem_of_app. by left.
  - intros n Hin. rewrite Hperm' in Hin.
    specialize (Hi n Hin). unfold node_interior, interior in Hi.
    rewrite Hcell by lia. destruct (decide _); [done | by apply Hps].
  - intros y x Hr. rewrite Hcell by (unfold in_range in Hr; lia).
    destruct (decide _); [done | by apply Hnf].
  - intros y x Hr. rewrite Hcell by (unfold in_range in Hr; lia).
    destruct (decide _) as [[-> ->]|]; [|by apply Hw].
    rewrite <- Hw by done. specialize (Hps curr Hcurr). split; [done | tauto].
Qed.

Lemma RunInv_visit W H S g0 g op cl curr nb s' :
  RunInv W H S g0 g op cl → curr ∈ cl → Node.parent nb = Some curr →
  in_range W H (Node.y nb) (Node.x nb) →
  visit_outcome cl g op nb s' →
  RunInv W H S g0 s'.1 s'.2 cl.
Proof.
  intros Hinv Hcurr Hpar Hr Hout.
  destruct Hinv as [Hd Hb Hi Hn Hp Hps Hnf Hw].
  destruct Hout as [|nb' g' Hpos Hpar' Hc Hcl Hop Hset|nb' Hpos Hpar' Hc Hcl Hop].
  - by split.
  - simpl. destruct (set_tile_cell W H g _ _ 4 Hd Hr) as (g1 & Hset' & Hd1 & Hcell).
    rewrite Hset in Hset'. injection Hset' as <-.
    apply getPos_eq in Hpos as Hyx. destruct Hyx as [Hy Hx].
    assert (interior W H (Node.y nb) (Node.x nb)) as Hnbi.
    { destruct (interior_dec W H (Node.y nb) (Node.x nb)) as [|Hni]; [done|].
      by specialize (Hb _ _ Hr Hni). }
    apply Node_mem_false in Hcl, Hop.
    assert (∀ n, n ∈ (op ++ [nb']) ++ cl → n = nb' ∨ n ∈ op ++ cl) as Hsplit.
    { intros n. rewrite !elem_of_app, list_elem_of_singleton. tauto. }
    split.
    + done.
    + intros y x Hr' Hni. rewrite Hcell by (unfold in_range in Hr'; lia).
      destruct (decide _) as [[-> ->]|]; [done | by apply Hb].
    + intros n [->|Hin]%Hsplit; [|by apply Hi].
      unfold node_interior. by rewrite Hy, Hx.
    + rewrite <- app_assoc. simpl. rewrite fmap_app, fmap_cons.
      rewrite <- Permutation_middle. apply NoDup_cons. split.
      * rewrite Hpos, <- fmap_app, fmap_app, elem_of_app. tauto.
      * by rewrite <- fmap_app.
    + intros n [->|Hin]%Hsplit; [by rewrite Hpar', Hpar | by apply Hp].
    + intros n Hin. rewrite Hcell.
      * destruct (decide _); [done|]. apply Hsplit in Hin as [->|Hin].
        -- rewrite Hy, Hx in *. tauto.
        -- by apply Hps.
      * apply Hsplit in Hin as [->|Hin]; [rewrite Hy; unfold interior in Hnbi; lia|].
        specialize (Hi n Hin). unfold node_interior, interior in Hi. lia.
      * apply Hsplit in Hin as [->|Hin]; [rewrite Hx; unfold interior in Hnbi; lia|].
        specialize (Hi n Hin). unfold node_interior, interior in Hi. lia.
    + intros y x Hr'. rewrite Hcell by (unfold in_range in Hr'; lia).
      destruct (decide _); [done | by apply Hnf].
    + intros y x Hr'. rewrite Hcell by (unfold in_range in Hr'; lia).
      destruct (decide _) as [[-> ->]|]; [|by apply Hw].
      rewrite <- Hw by done. split; [done | tauto].
  - simpl. rewrite replace_loop_relaxed.
    assert (Node.getPos <$> (relaxed nb' <$> op) = Node.getPos <$> op) as Hsame.
    { rewrite <- list_fmap_compose. apply list_fmap_ext.
      intros i o _. apply relaxed_pos. }
    assert (∀ n, n ∈ (relaxed nb' <$> op) ++ cl →
                 ∃ o, o ∈ op ++ cl ∧ Node.getPos n = Node.getPos o ∧ (n = o ∨ n = nb'))
      as Hsplit.
    { intros n [Hin|Hin]%elem_of_app.
      - apply elem_of_relaxed in Hin as (o & Ho & Hpo & Hor).
        exists o. split; [apply elem_of_app; by left | done].
      - exists n. split; [apply elem_of_app; by right | auto]. }
    split.
    + done.
    + done.
    + intros n (o & Ho & [Hy Hx]%getPos_eq & _)%Hsplit.
      unfold node_interior. rewrite Hy, Hx. by apply Hi.
    + by rewrite fmap_app, Hsame, <- fmap_app.
    + intros n (o & Ho & _ & [->| ->])%Hsplit; [by apply Hp|].
      by rewrite Hpar', Hpar.
    + intros n (o & Ho & [Hy Hx]%getPos_eq & _)%Hsplit.
      rewrite Hy, Hx. by apply Hps.
    + done.
    + done.
Qed.

(** ** One step keeps the run invariant and raises nothing *)

Section StepInvariant.
Variables (W H : Z).
Variable Inv : Node.t → grid → list Node.t → list Node.t → Prop.
Hypothesis Inv_base : ∀ S g op cl, Inv S g op cl → BaseInv W H g op cl.
Hypothesis Inv_pop : ∀ S g op cl curr rest,
  Inv S g op cl → op ≡ₚ curr :: rest →
  ∃ g1, set_tile g (Node.y curr) (Node.x curr) 5 = Return g1 ∧
        Inv S g1 rest (cl ++ [curr]).
Hypothesis Inv_visit : ∀ S g op cl curr nb s',
  Inv S g op cl → curr ∈ cl → Node.parent nb = Some curr →
  in_range W H (Node.y nb) (Node.x nb) → visit_outcome cl g op nb s' →
  Inv S s'.1 s'.2 cl.

Local Abbreviation inv_state st :=
  (Inv (START st) (GRID st) (open st) (closed st)).

Lemma expand_inv visit curr rest st :
  visit_ok W H visit → inv_state st → open st ≡ₚ curr :: rest →
  ∃ st' r, expand visit curr rest st = Return (st', r) ∧
           inv_state st' ∧ same_globals st st' ∧
           closed st' = closed st ++ [curr] ∧
           r = (if Node.eqb curr (END st) then Some true else None).
Proof.
  intros Hv Hinv Hperm.
  destruct (Inv_pop _ _ _ _ _ _ Hinv Hperm) as (g1 & Hset & Hinv1).
  unfold expand. rewrite Hset. simpl.
  destruct (Node.eqb curr (END st)).
  { eexists _, _. split; [done|]. split; [exact Hinv1|]. by split. }
  assert (node_interior W H curr) as Hci.
  { apply (bi_interior _ _ _ _ _ (Inv_base _ _ _ _ Hinv)). apply elem_of_app. left.
    rewrite Hperm. by left. }
  destruct (for_each_inv
    (λ s, Inv (START st) s.1 s.2 (closed st ++ [curr]))
    (λ nb, Node.parent nb = Some curr ∧ in_range W H (Node.y nb) (Node.x nb))
    (visit curr (closed st ++ [curr]))
    (Node.getNeighbors (DIAGONAL st) curr) (g1, rest)) as ([g' op'] & Hfe & Hinv').
  - intros [g op] nb Hs [Hpar Hr]. simpl in Hs.
    destruct (Hv curr (closed st ++ [curr]) g op nb
                (bi_dims _ _ _ _ _ (Inv_base _ _ _ _ Hs)) Hr) as (s' & Hs' & Hout).
    exists s'. split; [done|].
    eapply Inv_visit; [exact Hs | | exact Hpar | exact Hr | exact Hout].
    apply elem_of_app. right. by left.
  - intros nb Hnb. split.
    + by apply getNeighbors_spec in Hnb as (? & _).
    + by eapply neighbor_in_range.
  - done.
  - rewrite Hfe. simpl. eexists _, _. split; [done|].
    split; [exact Hinv'|]. by split.
Qed.

Lemma step_inv (a : algorithm) st :
  inv_state st →
  ∃ st' r, step a st = Return (st', r) ∧ inv_state st' ∧
           same_globals st st' ∧ step_outcome st st' r.
Proof.
  intros Hinv.
  destruct (open st) as [|n0 op0] eqn:Hopen.
  { exists st, (Some false).
    split; [by destruct a; unfold step, DFS, BFS, Greedy, AStar; rewrite Hopen|].
    split; [by rewrite ?Hopen|]. by split. }
  rewrite <- Hopen in Hinv.
  assert (∀ visit curr rest,
    visit_ok W H visit → open st ≡ₚ curr :: rest →
    ∃ st' r, expand visit curr rest st = Return (st', r) ∧ inv_state st' ∧
             same_globals st st' ∧ step_outcome st st' r) as Hexp.
  { intros visit curr rest Hv Hperm.
    destruct (expand_inv visit curr rest st Hv Hinv Hperm)
      as (st' & r & Hx & Hinv' & Hsg & Hcl & Hr).
    exists st', r. repeat (split; [done|]).
    assert (∃ c, c ∈ open st ∧ closed st' = closed st ++ [c] ∧
                 r = (if Node.eqb c (END st) then Some true else None)) as Hc.
    { exists curr. split; [|done]. rewrite Hperm. by left. }
    unfold step_outcome. rewrite Hr in *. by destruct (Node.eqb curr (END st)). }
  destruct a; simpl.
  - unfold DFS. destruct (rev (open st)) as [|curr r] eqn:Hrev.
    { apply (f_equal (@rev Node.t)) in Hrev. rewrite rev_involutive in Hrev.
      simpl in Hrev. congruence. }
    apply Hexp; [apply visit_plain_ok|].
    rewrite <- (rev_involutive (open st)), Hrev. simpl.
    rewrite <- Permutation_cons_append. done.
  - unfold BFS. rewrite Hopen. apply Hexp; [apply visit_plain_ok|].
    by rewrite Hopen.
  - destruct (sort_by Node.hCost (open st)) as [|curr rest] eqn:Hs.
    { apply sort_by_nil in Hs. congruence. }
    unfold Greedy. rewrite Hs, Hopen.
    apply Hexp; [apply visit_greedy_ok|]. rewrite <- Hs. symmetry. apply sort_by_perm.
  - destruct (sort_by Node.fCost (open st)) as [|curr rest] eqn:Hs.
    { apply sort_by_nil in Hs. congruence. }
    unfold AStar. rewrite Hs, Hopen.
    apply Hexp; [apply visit_astar_ok|]. rewrite <- Hs. symmetry. apply sort_by_perm.
Qed.

End StepInvariant.

Lemma RunInv_base W H S g0 g op cl :
  RunInv W H S g0 g op cl → BaseInv W H g op cl.
Proof. intros []. by split. Qed.

Lemma step_run W H g0 (a : algorithm) st :
  run_inv W H g0 st →
  ∃ st' r, step a st = Return (st', r) ∧ run_inv W H g0 st' ∧
           same_globals st st' ∧ step_outcome st st' r.
Proof.
  apply (step_inv W H (λ S, RunInv W H S g0)).
  - intros S g op cl. apply RunInv_base.
  - intros S g op cl curr rest Hinv Hperm.
    destruct (RunInv_pop _ _ _ _ _ _ _ _ _ Hinv Hperm) as (g1 & ? & ? & _). eauto.
  - intros S g op cl curr nb s'. apply RunInv_visit.
Qed.

Lemma step_base W H (a : algorithm) st :
  BaseInv W H (GRID st) (open st) (closed st) →
  ∃ st' r, step a st = Return (st', r) ∧
           BaseInv W H (GRID st') (open st') (closed st') ∧
           same_globals st st' ∧ step_outcome st st' r.
Proof.
  apply (step_inv W H (λ _, BaseInv W H)).
  - done.
  - intros _ g op cl curr rest. apply BaseInv_pop.
  - intros _ g op cl curr nb s' Hinv _ _. by apply BaseInv_visit.
Qed.

(** ** Loops that rewrite tiles *)

(** A loop whose body applies an idempotent [f] to the tiles that the
    loop variable selects applies [f] to the tiles that some element of
    the list selects. *)
Lemma for_each_cells {K : Type} (P : grid → Prop) (Q : K → Prop)
    (body : grid → K → result grid) (hit : K → Z → Z → bool) (f : Z → Z)
    (l : list K) (g : grid) :
  (∀ v, f (f v) = f v) →
  (∀ g k, P g → Q k →
     ∃ g', body g k = Return g' ∧ P g' ∧
           ∀ y x, 0 ≤ y → 0 ≤ x →
             cell g' y x = if hit k y x then f (cell g y x) else cell g y x) →
  (∀ k, k ∈ l → Q k) → P g →
  ∃ g', for_each body l g = Return g' ∧ P g' ∧
        ∀ y x, 0 ≤ y → 0 ≤ x →
          cell g' y x = if existsb (λ k, hit k y x) l then f (cell g y x)
                        else cell g y x.
Proof.
  intros Hf Hbody. revert g. induction l as [|k l IH]; intros g Hl Hg; simpl.
  - eauto.
  - destruct (Hbody g k Hg) as (g1 & -> & Hg1 & Hc1); [apply Hl; by left|].
    simpl. destruct (IH g1) as (g' & -> & Hg' & Hc'); [|done|].
    { intros k' Hk'. apply Hl. by right. }
    exists g'. split; [done|]. split; [done|].
    intros y x Hy Hx. rewrite Hc', Hc1 by done.
    destruct (hit k y x), (existsb _ l); simpl; by rewrite ?Hf.
Qed.

Lemma existsb_elem_of {A : Type} (f : A → bool) (l : list A) :
  existsb f l = true ↔ ∃ a, a ∈ l ∧ f a = true.
Proof.
  rewrite existsb_exists. split; intros (a & Ha & Hfa); exists a;
    (split; [by apply list_elem_of_In | done]).
Qed.

Lemma for_interior_cells W H (body : grid → Z → Z → result grid) (f : Z → Z)
    (g : grid) :
  (∀ v, f (f v) = f v) →
  (∀ g y x, grid_dims W H g → interior W H y x →
     ∃ g', body g y x = Return g' ∧ grid_dims W H g' ∧
           ∀ y' x', 0 ≤ y' → 0 ≤ x' →
             cell g' y' x' = if decide (y' = y ∧ x' = x) then f (cell g y' x')
                             else cell g y' x') →
  grid_dims W H g →
  ∃ g', for_interior W H body g = Return g' ∧ grid_dims W H g' ∧
        ∀ y x, 0 ≤ y → 0 ≤ x →
          (interior W H y x → cell g' y x = f (cell g y x)) ∧
          (¬ interior W H y x → cell g' y x = cell g y x).
Proof.
  intros Hf Hbody Hd. unfold for_interior.
  set (ys := range2 1 (H - 1)). set (xs := range2 1 (W - 1)).
  destruct (for_each_cells (grid_dims W H) (λ x, 0 < x < W - 1)
    (λ g x, for_each (λ g y, body g y x) ys g)
    (λ x y' x', bool_decide (x' = x) && bool_decide (0 < y' < H - 1)) f xs g Hf)
    as (g' & Hg' & Hd' & Hc'); [| |done|].
  - intros g1 x Hd1 Hx.
    destruct (for_each_cells (grid_dims W H) (λ y, 0 < y < H - 1)
      (λ g y, body g y x)
      (λ y y' x', bool_decide (y' = y) && bool_decide (x' = x)) f ys g1 Hf)
      as (g2 & Hg2 & Hd2 & Hc2); [| |done|].
    + intros g2 y Hd2 Hy.
      destruct (Hbody g2 y x Hd2) as (g3 & Hg3 & Hd3 & Hc3); [done|].
      exists g3. split; [done|]. split; [done|].
      intros y' x' Hy' Hx'. rewrite Hc3 by done.
      destruct (decide _) as [[-> ->]|Hn].
      * by rewrite !bool_decide_eq_true_2.
      * destruct (bool_decide_reflect (y' = y)), (bool_decide_reflect (x' = x));
          simpl; tauto.
    + intros y Hy. apply elem_of_range2 in Hy. lia.
    + cbv beta in Hc2. exists g2. split; [done|]. split; [done|].
      intros y' x' Hy' Hx'. rewrite Hc2 by done.
      assert (existsb (λ k, bool_decide (y' = k) && bool_decide (x' = x)) ys
              = bool_decide (x' = x) && bool_decide (0 < y' < H - 1)) as ->; [|done].
      apply eq_true_iff_eq. rewrite existsb_elem_of, andb_true_iff, !bool_decide_eq_true.
      split.
      * intros (k & Hk & [Hyk Hxk]%andb_true_iff).
        apply bool_decide_eq_true in Hyk, Hxk. subst.
        apply elem_of_range2 in Hk. split; [done | lia].
      * intros [-> Hy'']. exists y'. split; [apply elem_of_range2; lia|].
        by rewrite !bool_decide_eq_true_2.
  - intros x Hx. apply elem_of_range2 in Hx. lia.
  - cbv beta in Hc'. exists g'. split; [done|]. split; [done|].
    intros y x Hy Hx. rewrite Hc' by done.
    destruct (existsb _ xs) eqn:He.
    + apply existsb_elem_of in He as (k & Hk & [Hxk Hyk]%andb_true_iff).
      apply bool_decide_eq_true in Hxk, Hyk. subst k. apply elem_of_range2 in Hk.
      split; [done|]. unfold interior. lia.
    + split; [|done]. intros [Hiy Hix].
      assert (existsb (λ k, bool_decide (x = k) && bool_decide (0 < y < H - 1)) xs = true)
        as He'; [|congruence].
      apply existsb_elem_of. exists x. split; [apply elem_of_range2; lia|].
      by rewrite !bool_decide_eq_true_2.
Qed.

(** ** The operations of the user interface keep the state valid *)

Lemma Valid_intro W H st :
  grid_ok W H (GRID st) →
  node_interior W H (START st) → node_interior W H (END st) →
  (∀ n, n ∈ open st → node_interior W H n) →
  (∀ n, n ∈ closed st → node_interior W H n) →
  Node.parent (START st) = None →
  Valid W H st.
Proof. intros [Hd Hb] **. by split. Qed.

Lemma Valid_grid_ok W H st : Valid W H st → grid_ok W H (GRID st).
Proof. intros []. by split. Qed.

Lemma grid_ok_set W H g y x v :
  grid_ok W H g → interior W H y x →
  ∃ g', set_tile g y x v = Return g' ∧ grid_ok W H g' ∧
        ∀ y' x', 0 ≤ y' → 0 ≤ x' →
          cell g' y' x' = if decide (y' = y ∧ x' = x) then v else cell g y' x'.
Proof.
  intros [Hd Hb] Hi.
  destruct (set_tile_cell W H g y x v Hd (interior_in_range _ _ _ _ Hi))
    as (g' & Hset & Hd' & Hcell).
  exists g'. split; [done|]. split; [|done]. split; [done|].
  intros y' x' Hr Hni. rewrite Hcell by (unfold in_range in Hr; lia).
  destruct (decide _) as [[-> ->]|]; [done | by apply Hb].
Qed.

Lemma grid_ok_for_interior W H (body : grid → Z → Z → result grid) (f : Z → Z)
    (g : grid) :
  (∀ v, f (f v) = f v) →
  (∀ g y x, grid_dims W H g → interior W H y x →
     ∃ g', body g y x = Return g' ∧ grid_dims W H g' ∧
           ∀ y' x', 0 ≤ y' → 0 ≤ x' →
             cell g' y' x' = if decide (y' = y ∧ x' = x) then f (cell g y' x')
                             else cell g y' x') →
  grid_ok W H g →
  ∃ g', for_interior W H body g = Return g' ∧ grid_ok W H g' ∧
        ∀ y x, 0 ≤ y → 0 ≤ x →
          (interior W H y x → cell g' y x = f (cell g y x)) ∧
          (¬ interior W H y x → cell g' y x = cell g y x).
Proof.
  intros Hf Hbody [Hd Hb].
  destruct (for_interior_cells W H body f g Hf Hbody Hd) as (g' & Hfor & Hd' & Hc).
  exists g'. split; [done|]. split; [|done]. split; [done|].
  intros y x Hr Hni.
  destruct (Hc y x) as [_ Hout]; [unfold in_range in Hr; lia..|].
  rewrite Hout by done. by apply Hb.
Qed.

Lemma clear_body W H g y x :
  grid_dims W H g → interior W H y x →
  ∃ g', set_tile g y x 0 = Return g' ∧ grid_dims W H g' ∧
        ∀ y' x', 0 ≤ y' → 0 ≤ x' →
          cell g' y' x' = if decide (y' = y ∧ x' = x) then (λ _, 0) (cell g y' x')
                          else cell g y' x'.
Proof. intros Hd Hi. by apply set_tile_cell, interior_in_range. Qed.

Lemma erased_idem v : erased (erased v) = erased v.
Proof. unfold erased. by destruct ((v =? 4) || (v =? 5) || (v =? 6)) eqn:He; [|rewrite He]. Qed.

Lemma erase_search_body W H g y x :
  grid_dims W H g → interior W H y x →
  ∃ g', erase_search g y x = Return g' ∧ grid_dims W H g' ∧
        ∀ y' x', 0 ≤ y' → 0 ≤ x' →
          cell g' y' x' = if decide (y' = y ∧ x' = x) then erased (cell g y' x')
                          else cell g y' x'.
Proof.
  intros Hd Hi. unfold erase_search.
  rewrite (get_tile_cell W H) by (done || by apply interior_in_range). simpl.
  destruct ((cell g y x =? 4) || (cell g y x =? 5) || (cell g y x =? 6)) eqn:He.
  - destruct (set_tile_cell W H g y x 0 Hd (interior_in_range _ _ _ _ Hi))
      as (g' & Hset & Hd' & Hcell).
    exists g'. split; [done|]. split; [done|].
    intros y' x' Hy' Hx'. rewrite Hcell by done.
    destruct (decide _) as [[-> ->]|]; [|done]. unfold erased. by rewrite He.
  - exists g. split; [done|]. split; [done|].
    intros y' x' Hy' Hx'.
    destruct (decide _) as [[-> ->]|]; [|done]. unfold erased. by rewrite He.
Qed.

(** [GRID[START.y][START.x] = 2; GRID[END.y][END.x] = 3] *)
Lemma mark_ends W H g (s e : Node.t) :
  grid_ok W H g → node_interior W H s → node_interior W H e →
  ∃ g2, (g1 ← set_tile g (Node.y s) (Node.x s) 2;
         set_tile g1 (Node.y e) (Node.x e) 3) = Return g2 ∧
        grid_ok W H g2 ∧
        ∀ y x, 0 ≤ y → 0 ≤ x →
          cell g2 y x =
            if decide (y = Node.y e ∧ x = Node.x e) then 3
            else if decide (y = Node.y s ∧ x = Node.x s) then 2
            else cell g y x.
Proof.
  intros Hg Hs He.
  destruct (grid_ok_set W H g _ _ 2 Hg Hs) as (g1 & Hset1 & Hg1 & Hc1).
  destruct (grid_ok_set W H g1 _ _ 3 Hg1 He) as (g2 & Hset2 & Hg2 & Hc2).
  exists g2. rewrite Hset1. simpl. split; [done|]. split; [done|].
  intros y x Hy Hx. rewrite Hc2, Hc1 by done. done.
Qed.

Lemma Valid_base W H st :
  Valid W H st → BaseInv W H (GRID st) (open st) (closed st).
Proof.
  intros [Hd Hb Hs He Ho Hc Hr]. split; [done | done |].
  intros n [Hn|Hn]%elem_of_app; auto.
Qed.

(** [start] seeds a run: the open list holds the Start node, the closed
    list is empty, the tiles of an earlier search are erased. *)
Lemma start_spec W H st0 :
  Valid W H st0 →
  ∃ st, start W H st0 = Return st ∧ Valid W H st ∧ run_inv W H (GRID st) st ∧
        open st = [START st0] ∧ closed st = [] ∧
        START st = START st0 ∧ END st = END st0 ∧
        ALGORITHM st = ALGORITHM st0 ∧ DIAGONAL st = DIAGONAL st0 ∧
        searching st = true ∧
        ∀ y x, 0 ≤ y → 0 ≤ x →
          cell (GRID st) y x =
            if decide (y = Node.y (END st0) ∧ x = Node.x (END st0)) then 3
            else if decide (y = Node.y (START st0) ∧ x = Node.x (START st0)) then 2
            else if inGrid W H x y then erased (cell (GRID st0) y x)
            else cell (GRID st0) y x.
Proof.
  intros HV. pose proof (Valid_grid_ok _ _ _ HV) as Hg.
  destruct HV as [Hd Hb Hs He Ho Hc Hr].
  destruct (grid_ok_for_interior W H erase_search erased (GRID st0)
              erased_idem (erase_search_body W H) Hg) as (g & Hfor & Hg1 & Hc1).
  destruct (mark_ends W H g (START st0) (END st0) Hg1 Hs He) as (g2 & Hm & Hg2 & Hc2).
  assert (∀ y x, 0 ≤ y → 0 ≤ x →
          cell g2 y x =
            if decide (y = Node.y (END st0) ∧ x = Node.x (END st0)) then 3
            else if decide (y = Node.y (START st0) ∧ x = Node.x (START st0)) then 2
            else if inGrid W H x y then erased (cell (GRID st0) y x)
            else cell (GRID st0) y x) as Hcell.
  { intros y x Hy Hx. rewrite Hc2 by done.
    repeat (destruct (decide _); [done|]).
    destruct (Hc1 y x Hy Hx) as [Hin Hout].
    destruct (inGrid W H x y) eqn:Hi.
    - by apply Hin, inGrid_interior.
    - apply Hout. rewrite <- inGrid_interior. congruence. }
  eexists. split.
  { unfold start. simpl. rewrite Hfor. simpl.
    apply bind_Return in Hm as (g1 & Hm1 & Hm2). rewrite Hm1. simpl.
    rewrite Hm2. simpl. reflexivity. }
  simpl. split; [|split; [|by repeat split]].
  - apply Valid_intro; simpl; try done.
    + by intros n ->%list_elem_of_singleton.
    + intros n Hn. inversion Hn.
  - destruct Hg2 as [Hd2 Hb2]. unfold run_inv. simpl. split.
    + done.
    + done.
    + by intros n ->%list_elem_of_singleton.
    + simpl. apply NoDup_singleton.
    + intros n ->%list_elem_of_singleton. by rewrite Hr.
    + intros n ->%list_elem_of_singleton.
      unfold node_interior, interior in Hs. rewrite Hcell by lia.
      destruct (decide _); [done|]. by rewrite decide_True.
    + intros y x Hyx. rewrite Hcell by (unfold in_range in Hyx; lia).
      repeat (destruct (decide _); [done|]).
      destruct (inGrid W H x y) eqn:Hi.
      * unfold erased. destruct (_ || _) eqn:Her; [done|].
        rewrite !orb_false_iff, !Z.eqb_neq in Her. tauto.
      * rewrite Hb; [done | done |]. rewrite <- inGrid_interior. congruence.
    + done.
Qed.

Lemma Valid_ext W H st st' :
  GRID st' = GRID st → START st' = START st → END st' = END st →
  open st' = open st → closed st' = closed st →
  Valid W H st → Valid W H st'.
Proof.
  intros Hg Hs He Ho Hc [].
  split; rewrite ?Hg, ?Hs, ?He, ?Ho, ?Hc; done.
Qed.

Lemma reset_start W H st :
  reset W H st = (st' ← start W H st; Return (set_searching false st')).
Proof.
  unfold reset, start. simpl.
  destruct (for_interior _ _ _ _) as [g|]; [simpl|done].
  destruct (set_tile g _ _ 2) as [g1|]; [simpl|done].
  by destruct (set_tile g1 _ _ 3).
Qed.

Lemma start_valid W H st :
  Valid W H st → ∃ st', start W H st = Return st' ∧ Valid W H st'.
Proof. intros HV. destruct (start_spec W H st HV) as (st' & ? & ? & _). eauto. Qed.

Lemma reset_valid W H st :
  Valid W H st → ∃ st', reset W H st = Return st' ∧ Valid W H st'.
Proof.
  intros HV. destruct (start_valid W H st HV) as (st' & Hst & HV').
  rewrite reset_start, Hst. simpl. eexists. split; [done|].
  by eapply Valid_ext; [..|exact HV'].
Qed.

Lemma clear_valid W H st :
  Valid W H st → ∃ st', clear W H st = Return st' ∧ Valid W H st'.
Proof.
  intros HV. pose proof (Valid_grid_ok _ _ _ HV) as Hg.
  destruct HV as [Hd Hb Hs He Ho Hc Hr].
  destruct (grid_ok_for_interior W H (λ g y x, set_tile g y x 0) (λ _, 0) (GRID st)
              (λ _, eq_refl) (clear_body W H) Hg) as (g & Hfor & Hg1 & _).
  destruct (mark_ends W H g (START st) (END st) Hg1 Hs He) as (g2 & Hm & Hg2 & _).
  eexists. split.
  { unfold clear. rewrite Hfor. simpl.
    apply bind_Return in Hm as (g1 & Hm1 & Hm2). rewrite Hm1. simpl.
    rewrite Hm2. simpl. reflexivity. }
  by apply Valid_intro.
Qed.

Lemma Valid_paint W H st y x v :
  Valid W H st → interior W H y x →
  ∃ g, set_tile (GRID st) y x v = Return g ∧ Valid W H (set_GRID g st).
Proof.
  intros HV Hi. pose proof (Valid_grid_ok _ _ _ HV) as Hg.
  destruct HV as [Hd Hb Hs He Ho Hc Hr].
  destruct (grid_ok_set W H (GRID st) y x v Hg Hi) as (g & Hset & Hg' & _).
  exists g. split; [done|]. by apply Valid_intro.
Qed.

Lemma mouseHandler_valid W H xPos yPos c st :
  Valid W H st →
  ∃ st', mouseHandler W H xPos yPos c st = Return st' ∧ Valid W H st'.
Proof.
  intros HV. unfold mouseHandler.
  destruct (getCoordsFromPosition xPos yPos) as [y x].
  destruct (inGrid W H x y) eqn:Hi; [|eauto].
  apply inGrid_interior in Hi.
  rewrite (get_tile_cell W H) by (apply HV || by apply interior_in_range). simpl.
  destruct (_ || _); [|eauto].
  destruct (c =? 1).
  { destruct (Valid_paint W H st y x 1 HV Hi) as (g & -> & HV'). simpl. eauto. }
  destruct (c =? 3); [|eauto].
  destruct (Valid_paint W H st y x 0 HV Hi) as (g & -> & HV'). simpl. eauto.
Qed.

Lemma setStart_valid W H st x y :
  Valid W H st → interior W H y x →
  ∃ g s, setStart (Some (START st)) (GRID st) x y = Return (g, s) ∧
         Valid W H (set_START s (set_GRID g st)).
Proof.
  intros HV Hi. pose proof (Valid_grid_ok _ _ _ HV) as Hg.
  destruct HV as [Hd Hb Hs He Ho Hc Hr].
  destruct (grid_ok_set W H (GRID st) _ _ 0 Hg Hs) as (g1 & Hset1 & Hg1 & _).
  destruct (grid_ok_set W H g1 y x 2 Hg1 Hi) as (g2 & Hset2 & Hg2 & _).
  exists g2, (Node.init y x None). unfold setStart. rewrite Hset1. simpl.
  rewrite Hset2. simpl. split; [done|]. by apply Valid_intro.
Qed.

Lemma setEnd_valid W H st x y :
  Valid W H st → interior W H y x →
  ∃ g e, setEnd (Some (END st)) (GRID st) x y = Return (g, e) ∧
         Valid W H (set_END e (set_GRID g st)).
Proof.
  intros HV Hi. pose proof (Valid_grid_ok _ _ _ HV) as Hg.
  destruct HV as [Hd Hb Hs He Ho Hc Hr].
  destruct (grid_ok_set W H (GRID st) _ _ 0 Hg He) as (g1 & Hset1 & Hg1 & _).
  destruct (grid_ok_set W H g1 y x 3 Hg1 Hi) as (g2 & Hset2 & Hg2 & _).
  exists g2, (Node.init y x None). unfold setEnd. rewrite Hset1. simpl.
  rewrite Hset2. simpl. split; [done|]. by apply Valid_intro.
Qed.

Lemma toggleDiagonal_valid W H st : Valid W H st → Valid W H (toggleDiagonal st).
Proof.
  intros HV. unfold toggleDiagonal. destruct (searching st); [done|].
  by eapply Valid_ext; [..|exact HV].
Qed.

Lemma selectAlgorithm_valid W H a st :
  Valid W H st → ∃ st', selectAlgorithm W H a st = Return st' ∧ Valid W H st'.
Proof.
  intros HV. unfold selectAlgorithm. destruct (searching st); [eauto|].
  apply start_valid. by eapply Valid_ext; [..|exact HV].
Qed.

Lemma keyHandler_valid W H k xPos yPos st :
  Valid W H st → ∃ st', keyHandler W H k xPos yPos st = Return st' ∧ Valid W H st'.
Proof.
  intros HV. unfold keyHandler.
  destruct k.
  - by apply reset_valid.
  - eexists. split; [done|]. by apply toggleDiagonal_valid.
  - by apply clear_valid.
  - destruct (searching st); [eauto|]. by apply start_valid.
  - destruct (searching st); [eauto|].
    destruct (getCoordsFromPosition xPos yPos) as [y x].
    destruct (inGrid W H x y) eqn:Hi; simpl; [|eauto].
    destruct (negb _); [|eauto]. apply inGrid_interior in Hi.
    destruct (setStart_valid W H st x y HV Hi) as (g & s & -> & HV'). simpl. eauto.
  - destruct (searching st); [eauto|].
    destruct (getCoordsFromPosition xPos yPos) as [y x].
    destruct (inGrid W H x y) eqn:Hi; simpl; [|eauto].
    destruct (negb _); [|eauto]. apply inGrid_interior in Hi.
    destruct (setEnd_valid W H st x y HV Hi) as (g & e & -> & HV'). simpl. eauto.
  - destruct (searching st); eauto.
Qed.

Lemma step_valid W H a st :
  Valid W H st →
  ∃ st' r, step a st = Return (st', r) ∧ Valid W H st' ∧
           same_globals st st' ∧ step_outcome st st' r.
Proof.
  intros HV. pose proof HV as [Hd Hb Hs He Ho Hc Hr].
  destruct (step_base W H a st (Valid_base _ _ _ HV))
    as (st' & r & Hstep & [Hd' Hb' Hi'] & Hsg & Hout).
  exists st', r. split; [done|]. split; [|done].
  destruct Hsg as (HS & HE & _).
  apply Valid_intro; rewrite ?HS, ?HE; try done.
  - intros n Hn. apply Hi', elem_of_app. by left.
  - intros n Hn. apply Hi', elem_of_app. by right.
Qed.

Lemma reconstruct_loop_grid_ok W H fuel (cl : list Node.t) g curr parent g' :
  grid_ok W H g → (∀ n, n ∈ cl → node_interior W H n) → node_interior W H curr →
  reconstruct_loop fuel cl g curr parent = Some (Return g') →
  grid_ok W H g'.
Proof.
  intros Hg Hcl. revert g curr parent Hg.
  induction fuel as [|fuel IH]; intros g curr parent Hg Hcurr Hloop;
    destruct parent as [p|]; simpl in Hloop; try congruence.
  destruct (grid_ok_set W H g _ _ 6 Hg Hcurr) as (g1 & Hset & Hg1 & _).
  rewrite Hset in Hloop.
  destruct (find _ cl) as [node|] eqn:Hfind.
  - apply find_some in Hfind as [Hin _]. apply list_elem_of_In in Hin.
    eapply IH; [exact Hg1 | by apply Hcl | exact Hloop].
  - eapply IH; [exact Hg1 | exact Hcurr | exact Hloop].
Qed.

Lemma reconstructPath_valid W H fuel st st' :
  Valid W H st → reconstructPath fuel st = Some (Return st') → Valid W H st'.
Proof.
  intros HV Hrec. pose proof (Valid_grid_ok _ _ _ HV) as Hg.
  destruct HV as [Hd Hb Hs He Ho Hc Hr].
  unfold reconstructPath in Hrec.
  destruct (rev (closed st)) as [|curr r] eqn:Hrev; [done|].
  assert (closed st = rev r ++ [curr]) as Hcl.
  { by rewrite <- (rev_involutive (closed st)), Hrev. }
  destruct (reconstruct_loop _ _ _ _ _) as [[g|]|] eqn:Hloop; try done.
  apply reconstruct_loop_grid_ok with (W := W) (H := H) in Hloop; [|done| |].
  - destruct (mark_ends W H g (START st) (END st) Hloop Hs He) as (g2 & Hm & Hg2 & _).
    apply bind_Return in Hm as (g1 & Hm1 & Hm2).
    rewrite Hm1 in Hrec. simpl in Hrec. rewrite Hm2 in Hrec. simpl in Hrec.
    injection Hrec as <-. apply Valid_intro; simpl; try done.
    intros n Hn. apply Hc. rewrite Hcl. apply elem_of_app. by left.
  - intros n Hn. apply Hc. rewrite Hcl. apply elem_of_app. by left.
  - apply Hc. rewrite Hcl. apply elem_of_app. right. by left.
Qed.

Lemma tick_valid W H fuel st st' :
  Valid W H st → tick fuel st = Some (Return st') → Valid W H st'.
Proof.
  intros HV Htick. unfold tick in Htick.
  destruct (searching st); [|by injection Htick as <-].
  destruct (step_valid W H (ALGORITHM st) st HV) as (st1 & r & Hstep & HV1 & _).
  rewrite Hstep in Htick. destruct r as [[|]|].
  - destruct (reconstructPath fuel st1) as [[st2|]|] eqn:Hrec; try done.
    injection Htick as <-.
    eapply Valid_ext; [..|by eapply reconstructPath_valid]; done.
  - injection Htick as <-. by eapply Valid_ext; [..|exact HV1].
  - by injection Htick as <-.
Qed.

(** The matrix that [main] builds has the border of Wall tiles. *)
Lemma main_setup_valid W H :
  3 ≤ W → 3 ≤ H →
  ∃ st0, main_setup W H = Return st0 ∧ Valid W H st0 ∧
         open st0 = [] ∧ closed st0 = [] ∧
         Node.getPos (START st0) = (1, 1) ∧
         Node.getPos (END st0) = (H - 2, W - 2).
Proof.
  intros HW HH. unfold main_setup.
  set (g0 := replicate (Z.to_nat H) (replicate (Z.to_nat W) 0)).
  assert (grid_dims W H g0) as Hd0.
  { split; [apply length_replicate|].
    intros row [-> _]%elem_of_replicate. apply length_replicate. }
  destruct (for_each_cells (grid_dims W H) (λ x, 0 ≤ x < W)
    (λ g x, g1 ← set_tile g 0 x 1; set_tile g1 (H - 1) x 1)
    (λ x y' x', bool_decide (x' = x) && bool_decide (y' = 0 ∨ y' = H - 1))
    (λ _, 1) (range W) g0) as (g1 & Hg1 & Hd1 & Hc1); [done| | |done|].
  { intros g x Hd Hx.
    destruct (set_tile_cell W H g 0 x 1 Hd) as (ga & Hsa & Hda & Hca);
      [unfold in_range; lia|].
    destruct (set_tile_cell W H ga (H - 1) x 1 Hda) as (gb & Hsb & Hdb & Hcb);
      [unfold in_range; lia|].
    exists gb. rewrite Hsa. simpl. split; [done|]. split; [done|].
    intros y' x' Hy' Hx'. rewrite Hcb, Hca by done.
    destruct (bool_decide_reflect (x' = x)), (bool_decide_reflect (y' = 0 ∨ y' = H - 1));
      simpl; repeat destruct (decide _); try done; lia. }
  { intros x Hx. by apply elem_of_range in Hx. }
  rewrite Hg1. simpl.
  destruct (for_each_cells (grid_dims W H) (λ y, 0 ≤ y < H)
    (λ g y, g1 ← set_tile g y 0 1; set_tile g1 y (W - 1) 1)
    (λ y y' x', bool_decide (y' = y) && bool_decide (x' = 0 ∨ x' = W - 1))
    (λ _, 1) (range H) g1) as (g2 & Hg2 & Hd2 & Hc2); [done| | |done|].
  { intros g y Hd Hy.
    destruct (set_tile_cell W H g y 0 1 Hd) as (ga & Hsa & Hda & Hca);
      [unfold in_range; lia|].
    destruct (set_tile_cell W H ga y (W - 1) 1 Hda) as (gb & Hsb & Hdb & Hcb);
      [unfold in_range; lia|].
    exists gb. rewrite Hsa. simpl. split; [done|]. split; [done|].
    intros y' x' Hy' Hx'. rewrite Hcb, Hca by done.
    destruct (bool_decide_reflect (y' = y)), (bool_decide_reflect (x' = 0 ∨ x' = W - 1));
      simpl; repeat destruct (decide _); try done; lia. }
  { intros y Hy. by apply elem_of_range in Hy. }
  rewrite Hg2. simpl. cbv beta in Hc1, Hc2.
  assert (grid_ok W H g2) as Hok.
  { split; [done|]. intros y x Hr Hni.
    rewrite Hc2 by (unfold in_range in Hr; lia).
    destruct (existsb _ (range H)) eqn:He2; [done|].
    rewrite Hc1 by (unfold in_range in Hr; lia).
    destruct (existsb _ (range W)) eqn:He1; [done|]. exfalso.
    unfold in_range, interior in *.
    assert (y = 0 ∨ y = H - 1 ∨ x = 0 ∨ x = W - 1) as [Hy|[Hy|[Hx|Hx]]] by lia.
    - assert (existsb (λ k, bool_decide (x = k) && bool_decide (y = 0 ∨ y = H - 1))
                (range W) = true) as He; [|congruence].
      apply existsb_elem_of. exists x. split; [apply elem_of_range; lia|].
      by rewrite !bool_decide_eq_true_2 by auto.
    - assert (existsb (λ k, bool_decide (x = k) && bool_decide (y = 0 ∨ y = H - 1))
                (range W) = true) as He; [|congruence].
      apply existsb_elem_of. exists x. split; [apply elem_of_range; lia|].
      by rewrite !bool_decide_eq_true_2 by auto.
    - assert (existsb (λ k, bool_decide (y = k) && bool_decide (x = 0 ∨ x = W - 1))
                (range H) = true) as He; [|congruence].
      apply existsb_elem_of. exists y. split; [apply elem_of_range; lia|].
      by rewrite !bool_decide_eq_true_2 by auto.
    - assert (existsb (λ k, bool_decide (y = k) && bool_decide (x = 0 ∨ x = W - 1))
                (range H) = true) as He; [|congruence].
      apply existsb_elem_of. exists y. split; [apply elem_of_range; lia|].
      by rewrite !bool_decide_eq_true_2 by auto. }
  destruct (grid_ok_set W H g2 1 1 2 Hok) as (g3 & Hs3 & Hok3 & _);
    [unfold interior; lia|].
  destruct (grid_ok_set W H g3 (H - 2) (W - 2) 3 Hok3) as (g4 & Hs4 & Hok4 & _);
    [unfold interior; lia|].
  unfold setStart, setEnd. simpl. rewrite Hs3. simpl. rewrite Hs4. simpl.
  eexists. split; [done|]. split; [|done].
  apply Valid_intro; simpl; try done.
  - unfold node_interior, interior. simpl. lia.
  - unfold node_interior, interior. simpl. lia.
  - intros n Hn. inversion Hn.
  - intros n Hn. inversion Hn.
Qed.

(** ** The border of Wall tiles *)

Lemma taken_None a st : taken a st = None → open st = [].
Proof.
  destruct a; simpl; intros Ht.
  - destruct (rev (open st)) eqn:Hrev; [|done].
    apply (f_equal (@rev Node.t)) in Hrev. by rewrite rev_involutive in Hrev.
  - by destruct (open st).
  - destruct (sort_by _ _) eqn:Hs; [by apply sort_by_nil in Hs | done].
  - destruct (sort_by _ _) eqn:Hs; [by apply sort_by_nil in Hs | done].
Qed.

Lemma taken_step a st curr :
  taken a st = Some curr →
  curr ∈ open st ∧
  ∃ visit rest, step a st = expand visit curr rest st ∧
                open st ≡ₚ curr :: rest ∧ ∀ W H, visit_ok W H visit.
Proof.
  destruct a; simpl; intros Ht.
  - unfold DFS. destruct (rev (open st)) as [|c r] eqn:Hrev; [done|].
    injection Ht as ->.
    assert (open st = rev r ++ [curr]) as Hopen.
    { by rewrite <- (rev_involutive (open st)), Hrev. }
    split; [rewrite Hopen, elem_of_app; right; by left|].
    eexists _, _. split; [done|]. split; [|apply visit_plain_ok].
    rewrite Hopen. symmetry. apply Permutation_cons_append.
  - unfold BFS. destruct (open st) as [|c r]; [done|].
    injection Ht as ->. split; [by left|].
    eexists _, _. split; [done|]. split; [done | apply visit_plain_ok].
  - unfold Greedy. destruct (sort_by _ _) as [|c r] eqn:Hs; [done|].
    injection Ht as ->.
    assert (open st ≡ₚ curr :: r) as Hperm.
    { rewrite <- Hs. symmetry. apply sort_by_perm. }
    split; [rewrite Hperm; by left|].
    destruct (open st); [by simpl in Hs|].
    eexists _, _. split; [done|]. split; [done|]. intros. apply visit_greedy_ok.
  - unfold AStar. destruct (sort_by _ _) as [|c r] eqn:Hs; [done|].
    injection Ht as ->.
    assert (open st ≡ₚ curr :: r) as Hperm.
    { rewrite <- Hs. symmetry. apply sort_by_perm. }
    split; [rewrite Hperm; by left|].
    destruct (open st); [by simpl in Hs|].
    eexists _, _. split; [done|]. split; [done|]. intros. apply visit_astar_ok.
Qed.

Lemma apply_op_valid W H o st st' :
  Valid W H st → apply_op W H o st = Some (Return st') → Valid W H st'.
Proof.
  intros HV Hop. destruct o; simpl in Hop.
  - destruct (mouseHandler_valid W H xPos yPos clickType st HV) as (s & Hs & HV').
    congruence.
  - destruct (keyHandler_valid W H k xPos yPos st HV) as (s & Hs & HV'). congruence.
  - destruct (clear_valid W H st HV) as (s & Hs & HV'). congruence.
  - destruct (reset_valid W H st HV) as (s & Hs & HV'). congruence.
  - destruct (start_valid W H st HV) as (s & Hs & HV'). congruence.
  - destruct (selectAlgorithm_valid W H a st HV) as (s & Hs & HV'). congruence.
  - injection Hop as <-. by apply toggleDiagonal_valid.
  - destruct (step_valid W H a st HV) as (s & r & Hs & HV' & _).
    rewrite Hs in Hop. simpl in Hop. congruence.
  - by eapply reconstructPath_valid.
  - by eapply tick_valid.
Qed.

(** C10: the matrix that [main] sets up is valid, and in every valid
    state the border tiles (row 0, row H-1, column 0, column W-1) are
    Wall; every operation (wall painting, the keys, clear, reset, begin
    search, the choice of an algorithm, a step of any of the four
    algorithms, path reconstruction) leads to a valid state again; a
    step raises no exception, the node it takes from the open list lies
    inside the border, and the coordinates at which it reads or writes
    the matrix are inside [0, H-1] x [0, W-1]. *)
Theorem border_stays_wall (W H : Z) (st : state) :
  3 ≤ W → 3 ≤ H → valid W H st = true →
  (∃ st0, main_setup W H = Return st0 ∧ valid W H st0 = true) ∧
  (∀ y x, in_range W H y x → on_border W H y x = true →
          get_tile (GRID st) y x = Return Wall) ∧
  (∀ o st', apply_op W H o st = Some (Return st') → valid W H st' = true) ∧
  (∀ a, (∃ st' r, step a st = Return (st', r) ∧ valid W H st' = true) ∧
        (∀ curr, taken a st = Some curr →
           node_interior W H curr ∧
           ∀ st' r, step a st = Return (st', r) →
                    closed st' = closed st ++ [curr]) ∧
        (∀ c, c ∈ accessed a st → in_range W H c.1 c.2)).
Proof.
  intros HW HH HV. apply valid_spec in HV.
  split; [|split; [|split]].
  - destruct (main_setup_valid W H HW HH) as (st0 & Hm & HV0 & _).
    exists st0. split; [done | by apply valid_spec].
  - intros y x Hr Hb. rewrite (get_tile_cell W H) by (apply HV || done).
    f_equal. apply HV; [done|]. by apply on_border_spec.
  - intros o st' Hop. apply valid_spec. by eapply apply_op_valid.
  - intros a.
    assert (∀ curr, taken a st = Some curr → node_interior W H curr) as Hint.
    { intros curr [Hin _]%taken_step. by apply HV. }
    split; [|split].
    + destruct (step_valid W H a st HV) as (st' & r & Hs & HV' & _).
      exists st', r. split; [done | by apply valid_spec].
    + intros curr Ht. split; [by apply Hint|].
      apply taken_step in Ht as (_ & visit & rest & -> & _).
      intros st' r. apply expand_closed.
    + intros c Hc. unfold accessed in Hc.
      destruct (taken a st) as [curr|] eqn:Ht; [|inversion Hc].
      specialize (Hint curr eq_refl).
      apply elem_of_cons in Hc as [->|Hc].
      { by apply interior_in_range. }
      destruct (Node.eqb curr (END st)); [inversion Hc|].
      apply list_elem_of_fmap in Hc as (nb & -> & Hnb).
      by eapply neighbor_in_range.
Qed.

Lemma border_stays_wall_witness :
  valid 6 6 (example_state ALG_AStar true) = true ∧
  get_tile (GRID (example_state ALG_AStar true)) 5 3 = Return Wall.
Proof.
  assert (valid 6 6 (example_state ALG_AStar true) = true) as HV
    by (vm_compute; reflexivity).
  split; [exact HV|].
  apply (border_stays_wall 6 6 (example_state ALG_AStar true)); [lia | lia | exact HV | |].
  - unfold in_range. lia.
  - reflexivity.
Defined.

(** ** Stepping after a failure *)

Lemma expand_not_false visit curr rest st st' r :
  expand visit curr rest st = Return (st', r) → r ≠ Some false.
Proof.
  unfold expand. intros Hx. inv_bind Hx.
  destruct (Node.eqb curr (END st)).
  - by injection Hx as <- <-.
  - inv_bind Hx. destruct r1 as [g' op]. by injection Hx as <- <-.
Qed.

Lemma step_false a st st' :
  step a st = Return (st', Some false) → open st = [] ∧ st' = st.
Proof.
  intros Hs. destruct (taken a st) as [curr|] eqn:Ht.
  - apply taken_step in Ht as (_ & visit & rest & Hx & _). rewrite Hx in Hs.
    by apply expand_not_false in Hs.
  - apply taken_None in Ht. split; [done|].
    destruct a; simpl in Hs; unfold DFS, BFS, Greedy, AStar in Hs;
      rewrite Ht in Hs; simpl in Hs; by injection Hs.
Qed.

(** C8, as the code has it: a step function returns [False] only when
    the open list is empty, and then it has changed nothing, so that the
    next call, and every call after it, returns [False] again with the
    state as it was; no exception is raised. *)
Theorem step_after_failure_fails_again (a : algorithm) (st st' : state) :
  step a st = Return (st', Some false) →
  st' = st ∧ open st = [] ∧ step a st' = Return (st', Some false) ∧
  ∀ k, steps (step a) k st' = Return st'.
Proof.
  intros Hs. destruct (step_false a st st' Hs) as [Hopen ->].
  split; [done|]. split; [done|]. split; [done|].
  intros k. induction k as [|k IH]; simpl; [done|]. by rewrite Hs.
Qed.

Lemma step_after_failure_fails_again_witness :
  step ALG_BFS (blocked_finished ALG_BFS false)
    = Return (blocked_finished ALG_BFS false, Some false) ∧
  open (blocked_finished ALG_BFS false) = [] ∧
  steps (step ALG_BFS) 5 (blocked_finished ALG_BFS false)
    = Return (blocked_finished ALG_BFS false).
Proof.
  assert (step ALG_BFS (blocked_finished ALG_BFS false)
          = Return (blocked_finished ALG_BFS false, Some false)) as Hs
    by (vm_compute; reflexivity).
  split; [exact Hs|].
  destruct (step_after_failure_fails_again ALG_BFS _ _ Hs) as (_ & Hopen & _ & Hk).
  split; [exact Hopen | exact (Hk 5%nat)].
Defined.

(** C8 as the specification states it fails: in the blocked fixture the
    search of each of the four algorithms ends with [False], and the next
    call of the step function returns [False] once more instead of
    raising an exception. *)
Lemma step_after_failure_counterexample :
  Forall (λ a, ∃ st,
    search (step a) 36 (state_of (start 6 6 (blocked_state a false))
                                 (blocked_state a false)) = Return (st, Some false) ∧
    step a st = Return (st, Some false) ∧
    ¬ ∃ e, step a st = Raise e)
    [ALG_DFS; ALG_BFS; ALG_Greedy; ALG_AStar].
Proof.
  assert (∀ a, ∃ st,
    search (step a) 36 (state_of (start 6 6 (blocked_state a false))
                                 (blocked_state a false)) = Return (st, Some false) ∧
    step a st = Return (st, Some false) ∧
    ¬ ∃ e, step a st = Raise e) as Hall.
  { intros a. exists (blocked_finished a false).
    assert (step a (blocked_finished a false)
            = Return (blocked_finished a false, Some false)) as Hs
      by (destruct a; vm_compute; reflexivity).
    split; [destruct a; vm_compute; reflexivity|].
    split; [exact Hs|]. intros [e He]. congruence. }
  repeat constructor; apply Hall.
Qed.

(** ** The tiles that a step marks *)

Lemma newly_true (op' op : list Node.t) y x :
  newly op' op y x = true ↔
  (y, x) ∈ Node.getPos <$> op' ∧ (y, x) ∉ Node.getPos <$> op.
Proof.
  unfold newly. rewrite andb_true_iff, negb_true_iff, bool_decide_eq_true,
    bool_decide_eq_false. done.
Qed.

Lemma newly_false (op' op : list Node.t) y x :
  newly op' op y x = false ↔
  ((y, x) ∈ Node.getPos <$> op' → (y, x) ∈ Node.getPos <$> op).
Proof.
  rewrite <- not_true_iff_false, newly_true.
  destruct (decide ((y, x) ∈ Node.getPos <$> op)); tauto.
Qed.

Lemma fmap_relaxed_pos nb (op : list Node.t) :
  Node.getPos <$> (relaxed nb <$> op) = Node.getPos <$> op.
Proof.
  rewrite <- list_fmap_compose. apply list_fmap_ext. intros i o _. apply relaxed_pos.
Qed.

Lemma expand_tiles W H visit curr rest st st' r :
  visit_ok W H visit → BaseInv W H (GRID st) (open st) (closed st) →
  open st ≡ₚ curr :: rest →
  expand visit curr rest st = Return (st', r) →
  (∀ y x, 0 ≤ y → 0 ≤ x →
     cell (GRID st') y x =
       if newly (open st') rest y x then 4
       else if decide (y = Node.y curr ∧ x = Node.x curr) then 5
       else cell (GRID st) y x) ∧
  (∀ c, c ∈ Node.getPos <$> rest → c ∈ Node.getPos <$> open st') ∧
  (∀ n, n ∈ open st' →
     Node.getPos n ∈ Node.getPos <$> rest ∨
     Node.getPos n ∉ Node.getPos <$> (closed st ++ [curr])).
Proof.
  intros Hv Hbase Hperm Hx.
  destruct (BaseInv_pop _ _ _ _ _ _ _ Hbase Hperm) as (g1 & Hset & Hbase1).
  assert (node_interior W H curr) as Hci.
  { apply (bi_interior _ _ _ _ _ Hbase). apply elem_of_app. left.
    rewrite Hperm. by left. }
  destruct (set_tile_cell W H (GRID st) _ _ 5 (bi_dims _ _ _ _ _ Hbase)
              (interior_in_range _ _ _ _ Hci)) as (g1' & Hset' & _ & Hc1).
  rewrite Hset in Hset'. injection Hset' as <-.
  unfold expand in Hx.
  set (cl' := closed st ++ [curr]) in *.
  set (P := λ s : grid * list Node.t,
    BaseInv W H s.1 s.2 cl' ∧
    (∀ y x, 0 ≤ y → 0 ≤ x →
       cell s.1 y x = if newly s.2 rest y x then 4 else cell g1 y x) ∧
    (∀ c, c ∈ Node.getPos <$> rest → c ∈ Node.getPos <$> s.2) ∧
    (∀ n, n ∈ s.2 → Node.getPos n ∈ Node.getPos <$> rest ∨
                    Node.getPos n ∉ Node.getPos <$> cl')).
  assert (P (g1, rest)) as HP0.
  { split; [done|]. split; [|split].
    - intros y x _ _. simpl.
      assert (newly rest rest y x = false) as -> by (by apply newly_false). done.
    - done.
    - intros n Hn. left. simpl in Hn. apply list_elem_of_fmap. eauto. }
  assert (∀ g' op', P (g', op') →
    (∀ y x, 0 ≤ y → 0 ≤ x →
       cell g' y x = if newly op' rest y x then 4
                     else if decide (y = Node.y curr ∧ x = Node.x curr) then 5
                     else cell (GRID st) y x) ∧
    (∀ c, c ∈ Node.getPos <$> rest → c ∈ Node.getPos <$> op') ∧
    (∀ n, n ∈ op' → Node.getPos n ∈ Node.getPos <$> rest ∨
                    Node.getPos n ∉ Node.getPos <$> cl')) as Hfin.
  { intros g' op' (_ & HT2 & HT3 & HT4). split; [|done].
    intros y x Hy Hx'. rewrite HT2 by done. by rewrite Hc1. }
  rewrite Hset in Hx. simpl in Hx.
  destruct (Node.eqb curr (END st)).
  { injection Hx as <- <-. simpl. by apply Hfin. }
  destruct (for_each_inv P
    (λ nb, in_range W H (Node.y nb) (Node.x nb))
    (visit curr cl') (Node.getNeighbors (DIAGONAL st) curr) (g1, rest))
    as ([g' op'] & Hfe & HP).
  - intros [g op] nb (HT1 & HT2 & HT3 & HT4) Hr. simpl in *.
    destruct (Hv curr cl' g op nb (bi_dims _ _ _ _ _ HT1) Hr) as (s' & Hs' & Hout).
    exists s'. split; [done|].
    split; [by eapply BaseInv_visit|].
    destruct Hout as [|nb' g2 Hpos Hpar' Hc Hcl Hop Hs2|nb' Hpos Hpar' Hc Hcl Hop]; simpl.
    + done.
    + destruct (set_tile_cell W H g _ _ 4 (bi_dims _ _ _ _ _ HT1) Hr)
        as (g2' & Hs2' & _ & Hc2).
      rewrite Hs2 in Hs2'. injection Hs2' as <-.
      apply Node_mem_false in Hcl, Hop.
      split; [|split].
      * intros y x Hy Hx'. rewrite Hc2, HT2 by done.
        destruct (decide (y = Node.y nb ∧ x = Node.x nb)) as [[-> ->]|Hne].
        -- assert (newly (op ++ [nb']) rest (Node.y nb) (Node.x nb) = true) as ->; [|done].
           apply newly_true. split.
           ++ rewrite fmap_app, elem_of_app. right. simpl. rewrite Hpos. by left.
           ++ intros Hin. by apply Hop, HT3.
        -- assert (newly (op ++ [nb']) rest y x = newly op rest y x) as ->; [|done].
           apply eq_true_iff_eq. rewrite !newly_true, fmap_app, elem_of_app.
           simpl. rewrite list_elem_of_singleton, Hpos. unfold Node.getPos.
           split; [|tauto]. intros [[Hin|Heq] Hnot]; [tauto|].
           injection Heq as -> ->. tauto.
      * intros c Hc'. rewrite fmap_app, elem_of_app. left. by apply HT3.
      * intros n [Hn| ->%list_elem_of_singleton]%elem_of_app; [by apply HT4|].
        right. by rewrite Hpos.
    + rewrite replace_loop_relaxed. split; [|split].
      * intros y x Hy Hx'. rewrite HT2 by done.
        unfold newly. by rewrite fmap_relaxed_pos.
      * intros c Hc'. rewrite fmap_relaxed_pos. by apply HT3.
      * intros n (o & Ho & -> & _)%elem_of_relaxed. by apply HT4.
  - intros nb Hnb. by eapply neighbor_in_range.
  - done.
  - rewrite Hfe in Hx. simpl in Hx. injection Hx as <- <-. simpl. by apply Hfin.
Qed.

(** The tiles after a step that takes [curr] from the open list. *)
Lemma step_tiles (W H : Z) (a : algorithm) (st : state) (curr : Node.t) :
  Valid W H st → taken a st = Some curr →
  ∃ st' r, step a st = Return (st', r) ∧
    closed st' = closed st ++ [curr] ∧
    get_tile (GRID st') (Node.y curr) (Node.x curr) = Return Visited ∧
    (∀ n, n ∈ open st' → Node.mem n (open st) = false →
          get_tile (GRID st') (Node.y n) (Node.x n) = Return Frontier) ∧
    (∀ y x, in_range W H y x → (y, x) ≠ Node.getPos curr →
            newly (open st') (open st) y x = false →
            get_tile (GRID st') y x = get_tile (GRID st) y x).
Proof.
  intros HV Ht.
  destruct (step_valid W H a st HV) as (st' & r & Hstep & HV' & _).
  exists st', r. split; [done|].
  apply taken_step in Ht as (Hin & visit & rest & Hx & Hperm & Hvok).
  rewrite Hx in Hstep.
  destruct (expand_tiles W H visit curr rest st st' r (Hvok W H)
              (Valid_base _ _ _ HV) Hperm Hstep) as (Hcell & Hsub & Hnew).
  split; [by eapply expand_closed|].
  pose proof (v_open _ _ _ HV curr Hin) as Hci.
  assert (∀ c, c ∈ Node.getPos <$> open st ↔
               c = Node.getPos curr ∨ c ∈ Node.getPos <$> rest) as Hopen.
  { intros c. rewrite Hperm, fmap_cons, elem_of_cons. done. }
  split; [|split].
  - rewrite (get_tile_cell W H) by (apply HV' || by apply interior_in_range).
    f_equal. unfold node_interior, interior in Hci. rewrite Hcell by lia.
    assert (newly (open st') rest (Node.y curr) (Node.x curr) = false) as ->.
    { apply newly_false. intros (n & Hpos & Hn)%list_elem_of_fmap.
      destruct (Hnew n Hn) as [Hr|Hr]; [by rewrite <- Hpos in Hr|].
      exfalso. apply Hr. rewrite <- Hpos, fmap_app, elem_of_app. right. by left. }
    by rewrite decide_True.
  - intros n Hn Hmem. pose proof (v_open _ _ _ HV' n Hn) as Hni.
    rewrite (get_tile_cell W H) by (apply HV' || by apply interior_in_range).
    f_equal. unfold node_interior, interior in Hni. rewrite Hcell by lia.
    assert (newly (open st') rest (Node.y n) (Node.x n) = true) as ->; [|done].
    apply newly_true. apply Node_mem_false in Hmem. split.
    + apply list_elem_of_fmap. by exists n.
    + intros Hr. apply Hmem, Hopen. by right.
  - intros y x Hr Hne Hnw.
    rewrite !(get_tile_cell W H) by (apply HV' || apply HV || done).
    f_equal. rewrite Hcell by (unfold in_range in Hr; lia).
    assert (newly (open st') rest y x = false) as ->.
    { apply newly_false. intros Hin'. rewrite newly_false in Hnw.
      apply Hnw, Hopen in Hin' as [?|?]; done. }
    rewrite decide_False; [done|]. intros [-> ->]. by apply Hne.
Qed.

(** ** Runs: no node is visited twice, every search ends *)

Lemma steps_run W H g0 a n st :
  run_inv W H g0 st →
  ∃ st', steps (step a) n st = Return st' ∧ run_inv W H g0 st' ∧
         same_globals st st'.
Proof.
  revert st. induction n as [|n IH]; intros st Hinv; simpl.
  { exists st. split; [done|]. split; [done|]. by repeat split. }
  destruct (step_run W H g0 a st Hinv) as (st1 & r & -> & Hinv1 & Hsg1 & _). simpl.
  destruct (IH st1 Hinv1) as (st' & -> & Hinv' & Hsg').
  exists st'. split; [done|]. split; [done|].
  destruct Hsg1 as (?&?&?&?&?), Hsg' as (?&?&?&?&?).
  repeat split; congruence.
Qed.

Lemma run_inv_closed_NoDup W H g0 st :
  run_inv W H g0 st → NoDup (Node.getPos <$> closed st).
Proof.
  intros Hinv. pose proof (ri_nodup _ _ _ _ _ _ _ Hinv) as Hnd.
  rewrite fmap_app in Hnd. by apply NoDup_app in Hnd as (_ & _ & ?).
Qed.

(** C5: in a run seeded by [start], after any number of calls of the
    step function of any of the four algorithms (none of which raises an
    exception), no two entries of the closed list have the same
    coordinates; indeed no coordinates occur twice in the open and the
    closed list together, so that a node of the open list is never one
    that was visited. *)
Theorem no_revisit (W H : Z) (a : algorithm) (n : nat) (st0 st : state) :
  valid W H st0 = true → start W H st0 = Return st →
  ∃ st', steps (step a) n st = Return st' ∧
         NoDup (Node.getPos <$> closed st') ∧
         NoDup (Node.getPos <$> (open st' ++ closed st')).
Proof.
  intros HV Hstart. apply valid_spec in HV.
  destruct (start_spec W H st0 HV) as (st1 & Hs1 & _ & Hinv & _).
  rewrite Hstart in Hs1. injection Hs1 as <-.
  destruct (steps_run W H (GRID st) a n st Hinv) as (st' & Hsteps & Hinv' & _).
  exists st'. split; [done|]. split; [by eapply run_inv_closed_NoDup|].
  apply (ri_nodup _ _ _ _ _ _ _ Hinv').
Qed.

Lemma no_revisit_witness :
  valid 6 6 (example_state ALG_AStar true) = true ∧
  ∃ st', steps (step ALG_AStar) 3 (example_seeded ALG_AStar true) = Return st' ∧
         NoDup (Node.getPos <$> closed st').
Proof.
  assert (valid 6 6 (example_state ALG_AStar true) = true) as HV
    by (vm_compute; reflexivity).
  assert (start 6 6 (example_state ALG_AStar true)
          = Return (example_seeded ALG_AStar true)) as Hst
    by (vm_compute; reflexivity).
  split; [exact HV|].
  destruct (no_revisit 6 6 ALG_AStar 3 _ _ HV Hst) as (st' & Hs & Hnd & _).
  exists st'. split; [exact Hs | exact Hnd].
Defined.

(** The closed list of a run is never longer than the number of tiles
    inside the border. *)
Lemma closed_bound W H g0 st :
  run_inv W H g0 st → (length (closed st) ≤ interior_size W H)%nat.
Proof.
  intros Hinv. pose proof (run_inv_closed_NoDup _ _ _ _ Hinv) as Hnd.
  rewrite <- (length_fmap Node.getPos).
  assert (Node.getPos <$> closed st ⊆+ cprod (seqZ 1 (H - 2)) (seqZ 1 (W - 2))) as Hsub.
  { apply NoDup_submseteq; [done|].
    intros c (n & -> & Hn)%list_elem_of_fmap.
    assert (node_interior W H n) as Hi.
    { apply (ri_interior _ _ _ _ _ _ _ Hinv), elem_of_app. by right. }
    apply list_elem_of_cprod. unfold node_interior, interior in Hi. simpl.
    rewrite !elem_of_seqZ. lia. }
  apply submseteq_length in Hsub.
  rewrite list_cprod_list_prod, length_prod, !length_seqZ in Hsub.
  unfold interior_size. nia.
Qed.

Lemma search_terminates W H g0 a (n : nat) st :
  run_inv W H g0 st →
  (interior_size W H < n + length (closed st))%nat →
  ∃ st' b, search (step a) n st = Return (st', Some b) ∧ run_inv W H g0 st' ∧
           same_globals st st'.
Proof.
  revert st. induction n as [|n IH]; intros st Hinv Hlt.
  { pose proof (closed_bound _ _ _ _ Hinv). lia. }
  simpl. destruct (step_run W H g0 a st Hinv) as (st1 & r & -> & Hinv1 & Hsg1 & Hout).
  simpl. destruct r as [b|].
  { exists st1, b. done. }
  destruct Hout as (curr & _ & Hcl & _).
  destruct (IH st1 Hinv1) as (st' & b & -> & Hinv' & Hsg').
  { rewrite Hcl, length_app. simpl. lia. }
  exists st', b. split; [done|]. split; [done|].
  destruct Hsg1 as (?&?&?&?&?), Hsg' as (?&?&?&?&?).
  repeat split; congruence.
Qed.

(** C6: in a run seeded by [start] on a W x H matrix, calling the step
    function of any of the four algorithms again and again yields [True]
    or [False] within W*H calls (indeed within (W-2)*(H-2)+1 calls), and
    no call raises an exception. *)
Theorem search_ends_within_WH (W H : Z) (a : algorithm) (st0 st : state) :
  valid W H st0 = true → start W H st0 = Return st →
  (∃ st' b, search (step a) (Z.to_nat (W * H)) st = Return (st', Some b)) ∧
  (∃ st' b, search (step a) (S (interior_size W H)) st = Return (st', Some b)).
Proof.
  intros HV Hstart. apply valid_spec in HV.
  destruct (start_spec W H st0 HV) as (st1 & Hs1 & _ & Hinv & _ & Hcl & _).
  rewrite Hstart in Hs1. injection Hs1 as <-.
  pose proof (v_start _ _ _ HV) as Hi. unfold node_interior, interior in Hi.
  split.
  - destruct (search_terminates W H (GRID st) a (Z.to_nat (W * H)) st Hinv)
      as (st' & b & Hs & _); [|eauto].
    rewrite Hcl. simpl. unfold interior_size. nia.
  - destruct (search_terminates W H (GRID st) a (S (interior_size W H)) st Hinv)
      as (st' & b & Hs & _); [|eauto].
    lia.
Qed.

Lemma search_ends_within_WH_witness :
  valid 6 6 (example_state ALG_DFS false) = true ∧
  ∃ st' b, search (step ALG_DFS) (Z.to_nat (6 * 6)) (example_seeded ALG_DFS false)
           = Return (st', Some b).
Proof.
  assert (valid 6 6 (example_state ALG_DFS false) = true) as HV
    by (vm_compute; reflexivity).
  assert (start 6 6 (example_state ALG_DFS false)
          = Return (example_seeded ALG_DFS false)) as Hst
    by (vm_compute; reflexivity).
  split; [exact HV|].
  exact (proj1 (search_ends_within_WH 6 6 ALG_DFS _ _ HV Hst)).
Defined.

(** ** Path reconstruction *)

Lemma Node_parent_ind (P : Node.t → Prop) :
  (∀ n, Node.parent n = None → P n) →
  (∀ n p, Node.parent n = Some p → P p → P n) →
  ∀ n, P n.
Proof.
  intros Hroot Hstep. fix IH 1. intros [y x [p|] g h].
  - apply (Hstep _ p); [done | apply IH].
  - by apply Hroot.
Qed.

Lemma chain_split (n : Node.t) :
  Node.chain n = chain_init n ++ [chain_root n] ∧
  Node.parent (chain_root n) = None ∧
  length (chain_init n) = Node.depth n.
Proof.
  induction n as [n Hn|n p Hp (IH1 & IH2 & IH3)] using Node_parent_ind.
  - destruct n as [y x par g h]. simpl in *. subst par. done.
  - destruct n as [y x par g h]. simpl in *. subst par.
    rewrite IH1. simpl. by rewrite IH3.
Qed.

(** In a list without two nodes of the same coordinates, the search for
    a node that equals [p] finds [p] itself. *)
Lemma find_same_pos (cl : list Node.t) (p : Node.t) :
  NoDup (Node.getPos <$> cl) → p ∈ cl →
  find (λ node, Node.eqb p node) cl = Some p.
Proof.
  induction cl as [|c cl IH]; intros Hnd Hin; [inversion Hin|].
  rewrite fmap_cons in Hnd. apply NoDup_cons in Hnd as [Hc Hnd]. simpl.
  destruct (Node.eqb p c) eqn:Heq.
  - apply Node_eqb_true in Heq.
    apply elem_of_cons in Hin as [->|Hin]; [done|].
    exfalso. apply Hc. rewrite <- Heq. apply list_elem_of_fmap. eauto.
  - apply elem_of_cons in Hin as [->|Hin]; [|by apply IH].
    apply Node_eqb_false in Heq. done.
Qed.

Lemma reconstruct_loop_chain W H (cl : list Node.t) :
  NoDup (Node.getPos <$> cl) →
  (∀ n, n ∈ cl → node_interior W H n) →
  (∀ n p, n ∈ cl → Node.parent n = Some p → p ∈ cl) →
  ∀ fuel curr g,
    grid_dims W H g → node_interior W H curr →
    (∀ p, Node.parent curr = Some p → p ∈ cl) →
    (Node.depth curr ≤ fuel)%nat →
    ∃ g', reconstruct_loop fuel cl g curr (Node.parent curr) = Some (Return g') ∧
          grid_dims W H g' ∧
          ∀ y x, 0 ≤ y → 0 ≤ x →
            cell g' y x =
              if bool_decide ((y, x) ∈ Node.getPos <$> chain_init curr) then 6
              else cell g y x.
Proof.
  intros Hnd Hint Hpar. induction fuel as [|fuel IH]; intros curr g Hd Hci Hp Hfuel.
  - destruct curr as [y x [p|] gc hc]; simpl in *; [lia|]. eauto.
  - destruct curr as [yc xc [p|] gc hc]; simpl in *; [|eauto].
    destruct (set_tile_cell W H g yc xc 6 Hd (interior_in_range _ _ _ _ Hci))
      as (g1 & -> & Hd1 & Hc1).
    rewrite (find_same_pos cl p Hnd (Hp p eq_refl)).
    destruct (IH p g1 Hd1) as (g' & -> & Hd' & Hc').
    { apply Hint, Hp. done. }
    { intros q Hq. eapply Hpar; [|exact Hq]. by apply Hp. }
    { lia. }
    exists g'. split; [done|]. split; [done|].
    intros y x Hy Hx. rewrite Hc', Hc1 by done.
    destruct (bool_decide_reflect ((y, x) ∈ Node.getPos <$> chain_init p)) as [Hin|Hnin].
    + rewrite bool_decide_eq_true_2; [done|]. by right.
    + destruct (decide (y = yc ∧ x = xc)) as [[-> ->]|Hne].
      * rewrite bool_decide_eq_true_2; [done|]. by left.
      * rewrite bool_decide_eq_false_2; [done|].
        intros [[= -> ->]|?]%elem_of_cons; tauto.
Qed.

Lemma chain_init_closed (cl : list Node.t) :
  (∀ n p, n ∈ cl → Node.parent n = Some p → p ∈ cl) →
  ∀ n, n ∈ cl →
    (∀ m, m ∈ chain_init n → m ∈ cl ∧ Node.parent m ≠ None) ∧ chain_root n ∈ cl.
Proof.
  intros Hpar n. induction n as [n Hn|n p Hp IH] using Node_parent_ind; intros Hin.
  - destruct n as [y x par g h]. simpl in *. subst par. split; [|done].
    intros m Hm. inversion Hm.
  - specialize (IH (Hpar _ _ Hin Hp)) as [IH1 IH2].
    destruct n as [y x par g h]. simpl in *. subst par. split; [|done].
    intros m [->|Hm]%elem_of_cons; [done | by apply IH1].
Qed.

Lemma NoDup_pos_eq (l : list Node.t) (a b : Node.t) :
  NoDup (Node.getPos <$> l) → a ∈ l → b ∈ l →
  Node.getPos a = Node.getPos b → a = b.
Proof.
  induction l as [|c l IH]; intros Hnd Ha Hb Hpos; [inversion Ha|].
  rewrite fmap_cons in Hnd. apply NoDup_cons in Hnd as [Hc Hnd].
  apply elem_of_cons in Ha as [->|Ha], Hb as [->|Hb]; [done| | |by apply IH].
  - exfalso. apply Hc. rewrite Hpos. apply list_elem_of_fmap. eauto.
  - exfalso. apply Hc. rewrite <- Hpos. apply list_elem_of_fmap. eauto.
Qed.

Lemma search_last (alg : state → result (state * option bool))
    (Inv : state → Prop) (n : nat) (s st : state) (b : bool) :
  Inv s →
  (∀ st1 st2, Inv st1 → alg st1 = Return (st2, None) → Inv st2) →
  search alg n s = Return (st, Some b) →
  ∃ prev, Inv prev ∧ alg prev = Return (st, Some b).
Proof.
  intros Hs Hstep. revert s Hs. induction n as [|n IH]; intros s Hs Hsearch; [done|].
  simpl in Hsearch. apply bind_Return in Hsearch as ([st1 r] & Half & Hrest).
  destruct r as [b'|].
  - injection Hrest as <- <-. eauto.
  - eapply IH; [|exact Hrest]. by eapply Hstep.
Qed.

Lemma mark_ends_cells W H g (s e : Node.t) :
  grid_dims W H g → node_interior W H s → node_interior W H e →
  ∃ g2, (g1 ← set_tile g (Node.y s) (Node.x s) 2;
         set_tile g1 (Node.y e) (Node.x e) 3) = Return g2 ∧
        grid_dims W H g2 ∧
        ∀ y x, 0 ≤ y → 0 ≤ x →
          cell g2 y x =
            if decide (y = Node.y e ∧ x = Node.x e) then 3
            else if decide (y = Node.y s ∧ x = Node.x s) then 2
            else cell g y x.
Proof.
  intros Hd Hs He.
  destruct (set_tile_cell W H g _ _ 2 Hd (interior_in_range _ _ _ _ Hs))
    as (g1 & Hset1 & Hd1 & Hc1).
  destruct (set_tile_cell W H g1 _ _ 3 Hd1 (interior_in_range _ _ _ _ He))
    as (g2 & Hset2 & Hd2 & Hc2).
  exists g2. rewrite Hset1. simpl. split; [done|]. split; [done|].
  intros y x Hy Hx. rewrite Hc2, Hc1 by done. done.
Qed.

(** C7: in a run seeded by [start] whose search has just returned
    [True], the last entry [e] of the closed list has the coordinates of
    the End node, and its discoverer chain is [e], intermediate nodes
    [mid], and the Start node, which has no discoverer (when the Start
    and the End node have the same coordinates, [e] is the Start node
    and the chain is [e] alone).  [reconstructPath], given fuel for at
    least as many rounds of its loop as the chain has edges, returns
    normally, takes [e] off the closed list, and leaves a matrix in
    which a tile is FinalPath exactly when it is the tile of a node of
    [mid], the End tile is End, the Start tile is Start (unless it is
    the End tile), and every other tile is as it was. *)
Theorem reconstruct_marks_path (W H : Z) (a : algorithm) (n fuel : nat)
    (st0 s st : state) :
  valid W H st0 = true → start W H st0 = Return s →
  search (step a) n s = Return (st, Some true) →
  ∃ e mid,
    last (closed st) = Some e ∧ Node.getPos e = Node.getPos (END st) ∧
    Node.chain e =
      (e :: mid) ++ (if Node.eqb (START st) (END st) then [] else [START st]) ∧
    Node.parent (START st) = None ∧
    ((Node.depth e ≤ fuel)%nat →
     ∃ st', reconstructPath fuel st = Some (Return st') ∧
       closed st' ++ [e] = closed st ∧
       (∀ y x, in_range W H y x →
          get_tile (GRID st') y x = Return FinalPath ↔
          (y, x) ∈ Node.getPos <$> mid) ∧
       (Node.eqb (START st) (END st) = false →
        get_tile (GRID st') (Node.y (START st)) (Node.x (START st)) = Return Start) ∧
       get_tile (GRID st') (Node.y (END st)) (Node.x (END st)) = Return End_tile ∧
       (∀ y x, in_range W H y x →
          (y, x) ∉ Node.getPos <$> mid →
          (y, x) ≠ Node.getPos (START st) → (y, x) ≠ Node.getPos (END st) →
          get_tile (GRID st') y x = get_tile (GRID st) y x)).
Proof.
  intros HV Hstart Hsearch. apply valid_spec in HV.
  destruct (start_spec W H st0 HV) as (s1 & Hs1 & HVs & Hinv0 & _ & _ & HS0 & HE0 & _).
  rewrite Hstart in Hs1. injection Hs1 as <-.
  destruct (search_last (step a)
    (λ t, run_inv W H (GRID s) t ∧ START t = START s ∧ END t = END s) n s st true)
    as (prev & (Hprev & HSp & HEp) & Hlast); [done| |done|].
  { intros st1 st2 (Hi1 & HS1 & HE1) Hst.
    destruct (step_run W H (GRID s) a st1 Hi1) as (st2' & r & Hst' & Hi2 & Hsg & _).
    rewrite Hst in Hst'. injection Hst' as <- <-.
    destruct Hsg as (? & ? & _). split; [done|]. split; congruence. }
  destruct (step_run W H (GRID s) a prev Hprev) as (st' & r & Hst' & Hinv & Hsg & Hout).
  rewrite Hlast in Hst'. injection Hst' as <- <-.
  destruct Hsg as (HSt & HEt & _).
  destruct Hout as (e & Heo & Hcl & Hr).
  destruct (Node.eqb e (END prev)) eqn:HeE; [clear Hr|done].
  apply Node_eqb_true in HeE.
  set (cl := closed prev) in *.
  destruct Hprev as [Hd Hb Hi Hnd Hp Hps Hnf Hw].
  assert (e ∈ open prev ++ cl) as Heoc by (apply elem_of_app; by left).
  assert (NoDup (Node.getPos <$> cl)) as Hndc.
  { rewrite fmap_app in Hnd. by apply NoDup_app in Hnd as (_ & _ & ?). }
  assert (Node.getPos e ∉ Node.getPos <$> cl) as Hecl.
  { rewrite fmap_app in Hnd. apply NoDup_app in Hnd as (_ & Hdis & _).
    apply Hdis. apply list_elem_of_fmap. eauto. }
  assert (∀ n p, n ∈ cl → Node.parent n = Some p → p ∈ cl) as Hparc.
  { intros m p Hm Hmp. assert (m ∈ open prev ++ cl) as Hm' by (apply elem_of_app; by right).
    specialize (Hp m Hm'). by rewrite Hmp in Hp. }
  assert (∀ n, n ∈ cl → Node.parent n = None → n = START st) as Hrootc.
  { intros m Hm Hmp. assert (m ∈ open prev ++ cl) as Hm' by (apply elem_of_app; by right).
    specialize (Hp m Hm'). rewrite Hmp in Hp. congruence. }
  assert (Node.parent (START st) = None) as HrootS0.
  { rewrite HSt, HSp, HS0. apply HV. }
  assert (node_interior W H (START st) ∧ node_interior W H (END st)) as [HSi HEi].
  { rewrite HSt, HSp, HEt, HEp. split; apply HVs. }
  assert (Node.getPos e = Node.getPos (END st)) as HeEt by congruence.
  destruct (Node.parent e) as [p|] eqn:Hpe.
  2:{ (* the End node is the Start node *)
    assert (e = START st) as HeS.
    { specialize (Hp e Heoc). rewrite Hpe in Hp. congruence. }
    assert (Node.eqb (START st) (END st) = true) as Hsame.
    { apply Node_eqb_true. congruence. }
    exists e, []. split; [by rewrite Hcl, last_snoc|]. split; [done|].
    rewrite Hsame. split.
    { destruct e as [ye xe pe ge he]. simpl in *. by subst pe. }
    split; [done|]. intros _.
    destruct (mark_ends_cells W H (GRID st) (START st) (END st) (ri_dims _ _ _ _ _ _ _ Hinv)
                HSi HEi) as (g2 & Hm & Hd2 & Hc2).
    eexists. split.
    { unfold reconstructPath. rewrite Hcl, rev_app_distr. simpl.
      rewrite Hpe. destruct fuel; simpl;
        apply bind_Return in Hm as (g1 & Hm1 & Hm2); rewrite Hm1; simpl;
        rewrite Hm2; simpl; reflexivity. }
    simpl. rewrite rev_involutive. split; [done|].
    split; [|split; [|split]].
    - intros y x Hr. rewrite (get_tile_cell W H) by done.
      split; [|intros Hin; inversion Hin].
      intros [= H6]. exfalso. rewrite Hc2 in H6 by (unfold in_range in Hr; lia).
      destruct (decide _); [done|]. destruct (decide _); [done|].
      by apply (ri_nofinal _ _ _ _ _ _ _ Hinv y x Hr).
    - intros Hf. discriminate Hf.
    - rewrite (get_tile_cell W H) by (done || by apply interior_in_range).
      unfold node_interior, interior in HEi. rewrite Hc2 by lia.
      by rewrite decide_True.
    - intros y x Hr _ HnS HnE.
      rewrite !(get_tile_cell W H) by (done || apply Hinv).
      f_equal. rewrite Hc2 by (unfold in_range in Hr; lia).
      rewrite !decide_False; [done| |].
      + intros [-> ->]. by apply HnS.
      + intros [-> ->]. by apply HnE. }
  assert (p ∈ cl) as Hpcl. { specialize (Hp e Heoc). by rewrite Hpe in Hp. }
  destruct (chain_init_closed cl Hparc p Hpcl) as [Hmid Hroot].
  destruct (chain_split p) as (Hchain & Hrootp & _).
  assert (chain_root p = START st) as HrootS by (by apply Hrootc).
  assert (START st ∈ cl) as HScl by (by rewrite <- HrootS).
  assert (Node.getPos (START st) ≠ Node.getPos (END st)) as Hdiff'.
  { intros Heq. apply Hecl. rewrite HeEt, <- Heq. apply list_elem_of_fmap. eauto. }
  assert (Node.eqb (START st) (END st) = false) as Hdiff by (by apply Node_eqb_false).
  assert (Node.chain e = e :: chain_init p ++ [START st]) as Hce.
  { destruct e as [ye xe pe ge he]. simpl in *. subst pe. by rewrite Hchain, HrootS. }
  assert (chain_init e = e :: chain_init p) as Hie.
  { destruct e as [ye xe pe ge he]. simpl in *. by subst pe. }
  exists e, (chain_init p).
  split; [by rewrite Hcl, last_snoc|]. split; [done|].
  rewrite Hdiff. split; [done|]. split; [done|].
  intros Hfuel.
  destruct (reconstruct_loop_chain W H cl Hndc) with (fuel := fuel) (curr := e)
    (g := GRID st) as (g' & Hloop & Hd' & Hc').
  { intros m Hm. apply Hi, elem_of_app. by right. }
  { done. }
  { apply Hinv. }
  { by apply Hi. }
  { intros q Hq. congruence. }
  { done. }
  destruct (mark_ends_cells W H g' (START st) (END st) Hd' HSi HEi)
    as (g2 & Hm & Hd2 & Hc2).
  eexists. split.
  { unfold reconstructPath. rewrite Hcl, rev_app_distr. simpl.
    rewrite Hpe in Hloop. rewrite rev_involutive, Hpe, Hloop.
    apply bind_Return in Hm as (g1 & Hm1 & Hm2). rewrite Hm1. simpl.
    rewrite Hm2. simpl. reflexivity. }
  simpl. split; [done|].
  assert (∀ y x, in_range W H y x →
          cell g2 y x = 6 ↔ (y, x) ∈ Node.getPos <$> chain_init p) as Hfinal.
  { intros y x Hr. rewrite Hc2 by (unfold in_range in Hr; lia).
    destruct (decide (y = Node.y (END st) ∧ x = Node.x (END st))) as [[-> ->]|HnE].
    { split; [done|]. intros (m & Hpm & Hmm)%list_elem_of_fmap.
      exfalso. apply Hecl. apply list_elem_of_fmap. exists m.
      split; [|by apply Hmid]. rewrite HeEt. exact Hpm. }
    destruct (decide (y = Node.y (START st) ∧ x = Node.x (START st))) as [[-> ->]|HnS].
    { split; [done|]. intros (m & Hpm & Hmm)%list_elem_of_fmap.
      destruct (Hmid m Hmm) as [Hmcl Hmpar].
      exfalso. apply Hmpar.
      rewrite (NoDup_pos_eq cl m (START st) Hndc Hmcl HScl); [|done].
      done. }
    rewrite Hc' by (unfold in_range in Hr; lia). rewrite Hie, fmap_cons.
    destruct (bool_decide_reflect ((y, x) ∈ Node.getPos e :: (Node.getPos <$> chain_init p)))
      as [Hin|Hnin].
    - split; [intros _|done]. apply elem_of_cons in Hin as [Heq|Hin]; [|done].
      exfalso. apply HnE. rewrite HeEt in Heq. by injection Heq.
    - split; [|intros Hin; exfalso; apply Hnin; by right].
      intros H6. exfalso. by apply (ri_nofinal _ _ _ _ _ _ _ Hinv y x Hr). }
  split; [|split; [|split]].
  - intros y x Hr. rewrite (get_tile_cell W H) by done.
    rewrite <- Hfinal by done. unfold FinalPath. split; [by intros [= ->] | by intros ->].
  - intros _. rewrite (get_tile_cell W H) by (done || by apply interior_in_range).
    unfold node_interior, interior in HSi. rewrite Hc2 by lia.
    rewrite decide_False, decide_True; [done | done |].
    intros [Hy Hx]. apply Hdiff'. unfold Node.getPos. by rewrite Hy, Hx.
  - rewrite (get_tile_cell W H) by (done || by apply interior_in_range).
    unfold node_interior, interior in HEi. rewrite Hc2 by lia.
    by rewrite decide_True.
  - intros y x Hr Hnm HnS HnE.
    rewrite !(get_tile_cell W H) by (done || apply Hinv).
    f_equal. rewrite Hc2 by (unfold in_range in Hr; lia).
    rewrite !decide_False.
    + rewrite Hc' by (unfold in_range in Hr; lia). rewrite Hie, fmap_cons.
      rewrite bool_decide_eq_false_2; [done|].
      intros [Heq|Hin]%elem_of_cons; [|done]. apply HnE. by rewrite <- HeEt.
    + intros [-> ->]. by apply HnS.
    + intros [-> ->]. by apply HnE.
Qed.

Lemma reconstruct_marks_path_witness :
  valid 6 6 (example_state ALG_BFS false) = true ∧
  ∃ e mid st', last (closed (example_finished ALG_BFS false)) = Some e ∧
    Node.chain e = (e :: mid) ++ [START (example_finished ALG_BFS false)] ∧
    reconstructPath 36 (example_finished ALG_BFS false) = Some (Return st') ∧
    closed st' ++ [e] = closed (example_finished ALG_BFS false).
Proof.
  assert (valid 6 6 (example_state ALG_BFS false) = true) as HV
    by (vm_compute; reflexivity).
  assert (start 6 6 (example_state ALG_BFS false)
          = Return (example_seeded ALG_BFS false)) as Hst
    by (vm_compute; reflexivity).
  assert (search (step ALG_BFS) 36 (example_seeded ALG_BFS false)
          = Return (example_finished ALG_BFS false, Some true)) as Hsearch
    by (vm_compute; reflexivity).
  split; [exact HV|].
  destruct (reconstruct_marks_path 6 6 ALG_BFS 36 36 _ _ _ HV Hst Hsearch)
    as (e & mid & Hlast & _ & Hchain & _ & Hrec).
  assert (Node.depth e ≤ 36)%nat as Hfuel.
  { assert (Node.depth <$> last (closed (example_finished ALG_BFS false)) = Some 6%nat)
      as Hd by (vm_compute; reflexivity).
    rewrite Hlast in Hd. injection Hd as ->. lia. }
  destruct (Hrec Hfuel) as (st' & Hr & Hcl & _).
  exists e, mid, st'. split; [exact Hlast|]. split; [exact Hchain|].
  split; [exact Hr | exact Hcl].
Defined.

(** ** The node that [Greedy] and [AStar] remove, and what is left of
    the open list *)

Lemma step_expand (a : algorithm) (st : state) (curr : Node.t) :
  taken a st = Some curr →
  step a st = expand (visit_of a st) curr (remaining a st) st.
Proof.
  destruct a; simpl; intros Ht.
  - unfold DFS. destruct (rev (open st)) as [|c r]; [done|].
    by injection Ht as ->.
  - unfold BFS. destruct (open st) as [|c r]; [done|]. by injection Ht as ->.
  - unfold Greedy. destruct (sort_by Node.hCost (open st)) as [|c r] eqn:Hs; [done|].
    injection Ht as ->. destruct (open st); [done|]. done.
  - unfold AStar. destruct (sort_by Node.fCost (open st)) as [|c r] eqn:Hs; [done|].
    injection Ht as ->. destruct (open st); [done|]. done.
Qed.

Lemma taken_sorted (a : algorithm) (st : state) :
  a = ALG_Greedy ∨ a = ALG_AStar → open st ≠ [] →
  ∃ curr, taken a st = Some curr ∧
          sort_by (priority_key a) (open st) = curr :: remaining a st.
Proof.
  intros [-> | ->] Hne; simpl.
  - destruct (sort_by Node.hCost (open st)) as [|c r] eqn:Hs.
    { by apply sort_by_nil in Hs. }
    exists c. split; [done|]. unfold priority_key.
    change (sort_by (λ n, Node.hCost n) (open st)) with (sort_by Node.hCost (open st)).
    by rewrite Hs.
  - destruct (sort_by Node.fCost (open st)) as [|c r] eqn:Hs.
    { by apply sort_by_nil in Hs. }
    exists c. split; [done|]. unfold priority_key.
    change (sort_by (λ n, Node.gCost n + Node.hCost n) (open st))
      with (sort_by Node.fCost (open st)).
    by rewrite Hs.
Qed.












(** ** The open list after a step of A* *)

Lemma getNeighbors_NoDup (d : bool) (n : Node.t) :
  NoDup (Node.getPos <$> Node.getNeighbors d n).
Proof.
  destruct d; simpl; unfold Node.getPos; simpl;
    repeat (apply NoDup_cons; split;
            [rewrite ?elem_of_cons, elem_of_nil; intros Hin;
             repeat (destruct Hin as [[=]|Hin]; [lia|]); done|]);
    apply NoDup_nil_2.
Qed.

Lemma Node_mem_app n (l1 l2 : list Node.t) :
  Node.mem n (l1 ++ l2) = Node.mem n l1 || Node.mem n l2.
Proof. unfold Node.mem. apply existsb_app. Qed.

Lemma find_mem_false (p : Node.t) (cl : list Node.t) :
  Node.mem p cl = false → find (λ node, Node.eqb p node) cl = None.
Proof.
  unfold Node.mem. induction cl as [|c cl IH]; simpl; [done|].
  intros [Hc Hcl]%orb_false_iff. rewrite Hc. by apply IH.
Qed.

Lemma relax_by_cons g cl E d curr nb nbs o :
  relax_by g cl E d curr (nb :: nbs) o =
    if Node.eqb o nb then
      (if negb (cell g (Node.y nb) (Node.x nb) =? 1) && negb (Node.mem nb cl)
       then relaxed (candidate E d curr nb) o else o)
    else relax_by g cl E d curr nbs o.
Proof. unfold relax_by. simpl. by destruct (Node.eqb o nb). Qed.

Lemma relax_by_fresh g cl E d curr nbs o :
  Node.mem o nbs = false → relax_by g cl E d curr nbs o = o.
Proof. intros Hm. unfold relax_by. by rewrite (find_mem_false _ _ Hm). Qed.

Lemma Node_mem_pos (n : Node.t) (l1 l2 : list Node.t) :
  Node.getPos <$> l1 = Node.getPos <$> l2 → Node.mem n l1 = Node.mem n l2.
Proof.
  intros Hpos. destruct (Node.mem n l2) eqn:Hm.
  - apply Node_mem_true. rewrite Hpos. by apply Node_mem_true.
  - apply Node_mem_false. rewrite Hpos. by apply Node_mem_false.
Qed.

Lemma visit_astar_eq W H E d curr cl g op nb :
  grid_dims W H g → in_range W H (Node.y nb) (Node.x nb) →
  visit_astar E d curr cl (g, op) nb =
    if negb (cell g (Node.y nb) (Node.x nb) =? 1) && negb (Node.mem nb cl) then
      if Node.mem nb op then Return (g, relaxed (candidate E d curr nb) <$> op)
      else g' ← set_tile g (Node.y nb) (Node.x nb) 4;
           Return (g', op ++ [candidate E d curr nb])
    else Return (g, op).
Proof.
  intros Hd Hr. unfold visit_astar. rewrite (isPath_cell W H) by done. simpl.
  fold (candidate E d curr nb).
  destruct (_ && _); [|done].
  assert (Node.mem (candidate E d curr nb) op = Node.mem nb op) as -> by done.
  destruct (Node.mem nb op); [|done]. by rewrite replace_loop_relaxed.
Qed.

(** The loop of [AStar] over neighbors that lie inside the matrix and
    have pairwise different coordinates: every entry of the open list is
    relaxed at its place, and the candidates that pass the test are
    appended. *)
Lemma for_each_astar_exact W H E d curr cl :
  ∀ nbs g op,
    grid_dims W H g → NoDup (Node.getPos <$> nbs) →
    (∀ nb, nb ∈ nbs → in_range W H (Node.y nb) (Node.x nb)) →
    ∃ g', for_each (visit_astar E d curr cl) nbs (g, op) =
            Return (g', (relax_by g cl E d curr nbs <$> op) ++
                        (candidate E d curr <$> List.filter (admissible g cl op) nbs)) ∧
          grid_dims W H g'.
Proof.
  induction nbs as [|nb nbs IH]; intros g op Hd Hnd Hr.
  { exists g. simpl. split; [|done]. rewrite app_nil_r. do 2 f_equal.
    rewrite <- (list_fmap_id op) at 1. by apply list_fmap_ext. }
  rewrite fmap_cons in Hnd. apply NoDup_cons in Hnd as [Hnb Hnd].
  assert (in_range W H (Node.y nb) (Node.x nb)) as Hrnb by (apply Hr; by left).
  assert (∀ nb', nb' ∈ nbs → in_range W H (Node.y nb') (Node.x nb')) as Hr'.
  { intros nb' Hin. apply Hr. by right. }
  assert (∀ n, Node.getPos n = Node.getPos nb → Node.mem n nbs = false) as Hfresh.
  { intros n Hn. apply Node_mem_false. by rewrite Hn. }
  cbn [for_each]. rewrite (visit_astar_eq W H) by done.
  set (cand := candidate E d curr nb).
  destruct (negb (cell g (Node.y nb) (Node.x nb) =? 1) && negb (Node.mem nb cl))
    eqn:Hpass.
  - destruct (Node.mem nb op) eqn:Hmem.
    + simpl.
      destruct (IH g (relaxed cand <$> op) Hd Hnd Hr') as (g' & -> & Hd').
      exists g'. split; [|done]. do 2 f_equal. f_equal.
      * rewrite <- list_fmap_compose. apply list_fmap_ext. intros i o _. simpl.
        rewrite relax_by_cons. destruct (Node.eqb o nb) eqn:Heo.
        -- rewrite Hpass. apply relax_by_fresh, Hfresh.
           rewrite relaxed_pos. by apply Node_eqb_true.
        -- assert (relaxed cand o = o) as ->; [|done].
           unfold relaxed. assert (Node.eqb o cand = Node.eqb o nb) as -> by done.
           by rewrite Heo.
      * cbn [List.filter]. assert (admissible g cl op nb = false) as ->.
        { unfold admissible. by rewrite Hmem, andb_false_r. }
        f_equal. apply List.filter_ext_in. intros nb' _. unfold admissible.
        f_equal. f_equal. apply Node_mem_pos, fmap_relaxed_pos.
    + destruct (set_tile_cell W H g _ _ 4 Hd Hrnb) as (g1 & -> & Hd1 & Hc1). simpl.
      destruct (IH g1 (op ++ [cand]) Hd1 Hnd Hr') as (g' & -> & Hd').
      exists g'. split; [|done]. do 2 f_equal.
      cbn [List.filter]. assert (admissible g cl op nb = true) as ->.
      { unfold admissible. by rewrite Hpass, Hmem. }
      rewrite fmap_app, <- app_assoc. simpl. f_equal; [|f_equal].
      * apply list_fmap_ext. intros i o Ho. rewrite relax_by_cons.
        assert (Node.eqb o nb = false) as ->.
        { apply Node_eqb_false. apply Node_mem_false in Hmem. intros Heq.
          apply Hmem. rewrite <- Heq. apply list_elem_of_fmap. exists o.
          split; [done|]. by eapply list_elem_of_lookup_2. }
        unfold relax_by. destruct (find _ nbs) as [nb'|] eqn:Hf; [|done].
        apply find_some in Hf as [Hin' _]. apply list_elem_of_In in Hin'.
        specialize (Hr' nb' Hin'). unfold in_range in Hr'.
        rewrite Hc1 by lia. rewrite decide_False; [done|].
        intros [Hy Hx]. apply Hnb. apply list_elem_of_fmap. exists nb'.
        split; [|done]. unfold Node.getPos. by rewrite Hy, Hx.
      * apply relax_by_fresh, Hfresh. done.
      * f_equal. apply List.filter_ext_in. intros nb' Hin.
        apply list_elem_of_In in Hin.
        assert (Node.getPos nb' ≠ Node.getPos nb) as Hne.
        { intros Heq. apply Hnb. rewrite <- Heq. apply list_elem_of_fmap. eauto. }
        unfold admissible. specialize (Hr' nb' Hin). unfold in_range in Hr'.
        rewrite Hc1 by lia. rewrite decide_False.
        2:{ intros [Hy' Hx']. apply Hne. unfold Node.getPos. by rewrite Hy', Hx'. }
        rewrite Node_mem_app. simpl. rewrite orb_false_r.
        assert (Node.eqb nb' cand = false) as ->.
        { by apply Node_eqb_false. }
        by rewrite orb_false_r.
  - simpl. destruct (IH g op Hd Hnd Hr') as (g' & -> & Hd').
    exists g'. split; [|done]. do 2 f_equal.
    cbn [List.filter]. assert (admissible g cl op nb = false) as ->.
    { unfold admissible. by rewrite Hpass. }
    f_equal. apply list_fmap_ext. intros i o _. rewrite relax_by_cons.
    destruct (Node.eqb o nb) eqn:Heo; [|done]. rewrite Hpass.
    apply relax_by_fresh, Hfresh. by apply Node_eqb_true.
Qed.

(** A call of [AStar] in a valid state: the node taken goes to the closed
    list, every other entry of the sorted open list is relaxed at its
    place, and the candidates made of the admissible neighbors are
    appended. *)
Lemma astar_step_exact W H st curr :
  Valid W H st → taken ALG_AStar st = Some curr →
  ∃ st', step ALG_AStar st
           = Return (st', if Node.eqb curr (END st) then Some true else None) ∧
         closed st' = closed st ++ [curr] ∧
         open st' = if Node.eqb curr (END st) then remaining ALG_AStar st
                    else (relax_entry st curr <$> remaining ALG_AStar st) ++
                         admitted ALG_AStar st curr.
Proof.
  intros HV Ht. rewrite (step_expand _ _ _ Ht).
  assert (node_interior W H curr) as Hci.
  { apply (v_open _ _ _ HV). by apply taken_step in Ht as [? _]. }
  destruct (set_tile_cell W H (GRID st) _ _ 5 (v_dims _ _ _ HV)
              (interior_in_range _ _ _ _ Hci)) as (g1 & Hset & Hd1 & Hc1).
  unfold expand. rewrite Hset. simpl.
  destruct (Node.eqb curr (END st)).
  { eexists. split; [done|]. done. }
  destruct (for_each_astar_exact W H (END st) (DIAGONAL st) curr (closed st ++ [curr])
              (Node.getNeighbors (DIAGONAL st) curr) g1 (remaining ALG_AStar st) Hd1
              (getNeighbors_NoDup _ _)) as (g' & Hfe & _).
  { intros nb Hnb. by eapply neighbor_in_range. }
  simpl in Hfe. rewrite Hfe. simpl. eexists. split; [done|]. simpl. split; [done|].
  assert (∀ nb, nb ∈ Node.getNeighbors (DIAGONAL st) curr →
            cell g1 (Node.y nb) (Node.x nb) = cell (GRID st) (Node.y nb) (Node.x nb))
    as Hcell.
  { intros nb Hnb.
    pose proof (neighbor_in_range W H _ _ _ Hci Hnb) as Hr. unfold in_range in Hr.
    rewrite Hc1 by lia. rewrite decide_False; [done|].
    apply getNeighbors_spec in Hnb as (_ & _ & _ & Hne & _).
    intros [Hy Hx]. apply Hne. unfold Node.getPos. by rewrite Hy, Hx. }
  f_equal.
  - apply list_fmap_ext. intros i o _. unfold relax_entry, relax_by.
    destruct (find _ _) as [nb|] eqn:Hf; [|done].
    apply find_some in Hf as [Hin _]. apply list_elem_of_In in Hin.
    by rewrite (Hcell nb Hin).
  - unfold admitted. f_equal. apply List.filter_ext_in. intros nb Hnb.
    apply list_elem_of_In in Hnb. unfold admissible. by rewrite (Hcell nb Hnb).
Qed.

Lemma steps_valid W H (a : algorithm) (n : nat) (s st : state) :
  Valid W H s → steps (step a) n s = Return st → Valid W H st.
Proof.
  revert s. induction n as [|n IH]; intros s HVs Hsteps; simpl in Hsteps.
  { by injection Hsteps as <-. }
  apply bind_Return in Hsteps as ([s1 r] & Hs & Hsteps).
  destruct (step_valid W H a s HVs) as (s1' & r' & Hs' & HV1 & _).
  rewrite Hs in Hs'. injection Hs' as <- <-. by apply (IH s1).
Qed.

Lemma candidate_fields E d curr nb :
  Node.getPos (candidate E d curr nb) = Node.getPos nb ∧
  Node.parent (candidate E d curr nb) = Node.parent nb ∧
  Node.gCost (candidate E d curr nb) = Node.gCost curr + 1 ∧
  Node.hCost (candidate E d curr nb) = HCost E d nb.
Proof. done. Qed.

(** C3: in a run seeded by [start], a call of [AStar] that takes a node
    [curr] other than the End node returns [None] and leaves, after
    [curr] was put into the closed list, the rest of the sorted open
    list with every entry relaxed at its place, followed by the
    candidates of the admissible neighbors.  For every neighbor [nb] of
    [curr] the candidate has the coordinates of [nb], the discoverer
    [curr], the g-cost of [curr] plus 1 (for a diagonal neighbor as for
    an orthogonal one) and the heuristic h-cost.  Where an entry [o] of
    the open list has the coordinates of [nb], these are not in the
    closed list, and the entry at the place of [o] is the candidate when
    the g-cost of the candidate is strictly lower than that of [o], and
    [o] itself otherwise; every entry that has the coordinates of no
    neighbor stays as it is; and when the coordinates of [nb] are in the
    closed list, no entry of the open list has them afterwards, whatever
    the costs. *)
Theorem astar_relaxation (W H : Z) (st0 s st : state) (n : nat) (curr : Node.t) :
  valid W H st0 = true → start W H st0 = Return s →
  steps (step ALG_AStar) n s = Return st →
  taken ALG_AStar st = Some curr → Node.eqb curr (END st) = false →
  ∃ st',
    step ALG_AStar st = Return (st', None) ∧
    closed st' = closed st ++ [curr] ∧
    open st' = (relax_entry st curr <$> remaining ALG_AStar st) ++
               admitted ALG_AStar st curr ∧
    (∀ i o, remaining ALG_AStar st !! i = Some o →
       (∀ nb, nb ∈ Node.getNeighbors (DIAGONAL st) curr → Node.eqb o nb = false) →
       open st' !! i = Some o) ∧
    ∀ nb, nb ∈ Node.getNeighbors (DIAGONAL st) curr →
      let cand := candidate (END st) (DIAGONAL st) curr nb in
      (Node.getPos cand = Node.getPos nb ∧ Node.parent cand = Some curr ∧
       Node.gCost cand = Node.gCost curr + 1 ∧
       Node.hCost cand = HCost (END st) (DIAGONAL st) nb) ∧
      (∀ i o, remaining ALG_AStar st !! i = Some o → Node.eqb o nb = true →
         Node.mem nb (closed st ++ [curr]) = false ∧
         open st' !! i = Some (if Node.gCost cand <? Node.gCost o then cand else o)) ∧
      (Node.mem nb (closed st ++ [curr]) = true → Node.mem nb (open st') = false).
Proof.
  intros HV Hstart Hsteps Ht HnE. apply valid_spec in HV.
  destruct (start_spec W H st0 HV) as (s1 & Hs1 & HVs & Hinv0 & _).
  rewrite Hstart in Hs1. injection Hs1 as <-.
  destruct (steps_run W H (GRID s) ALG_AStar n s Hinv0) as (st1 & Hst1 & Hinv & _).
  rewrite Hsteps in Hst1. injection Hst1 as <-.
  pose proof (steps_valid W H ALG_AStar n s st HVs Hsteps) as HVt.
  destruct (astar_step_exact W H st curr HVt Ht) as (st' & Hstep & Hcl & Hop).
  rewrite HnE in Hstep, Hop.
  destruct (step_run W H (GRID s) ALG_AStar st Hinv) as (st2 & r2 & Hstep2 & Hinv' & _).
  rewrite Hstep in Hstep2. injection Hstep2 as <- <-.
  exists st'. split; [done|]. split; [done|]. split; [done|].
  destruct (taken_sorted ALG_AStar st (or_intror eq_refl)) as (curr' & Ht' & Hsort).
  { intros Hnil. unfold taken in Ht. by rewrite Hnil in Ht. }
  rewrite Ht in Ht'. injection Ht' as <-.
  assert (open st ≡ₚ curr :: remaining ALG_AStar st) as Hperm.
  { rewrite <- Hsort. symmetry. apply sort_by_perm. }
  pose proof (ri_nodup _ _ _ _ _ _ _ Hinv) as Hnd.
  rewrite Hperm, fmap_app, fmap_cons in Hnd.
  apply NoDup_app in Hnd as (Hnd1 & Hdis & _).
  apply NoDup_cons in Hnd1 as [Hcr _].
  assert (∀ i o, remaining ALG_AStar st !! i = Some o →
            open st' !! i = Some (relax_entry st curr o)) as Hlook.
  { intros i o Ho. rewrite Hop, lookup_app_l.
    - by rewrite list_lookup_fmap, Ho.
    - rewrite length_fmap. by eapply lookup_lt_Some. }
  split.
  { intros i o Ho Hnone. rewrite (Hlook i o Ho). f_equal.
    unfold relax_entry. apply relax_by_fresh.
    unfold Node.mem. apply not_true_is_false. intros Hex.
    apply existsb_exists in Hex as (nb & Hin & Heq).
    apply list_elem_of_In in Hin. by rewrite (Hnone nb Hin) in Heq. }
  intros nb Hnb cand.
  pose proof (getNeighbors_spec _ _ _ Hnb) as (Hpar & _).
  split; [|split].
  - destruct (candidate_fields (END st) (DIAGONAL st) curr nb) as (? & Hp & ? & ?).
    rewrite Hpar in Hp. done.
  - intros i o Ho Heq. apply Node_eqb_true in Heq as Hpos.
    assert (o ∈ remaining ALG_AStar st) as Hin by (by eapply list_elem_of_lookup_2).
    assert (Node.mem nb (closed st ++ [curr]) = false) as Hncl.
    { apply Node_mem_false. rewrite <- Hpos, fmap_app. simpl.
      intros [Hc|Hc%list_elem_of_singleton]%elem_of_app.
      - apply (Hdis (Node.getPos o)); [|done]. right. apply list_elem_of_fmap. eauto.
      - apply Hcr. rewrite <- Hc. apply list_elem_of_fmap. eauto. }
    split; [done|]. rewrite (Hlook i o Ho). f_equal.
    unfold relax_entry, relax_by.
    destruct (find _ _) as [nb'|] eqn:Hf.
    2:{ pose proof (find_none _ _ Hf nb ltac:(by apply list_elem_of_In)) as Hfn.
        simpl in Hfn. congruence. }
    apply find_some in Hf as [Hin' Heq']. apply list_elem_of_In in Hin'.
    assert (nb' = nb) as ->.
    { apply (NoDup_pos_eq (Node.getNeighbors (DIAGONAL st) curr));
        [apply getNeighbors_NoDup | done | done |].
      apply Node_eqb_true in Heq'. congruence. }
    assert (cell (GRID st) (Node.y nb) (Node.x nb) ≠ 1) as Hpass.
    { apply getPos_eq in Hpos as [<- <-].
      apply (ri_pass _ _ _ _ _ _ _ Hinv), elem_of_app. left. rewrite Hperm. by right. }
    apply Z.eqb_neq in Hpass. rewrite Hpass, Hncl. simpl.
    unfold relaxed. fold cand.
    assert (Node.eqb o cand = Node.eqb o nb) as -> by done.
    by rewrite Heq.
  - intros Hcl'. apply Node_mem_false. intros Hin.
    pose proof (ri_nodup _ _ _ _ _ _ _ Hinv') as Hnd'.
    rewrite fmap_app in Hnd'. apply NoDup_app in Hnd' as (_ & Hdis' & _).
    apply (Hdis' _ Hin). rewrite Hcl. by apply Node_mem_true.
Qed.

Lemma astar_relaxation_witness :
  let st := after_run ALG_AStar 5 (seeded 7 7 pair_state) in
  valid 7 7 pair_state = true ∧
  ∃ st', step ALG_AStar st = Return (st', None) ∧
    (λ n, (Node.getPos n, Node.gCost n)) <$> remaining ALG_AStar st
      = [((3, 4), 4); ((2, 4), 4)] ∧
    (λ n, (Node.getPos n, Node.gCost n)) <$> open st'
      = [((3, 4), 3); ((2, 4), 3)].
Proof.
  intros st.
  assert (valid 7 7 pair_state = true) as HV by (vm_compute; reflexivity).
  assert (start 7 7 pair_state = Return (seeded 7 7 pair_state)) as Hstart
    by (vm_compute; reflexivity).
  assert (steps (step ALG_AStar) 5 (seeded 7 7 pair_state) = Return st) as Hsteps
    by (vm_compute; reflexivity).
  assert (taken ALG_AStar st = Some (default (START st) (taken ALG_AStar st))) as Ht
    by (vm_compute; reflexivity).
  assert (Node.eqb (default (START st) (taken ALG_AStar st)) (END st) = false) as HnE
    by (vm_compute; reflexivity).
  split; [exact HV|].
  destruct (astar_relaxation 7 7 _ _ _ 5 _ HV Hstart Hsteps Ht HnE)
    as (st' & Hs & _ & Hop & _).
  exists st'. split; [exact Hs|]. split; [vm_compute; reflexivity|].
  rewrite Hop. vm_compute. reflexivity.
Defined.

(** * Further properties of the code *)

(** ** Neighbors and the heuristic *)

Lemma getNeighbors_moves (d : bool) (n nb : Node.t) :
  nb ∈ Node.getNeighbors d n → one_move d (Node.getPos n) (Node.getPos nb).
Proof.
  unfold Node.getNeighbors, one_move, Node.getPos. intros Hin.
  destruct d; repeat (apply elem_of_cons in Hin as [->|Hin]);
    try (by inversion Hin); simpl; lia.
Qed.

(** Every coordinate one move from [n] is the coordinate of one of the
    neighbors that [getNeighbors] returns. *)
Lemma moves_getNeighbors (d : bool) (n : Node.t) (c : Z * Z) :
  one_move d (Node.getPos n) c → c ∈ Node.getPos <$> Node.getNeighbors d n.
Proof.
  destruct c as [y x]. unfold one_move, Node.getNeighbors, Node.getPos. simpl.
  intros Hm.
  assert (∀ (l : list (Z * Z)) (a b : Z), (a, b) ∈ l → y = a → x = b → (y, x) ∈ l)
    as Hsub by (by intros l a b Hin -> ->).
  destruct d; simpl.
  - assert ((y = Node.y n - 1 ∨ y = Node.y n ∨ y = Node.y n + 1) ∧
            (x = Node.x n - 1 ∨ x = Node.x n ∨ x = Node.x n + 1) ∧
            ¬ (y = Node.y n ∧ x = Node.x n)) as (Hy & Hx & Hne) by lia.
    destruct Hy as [Hy|[Hy|Hy]], Hx as [Hx|[Hx|Hx]]; try tauto;
      (eapply Hsub; [|exact Hy|exact Hx]);
      repeat first [apply list_elem_of_here | apply list_elem_of_further].
  - assert ((y = Node.y n - 1 ∧ x = Node.x n) ∨ (y = Node.y n ∧ x = Node.x n + 1) ∨
            (y = Node.y n + 1 ∧ x = Node.x n) ∨ (y = Node.y n ∧ x = Node.x n - 1))
      as [[Hy Hx]|[[Hy Hx]|[[Hy Hx]|[Hy Hx]]]] by lia;
      (eapply Hsub; [|exact Hy|exact Hx]);
      repeat first [apply list_elem_of_here | apply list_elem_of_further].
Qed.

(** X1: [getNeighbors] returns four nodes, or eight with diagonal
    movement, the four orthogonal ones first; they have pairwise
    different coordinates, none has the coordinates of the node itself,
    each has the node as its discoverer and both costs 0; a coordinate
    is that of a returned neighbor exactly when it is one move away (one
    step in a row or column, or in any of the eight directions with
    diagonal movement); and the node has the coordinates of a neighbor
    of each of its neighbors. *)
Theorem getNeighbors_shape (d : bool) (n : Node.t) :
  length (Node.getNeighbors d n) = (if d then 8%nat else 4%nat) ∧
  (take 4 (Node.getNeighbors true n) = Node.getNeighbors false n) ∧
  NoDup (Node.getPos <$> Node.getNeighbors d n) ∧
  (Node.getPos n ∉ Node.getPos <$> Node.getNeighbors d n) ∧
  (∀ nb, nb ∈ Node.getNeighbors d n →
         Node.parent nb = Some n ∧ Node.gCost nb = 0 ∧ Node.hCost nb = 0) ∧
  (∀ c, c ∈ Node.getPos <$> Node.getNeighbors d n ↔ one_move d (Node.getPos n) c) ∧
  (∀ nb, nb ∈ Node.getNeighbors d n →
         Node.getPos n ∈ Node.getPos <$> Node.getNeighbors d nb).
Proof.
  split; [by destruct d|]. split; [done|]. split; [|split; [|split; [|split]]].
  - destruct d; simpl; unfold Node.getPos; simpl;
      repeat (apply NoDup_cons; split;
              [rewrite ?elem_of_cons, elem_of_nil; intros Hin;
               repeat (destruct Hin as [[=]|Hin]; [lia|]); done|]);
      apply NoDup_nil_2.
  - intros (nb & Hpos & Hnb)%list_elem_of_fmap.
    apply getNeighbors_spec in Hnb as (_ & _ & _ & Hne & _). congruence.
  - intros nb Hnb. apply getNeighbors_spec in Hnb as (? & ? & ? & _). done.
  - intros c. split.
    + intros (nb & -> & Hnb)%list_elem_of_fmap. by apply getNeighbors_moves.
    + apply moves_getNeighbors.
  - intros nb Hnb. apply moves_getNeighbors.
    apply getNeighbors_moves in Hnb. unfold one_move in *.
    destruct d; lia.
Qed.

Lemma HCost_move (E : Node.t) (d : bool) (n m : Node.t) :
  one_move d (Node.getPos n) (Node.getPos m) →
  HCost E d n ≤ 1 + HCost E d m.
Proof. unfold one_move, HCost, Node.getPos. simpl. destruct d; lia. Qed.

(** X2: the heuristic [HCost] is never negative, it is 0 exactly at the
    coordinates of the End node, it depends on the coordinates only, and
    it is consistent with the movement model in use: a move to a
    neighbor that [getNeighbors] returns lowers it by at most 1 (and
    raises it by at most 1). *)
Theorem HCost_consistent (E : Node.t) (d : bool) (n nb : Node.t) :
  nb ∈ Node.getNeighbors d n →
  0 ≤ HCost E d n ∧
  (HCost E d n = 0 ↔ Node.eqb n E = true) ∧
  (∀ m, Node.getPos m = Node.getPos n → HCost E d m = HCost E d n) ∧
  HCost E d n ≤ 1 + HCost E d nb ∧ HCost E d nb ≤ 1 + HCost E d n.
Proof.
  intros Hnb. apply getNeighbors_moves in Hnb.
  split; [unfold HCost; destruct d; lia|]. split; [|split; [|split]].
  - rewrite Node_eqb_true. unfold HCost, Node.getPos. split.
    + intros Hz. f_equal; destruct d; lia.
    + intros [= -> ->]. destruct d; lia.
  - intros m [= Hy Hx]. unfold HCost. by rewrite Hy, Hx.
  - by apply HCost_move.
  - apply HCost_move. unfold one_move in *. destruct d; lia.
Qed.

Lemma HCost_consistent_witness :
  let n := Node.init 3 3 None in
  let nb := Node.init 2 4 (Some n) in
  nb ∈ Node.getNeighbors true n ∧
  HCost (Node.init 1 7 None) true n ≤ 1 + HCost (Node.init 1 7 None) true nb.
Proof.
  intros n nb.
  assert (nb ∈ Node.getNeighbors true n) as Hnb.
  { unfold Node.getNeighbors. simpl. do 4 right. left. }
  split; [exact Hnb|].
  exact (proj1 (proj2 (proj2 (proj2 (HCost_consistent (Node.init 1 7 None) true n nb Hnb))))).
Defined.

(** X3: the heuristic is admissible for the movement model in use: it
    never exceeds the number of moves of a walk (walls or not) from the
    node to the coordinates of the End node. *)
Theorem HCost_admissible (E : Node.t) (d : bool) (n : Node.t) (p : list (Z * Z)) :
  is_walk d (Node.getPos n) p →
  last (Node.getPos n :: p) = Some (Node.getPos E) →
  HCost E d n ≤ Z.of_nat (length p).
Proof.
  revert n. induction p as [|c p IH]; intros n Hw Hl.
  - simpl in Hl. injection Hl as Hy Hx.
    assert (HCost E d n = 0) as ->; [|simpl; lia].
    unfold HCost. rewrite Hy, Hx. destruct d; lia.
  - destruct Hw as [Hm Hw]. destruct c as [y x].
    specialize (IH (Node.init y x None) Hw).
    rewrite last_cons_cons in Hl. specialize (IH Hl).
    pose proof (HCost_move E d n (Node.init y x None) Hm).
    simpl length. lia.
Qed.

Lemma HCost_admissible_witness :
  is_walk false (1, 1) [(1, 2); (2, 2); (2, 3)] ∧
  HCost (Node.init 2 3 None) false (Node.init 1 1 None) ≤ 3.
Proof.
  assert (is_walk false (Node.getPos (Node.init 1 1 None)) [(1, 2); (2, 2); (2, 3)])
    as Hw by (simpl; unfold one_move; simpl; lia).
  split; [exact Hw|].
  exact (HCost_admissible (Node.init 2 3 None) false (Node.init 1 1 None) _ Hw eq_refl).
Defined.

(** ** Pixels, tiles and the mouse *)

(** X4: [getCoordsFromPosition] maps a pixel to the tile (row, column)
    that contains it: the result is (y, x) exactly when the pixel lies in
    the square of side TILE_SIZE whose upper left corner is
    (x * TILE_SIZE, y * TILE_SIZE); this also holds left of and above
    the window, where the floor division yields negative coordinates. *)
Theorem getCoordsFromPosition_tile (xPos yPos y x : Z) :
  getCoordsFromPosition xPos yPos = (y, x) ↔
  y * TILE_SIZE ≤ yPos < (y + 1) * TILE_SIZE ∧
  x * TILE_SIZE ≤ xPos < (x + 1) * TILE_SIZE.
Proof.
  unfold getCoordsFromPosition, TILE_SIZE, DEFAULT_TILE_SIZE.
  pose proof (Z.div_mod yPos 20 ltac:(lia)).
  pose proof (Z.mod_pos_bound yPos 20 ltac:(lia)).
  pose proof (Z.div_mod xPos 20 ltac:(lia)).
  pose proof (Z.mod_pos_bound xPos 20 ltac:(lia)).
  split.
  - intros [= <- <-]. lia.
  - intros [Hy Hx]. f_equal; nia.
Qed.

Lemma painted_cases c v :
  painted c v = v ∨ ((v = 0 ∨ v = 1) ∧ (painted c v = 0 ∨ painted c v = 1)).
Proof.
  unfold painted.
  destruct (Z.eqb_spec v 0), (Z.eqb_spec v 1); simpl; try tauto;
    destruct (c =? 1), (c =? 3); tauto.
Qed.

Lemma mouseHandler_cells (W H : Z) (st : state) (xPos yPos c : Z) :
  valid W H st = true →
  ∃ st', mouseHandler W H xPos yPos c st = Return st' ∧
    START st' = START st ∧ END st' = END st ∧ ALGORITHM st' = ALGORITHM st ∧
    DIAGONAL st' = DIAGONAL st ∧ open st' = open st ∧ closed st' = closed st ∧
    searching st' = searching st ∧
    ∀ y x, in_range W H y x →
      get_tile (GRID st') y x =
        (v ← get_tile (GRID st) y x;
         Return (if bool_decide ((y, x) = getCoordsFromPosition xPos yPos) &&
                    inGrid W H x y
                 then painted c v else v)).
Proof.
  intros HV. apply valid_spec in HV. pose proof (v_dims _ _ _ HV) as Hd.
  unfold mouseHandler.
  destruct (getCoordsFromPosition xPos yPos) as [y0 x0].
  assert (∀ st', (∀ y x, in_range W H y x →
            cell (GRID st') y x =
              if bool_decide ((y, x) = (y0, x0)) && inGrid W H x y
              then painted c (cell (GRID st) y x) else cell (GRID st) y x) →
          grid_dims W H (GRID st') →
          ∀ y x, in_range W H y x →
            get_tile (GRID st') y x =
              (v ← get_tile (GRID st) y x;
               Return (if bool_decide ((y, x) = (y0, x0)) && inGrid W H x y
                       then painted c v else v))) as Hget.
  { intros st' Hc Hd' y x Hr. rewrite !(get_tile_cell W H) by done. simpl.
    by rewrite Hc. }
  assert (∀ y x, in_range W H y x → painted c (cell (GRID st) y0 x0) = cell (GRID st) y0 x0 →
            cell (GRID st) y x =
              if bool_decide ((y, x) = (y0, x0)) && inGrid W H x y
              then painted c (cell (GRID st) y x) else cell (GRID st) y x) as Hsame.
  { intros y x Hr Hp. destruct (bool_decide_reflect ((y, x) = (y0, x0))) as [[= -> ->]|];
      [|done]. simpl. by destruct (inGrid W H x0 y0). }
  destruct (inGrid W H x0 y0) eqn:Hi.
  2:{ exists st. repeat (split; [done|]). apply Hget; [|done].
      intros y x Hr. destruct (bool_decide_reflect ((y, x) = (y0, x0))) as [[= -> ->]|];
        [|done]. simpl. by rewrite Hi. }
  apply inGrid_interior in Hi as Hint.
  rewrite (get_tile_cell W H) by (done || by apply interior_in_range). simpl.
  assert (∀ v, (∃ g, set_tile (GRID st) y0 x0 v = Return g ∧
                     Valid W H (set_GRID g st) ∧
                     ∀ y x, in_range W H y x →
                       cell g y x = if bool_decide ((y, x) = (y0, x0)) then v
                                    else cell (GRID st) y x)) as Hpaint.
  { intros v.
    destruct (grid_ok_set W H (GRID st) y0 x0 v (Valid_grid_ok _ _ _ HV) Hint)
      as (g & Hset & Hg & Hc).
    exists g. split; [done|]. split.
    - destruct HV. by apply Valid_intro.
    - intros y x Hr. rewrite Hc by (unfold in_range in Hr; lia).
      destruct (decide (y = y0 ∧ x = x0)) as [[-> ->]|Hne].
      + by rewrite bool_decide_eq_true_2.
      + rewrite bool_decide_eq_false_2; [done|]. intros [= -> ->]. tauto. }
  assert (∀ v g, (∀ y x, in_range W H y x →
             cell g y x = if bool_decide ((y, x) = (y0, x0)) then v
                          else cell (GRID st) y x) →
           painted c (cell (GRID st) y0 x0) = v →
           ∀ y x, in_range W H y x →
             cell g y x =
               if bool_decide ((y, x) = (y0, x0)) && inGrid W H x y
               then painted c (cell (GRID st) y x) else cell (GRID st) y x) as Hfin.
  { intros v g Hc Hvv y x Hr. rewrite Hc by done.
    destruct (bool_decide_reflect ((y, x) = (y0, x0))) as [[= -> ->]|]; [|done].
    simpl. apply inGrid_interior in Hint. by rewrite Hint, Hvv. }
  destruct ((cell (GRID st) y0 x0 =? 0) || (cell (GRID st) y0 x0 =? 1)) eqn:Hv.
  2:{ exists st. repeat (split; [done|]). apply Hget; [|done].
      intros y x Hr. apply Hsame; [done|]. unfold painted. by rewrite Hv. }
  destruct (c =? 1) eqn:Hc1.
  { destruct (Hpaint 1) as (g & -> & HVg & Hcg). simpl.
    eexists. split; [done|]. repeat (split; [done|]).
    apply Hget; [|apply HVg]. simpl.
    eapply Hfin; [exact Hcg|]. unfold painted. by rewrite Hv, Hc1. }
  destruct (c =? 3) eqn:Hc3.
  { destruct (Hpaint 0) as (g & -> & HVg & Hcg). simpl.
    eexists. split; [done|]. repeat (split; [done|]).
    apply Hget; [|apply HVg]. simpl.
    eapply Hfin; [exact Hcg|]. unfold painted. by rewrite Hv, Hc1, Hc3. }
  exists st. repeat (split; [done|]). apply Hget; [|done].
  intros y x Hr. apply Hsame; [done|]. unfold painted. by rewrite Hv, Hc1, Hc3.
Qed.

(** X5: in a valid state [mouseHandler] raises no exception, whatever
    the position of the pointer and the button, and whether a search is
    running or not; it leaves every global other than the matrix alone,
    and in the matrix it changes at most the tile under the pointer, and
    that only when the tile lies inside the border and is Path or Wall:
    the left button makes it Wall, the right button Path, any other
    button changes nothing.  The Start and End tiles and the tiles that a
    search has marked are never painted. *)
Theorem mouseHandler_paints (W H : Z) (st : state) (xPos yPos c : Z) :
  valid W H st = true →
  ∃ st', mouseHandler W H xPos yPos c st = Return st' ∧
    START st' = START st ∧ END st' = END st ∧ ALGORITHM st' = ALGORITHM st ∧
    DIAGONAL st' = DIAGONAL st ∧ open st' = open st ∧ closed st' = closed st ∧
    searching st' = searching st ∧
    ∀ y x, in_range W H y x →
      get_tile (GRID st') y x =
        (v ← get_tile (GRID st) y x;
         Return (if bool_decide ((y, x) = getCoordsFromPosition xPos yPos) &&
                    inGrid W H x y
                 then painted c v else v)).
Proof. apply mouseHandler_cells. Qed.

Lemma mouseHandler_paints_witness :
  valid 6 6 (example_state ALG_AStar true) = true ∧
  ∃ st', mouseHandler 6 6 70 50 1 (example_state ALG_AStar true) = Return st' ∧
         get_tile (GRID st') 2 3 = Return Wall ∧
         get_tile (GRID st') 1 1 = Return Start.
Proof.
  assert (valid 6 6 (example_state ALG_AStar true) = true) as HV
    by (vm_compute; reflexivity).
  split; [exact HV|].
  destruct (mouseHandler_paints 6 6 (example_state ALG_AStar true) 70 50 1 HV)
    as (st' & Hm & _ & _ & _ & _ & _ & _ & _ & Hc).
  exists st'. split; [exact Hm|]. split.
  - rewrite Hc by (unfold in_range; lia). reflexivity.
  - rewrite Hc by (unfold in_range; lia). reflexivity.
Defined.

(** ** Clear, reset and begin search *)

Lemma cell_lookup W H (g : grid) y x :
  grid_dims W H g → in_range W H y x →
  ∃ row, g !! Z.to_nat y = Some row ∧ length row = Z.to_nat W ∧
         row !! Z.to_nat x = Some (cell g y x).
Proof.
  intros Hd [Hy Hx]. destruct (grid_row W H g y Hd Hy) as (row & Hrow & Hlen).
  exists row. split; [done|]. split; [done|].
  destruct (lookup_lt_is_Some_2 row (Z.to_nat x)) as [v Hv]; [lia|].
  unfold cell. rewrite Hrow. simpl. by rewrite Hv.
Qed.

(** Two matrices of the same dimensions with the same tiles are equal. *)
Lemma grid_ext W H (g g' : grid) :
  grid_dims W H g → grid_dims W H g' →
  (∀ y x, in_range W H y x → cell g y x = cell g' y x) → g = g'.
Proof.
  intros Hd Hd' Hc. apply list_eq. intros i.
  destruct (decide (i < Z.to_nat H)%nat) as [Hi|Hi].
  2:{ rewrite !lookup_ge_None_2; [done | destruct Hd'; lia | destruct Hd; lia]. }
  destruct (grid_row W H g (Z.of_nat i) Hd) as (r & Hr & Hlr); [lia|].
  destruct (grid_row W H g' (Z.of_nat i) Hd') as (r' & Hr' & Hlr'); [lia|].
  rewrite Nat2Z.id in Hr, Hr'. rewrite Hr, Hr'. f_equal.
  apply list_eq. intros j.
  destruct (decide (j < Z.to_nat W)%nat) as [Hj|Hj].
  2:{ rewrite !lookup_ge_None_2; [done | lia | lia]. }
  assert (in_range W H (Z.of_nat i) (Z.of_nat j)) as Hin by (unfold in_range; lia).
  destruct (cell_lookup W H g _ _ Hd Hin) as (r1 & Hr1 & _ & Hc1).
  destruct (cell_lookup W H g' _ _ Hd' Hin) as (r2 & Hr2 & _ & Hc2).
  rewrite Nat2Z.id in Hr1, Hr2, Hc1, Hc2.
  rewrite Hr in Hr1. injection Hr1 as <-. rewrite Hr' in Hr2. injection Hr2 as <-.
  rewrite Hc1, Hc2. f_equal. by apply Hc.
Qed.

Lemma state_eq (st st' : state) :
  GRID st = GRID st' → START st = START st' → END st = END st' →
  ALGORITHM st = ALGORITHM st' → DIAGONAL st = DIAGONAL st' →
  open st = open st' → closed st = closed st' → searching st = searching st' →
  st = st'.
Proof. destruct st, st'. simpl. by intros -> -> -> -> -> -> -> ->. Qed.

Lemma clear_cells (W H : Z) (st : state) :
  valid W H st = true →
  ∃ st', clear W H st = Return st' ∧ valid W H st' = true ∧
    START st' = START st ∧ END st' = END st ∧ ALGORITHM st' = ALGORITHM st ∧
    DIAGONAL st' = DIAGONAL st ∧ open st' = open st ∧ closed st' = closed st ∧
    searching st' = false ∧
    ∀ y x, in_range W H y x →
      get_tile (GRID st') y x =
        Return (if bool_decide ((y, x) = Node.getPos (END st)) then End_tile
                else if bool_decide ((y, x) = Node.getPos (START st)) then Start
                else if inGrid W H x y then Open_tile else Wall).
Proof.
  intros HV. apply valid_spec in HV. pose proof (Valid_grid_ok _ _ _ HV) as Hg.
  pose proof HV as [Hd Hb Hs He Ho Hc Hr].
  destruct (grid_ok_for_interior W H (λ g y x, set_tile g y x 0) (λ _, 0) (GRID st)
              (λ _, eq_refl) (clear_body W H) Hg) as (g & Hfor & Hg1 & Hc1).
  destruct (mark_ends W H g (START st) (END st) Hg1 Hs He) as (g2 & Hm & Hg2 & Hc2).
  eexists. split.
  { unfold clear. rewrite Hfor. simpl.
    apply bind_Return in Hm as (g1 & Hm1 & Hm2). rewrite Hm1. simpl.
    rewrite Hm2. simpl. reflexivity. }
  simpl. split.
  { apply valid_spec. by apply Valid_intro. }
  repeat (split; [done|]).
  intros y x Hyx. rewrite (get_tile_cell W H) by (apply Hg2 || done). f_equal.
  rewrite Hc2 by (unfold in_range in Hyx; lia). unfold Node.getPos.
  destruct (decide (y = Node.y (END st) ∧ x = Node.x (END st))) as [[-> ->]|Hne].
  { by rewrite bool_decide_eq_true_2. }
  rewrite bool_decide_eq_false_2 by (intros [= -> ->]; tauto).
  destruct (decide (y = Node.y (START st) ∧ x = Node.x (START st))) as [[-> ->]|Hns].
  { by rewrite bool_decide_eq_true_2. }
  rewrite bool_decide_eq_false_2 by (intros [= -> ->]; tauto).
  destruct (Hc1 y x) as [Hin Hout]; [unfold in_range in Hyx; lia..|].
  destruct (inGrid W H x y) eqn:Hi.
  - by apply Hin, inGrid_interior.
  - assert (¬ interior W H y x) as Hni by (rewrite <- inGrid_interior; congruence).
    rewrite Hout by done. by apply Hb.
Qed.

(** X6: in a valid state [clear] raises no exception; afterwards every
    tile inside the border is Path, except the Start and the End tile,
    which are marked again, and the border is Wall; [searching] is
    false.  The open and the closed list are left as they were (only
    [start] and [reset] seed them again). *)
Theorem clear_result (W H : Z) (st : state) :
  valid W H st = true →
  ∃ st', clear W H st = Return st' ∧ valid W H st' = true ∧
    START st' = START st ∧ END st' = END st ∧ ALGORITHM st' = ALGORITHM st ∧
    DIAGONAL st' = DIAGONAL st ∧ open st' = open st ∧ closed st' = closed st ∧
    searching st' = false ∧
    ∀ y x, in_range W H y x →
      get_tile (GRID st') y x =
        Return (if bool_decide ((y, x) = Node.getPos (END st)) then End_tile
                else if bool_decide ((y, x) = Node.getPos (START st)) then Start
                else if inGrid W H x y then Open_tile else Wall).
Proof. apply clear_cells. Qed.

Lemma clear_result_witness :
  valid 6 6 (example_after 11) = true ∧
  ∃ st', clear 6 6 (example_after 11) = Return st' ∧
         get_tile (GRID st') 2 2 = Return Open_tile ∧
         get_tile (GRID st') 4 4 = Return End_tile ∧
         closed st' = closed (example_after 11).
Proof.
  assert (valid 6 6 (example_after 11) = true) as HV by (vm_compute; reflexivity).
  split; [exact HV|].
  destruct (clear_result 6 6 (example_after 11) HV)
    as (st' & Hcl & _ & _ & _ & _ & _ & _ & Hclosed & _ & Hc).
  exists st'. split; [exact Hcl|]. split; [|split; [|exact Hclosed]].
  - rewrite Hc by (unfold in_range; lia). reflexivity.
  - rewrite Hc by (unfold in_range; lia). reflexivity.
Defined.

(** X7: in a valid state [start] raises no exception: it seeds the open
    list with the Start node, empties the closed list, sets [searching],
    turns the tiles that a search has marked (Frontier, Visited,
    FinalPath) inside the border into Path, marks the Start and the End
    tile again and changes no other tile, so walls stay.  [reset] does
    the same and leaves [searching] false.  A second [start] changes
    nothing. *)
Theorem start_reseeds (W H : Z) (st : state) :
  valid W H st = true →
  ∃ st', start W H st = Return st' ∧ valid W H st' = true ∧
    reset W H st = Return (set_searching false st') ∧
    start W H st' = Return st' ∧
    open st' = [START st] ∧ closed st' = [] ∧ searching st' = true ∧
    START st' = START st ∧ END st' = END st ∧ ALGORITHM st' = ALGORITHM st ∧
    DIAGONAL st' = DIAGONAL st ∧
    ∀ y x, in_range W H y x →
      get_tile (GRID st') y x =
        (v ← get_tile (GRID st) y x;
         Return (if bool_decide ((y, x) = Node.getPos (END st)) then End_tile
                 else if bool_decide ((y, x) = Node.getPos (START st)) then Start
                 else if inGrid W H x y then erased v else v)).
Proof.
  intros HV. apply valid_spec in HV.
  destruct (start_spec W H st HV)
    as (st' & Hst & HV' & _ & Hop & Hcl & HS & HE & HA & HD & Hse & Hc).
  exists st'. split; [done|]. split; [by apply valid_spec|].
  split; [by rewrite reset_start, Hst|].
  assert (∀ y x, 0 ≤ y → 0 ≤ x →
    (if decide (y = Node.y (END st) ∧ x = Node.x (END st)) then 3
     else if decide (y = Node.y (START st) ∧ x = Node.x (START st)) then 2
     else if inGrid W H x y then erased (cell (GRID st) y x) else cell (GRID st) y x)
    = (if bool_decide ((y, x) = Node.getPos (END st)) then End_tile
       else if bool_decide ((y, x) = Node.getPos (START st)) then Start
       else if inGrid W H x y then erased (cell (GRID st) y x)
       else cell (GRID st) y x)) as Hform.
  { intros y x _ _. unfold Node.getPos.
    destruct (decide (y = Node.y (END st) ∧ x = Node.x (END st))) as [[-> ->]|Hne].
    { by rewrite bool_decide_eq_true_2. }
    rewrite bool_decide_eq_false_2 by (intros [= -> ->]; tauto).
    destruct (decide (y = Node.y (START st) ∧ x = Node.x (START st))) as [[-> ->]|Hns].
    { by rewrite bool_decide_eq_true_2. }
    by rewrite bool_decide_eq_false_2 by (intros [= -> ->]; tauto). }
  split.
  { destruct (start_spec W H st' HV')
      as (st2 & Hst2 & HV2 & _ & Hop2 & Hcl2 & HS2 & HE2 & HA2 & HD2 & Hse2 & Hc2).
    rewrite Hst2. f_equal. apply state_eq; try congruence.
    apply (grid_ext W H); [apply HV2 | apply HV'|].
    intros y x [Hy Hx]. rewrite Hc2, Hc by lia. rewrite HS, HE.
    repeat (destruct (decide _); [done|]).
    destruct (inGrid W H x y); [apply erased_idem | done]. }
  repeat (split; [done|]).
  intros y x Hyx. rewrite !(get_tile_cell W H) by (apply HV' || apply HV || done).
  simpl. f_equal. rewrite Hc by (unfold in_range in Hyx; lia).
  apply Hform; unfold in_range in Hyx; lia.
Qed.

Lemma start_reseeds_witness :
  valid 6 6 (example_after 11) = true ∧
  ∃ st', start 6 6 (example_after 11) = Return st' ∧
         start 6 6 st' = Return st' ∧
         get_tile (GRID st') 1 2 = Return Open_tile ∧
         get_tile (GRID st') 2 2 = Return Wall.
Proof.
  assert (valid 6 6 (example_after 11) = true) as HV by (vm_compute; reflexivity).
  split; [exact HV|].
  destruct (start_reseeds 6 6 (example_after 11) HV)
    as (st' & Hst & _ & _ & Hagain & _ & _ & _ & _ & _ & _ & _ & Hc).
  exists st'. split; [exact Hst|]. split; [exact Hagain|]. split.
  - rewrite Hc by (unfold in_range; lia). reflexivity.
  - rewrite Hc by (unfold in_range; lia). reflexivity.
Defined.

(** ** The set-up of [main] *)

Lemma cell_replicate W H y x :
  in_range W H y x →
  cell (replicate (Z.to_nat H) (replicate (Z.to_nat W) 0)) y x = 0.
Proof.
  intros [Hy Hx]. unfold cell.
  rewrite lookup_replicate_2 by lia. simpl. by rewrite lookup_replicate_2 by lia.
Qed.

Lemma main_setup_cells (W H : Z) :
  3 ≤ W → 3 ≤ H →
  ∃ st0, main_setup W H = Return st0 ∧ valid W H st0 = true ∧
    START st0 = Node.init 1 1 None ∧ END st0 = Node.init (H - 2) (W - 2) None ∧
    ALGORITHM st0 = ALG_AStar ∧ DIAGONAL st0 = true ∧ searching st0 = false ∧
    open st0 = [] ∧ closed st0 = [] ∧
    (Node.eqb (START st0) (END st0) = true ↔ W = 3 ∧ H = 3) ∧
    ∀ y x, in_range W H y x →
      get_tile (GRID st0) y x =
        Return (if bool_decide ((y, x) = (H - 2, W - 2)) then End_tile
                else if bool_decide ((y, x) = (1, 1)) then Start
                else if inGrid W H x y then Open_tile else Wall).
Proof.
  intros HW HH. unfold main_setup.
  set (g0 := replicate (Z.to_nat H) (replicate (Z.to_nat W) 0)).
  assert (grid_dims W H g0) as Hd0.
  { split; [apply length_replicate|].
    intros row [-> _]%elem_of_replicate. apply length_replicate. }
  destruct (for_each_cells (grid_dims W H) (λ x, 0 ≤ x < W)
    (λ g x, g1 ← set_tile g 0 x 1; set_tile g1 (H - 1) x 1)
    (λ x y' x', bool_decide (x' = x) && bool_decide (y' = 0 ∨ y' = H - 1))
    (λ _, 1) (range W) g0) as (g1 & Hg1 & Hd1 & Hc1); [done| | |done|].
  { intros g x Hd Hx.
    destruct (set_tile_cell W H g 0 x 1 Hd) as (ga & Hsa & Hda & Hca);
      [unfold in_range; lia|].
    destruct (set_tile_cell W H ga (H - 1) x 1 Hda) as (gb & Hsb & Hdb & Hcb);
      [unfold in_range; lia|].
    exists gb. rewrite Hsa. simpl. split; [done|]. split; [done|].
    intros y' x' Hy' Hx'. rewrite Hcb, Hca by done.
    destruct (bool_decide_reflect (x' = x)), (bool_decide_reflect (y' = 0 ∨ y' = H - 1));
      simpl; repeat destruct (decide _); try done; lia. }
  { intros x Hx. by apply elem_of_range in Hx. }
  rewrite Hg1. simpl.
  destruct (for_each_cells (grid_dims W H) (λ y, 0 ≤ y < H)
    (λ g y, g1 ← set_tile g y 0 1; set_tile g1 y (W - 1) 1)
    (λ y y' x', bool_decide (y' = y) && bool_decide (x' = 0 ∨ x' = W - 1))
    (λ _, 1) (range H) g1) as (g2 & Hg2 & Hd2 & Hc2); [done| | |done|].
  { intros g y Hd Hy.
    destruct (set_tile_cell W H g y 0 1 Hd) as (ga & Hsa & Hda & Hca);
      [unfold in_range; lia|].
    destruct (set_tile_cell W H ga y (W - 1) 1 Hda) as (gb & Hsb & Hdb & Hcb);
      [unfold in_range; lia|].
    exists gb. rewrite Hsa. simpl. split; [done|]. split; [done|].
    intros y' x' Hy' Hx'. rewrite Hcb, Hca by done.
    destruct (bool_decide_reflect (y' = y)), (bool_decide_reflect (x' = 0 ∨ x' = W - 1));
      simpl; repeat destruct (decide _); try done; lia. }
  { intros y Hy. by apply elem_of_range in Hy. }
  rewrite Hg2. simpl. cbv beta in Hc1, Hc2.
  assert (∀ y x, in_range W H y x →
            cell g2 y x = if inGrid W H x y then 0 else 1) as Hcell2.
  { intros y x Hr. pose proof Hr as [Hy Hx].
    rewrite Hc2, Hc1 by lia. rewrite (cell_replicate W H) by done.
    destruct (inGrid W H x y) eqn:Hi.
    - apply inGrid_interior in Hi. unfold interior in Hi.
      assert (existsb (λ k, bool_decide (y = k) && bool_decide (x = 0 ∨ x = W - 1))
                (range H) = false) as ->.
      { apply not_true_iff_false. intros (k & _ & [_ Hk]%andb_true_iff)%existsb_elem_of.
        apply bool_decide_eq_true in Hk. lia. }
      assert (existsb (λ k, bool_decide (x = k) && bool_decide (y = 0 ∨ y = H - 1))
                (range W) = false) as ->; [|done].
      apply not_true_iff_false. intros (k & _ & [_ Hk]%andb_true_iff)%existsb_elem_of.
      apply bool_decide_eq_true in Hk. lia.
    - assert (¬ interior W H y x) as Hni by (rewrite <- inGrid_interior; congruence).
      unfold interior in Hni.
      destruct (existsb _ (range H)) eqn:He2; [done|].
      destruct (existsb _ (range W)) eqn:He1; [done|]. exfalso.
      assert (y = 0 ∨ y = H - 1 ∨ x = 0 ∨ x = W - 1) as Hcases by lia.
      destruct (decide (y = 0 ∨ y = H - 1)) as [Hyb|Hyb].
      + assert (existsb (λ k, bool_decide (x = k) && bool_decide (y = 0 ∨ y = H - 1))
                  (range W) = true) as He; [|congruence].
        apply existsb_elem_of. exists x. split; [apply elem_of_range; lia|].
        by rewrite !bool_decide_eq_true_2.
      + assert (existsb (λ k, bool_decide (y = k) && bool_decide (x = 0 ∨ x = W - 1))
                  (range H) = true) as He; [|congruence].
        apply existsb_elem_of. exists y. split; [apply elem_of_range; lia|].
        rewrite !bool_decide_eq_true_2; [done | lia | done]. }
  destruct (set_tile_cell W H g2 1 1 2 Hd2) as (g3 & Hs3 & Hd3 & Hc3);
    [unfold in_range; lia|].
  destruct (set_tile_cell W H g3 (H - 2) (W - 2) 3 Hd3) as (g4 & Hs4 & Hd4 & Hc4);
    [unfold in_range; lia|].
  unfold setStart, setEnd. simpl. rewrite Hs3. simpl. rewrite Hs4. simpl.
  assert (∀ y x, in_range W H y x →
            cell g4 y x = if bool_decide ((y, x) = (H - 2, W - 2)) then End_tile
                          else if bool_decide ((y, x) = (1, 1)) then Start
                          else if inGrid W H x y then Open_tile else Wall) as Hcell4.
  { intros y x Hr. pose proof Hr as [Hy Hx]. rewrite Hc4, Hc3 by lia.
    destruct (decide (y = H - 2 ∧ x = W - 2)) as [[-> ->]|Hne].
    { by rewrite bool_decide_eq_true_2. }
    rewrite bool_decide_eq_false_2 by (intros [= -> ->]; tauto).
    destruct (decide (y = 1 ∧ x = 1)) as [[-> ->]|Hns].
    { by rewrite bool_decide_eq_true_2. }
    rewrite bool_decide_eq_false_2 by (intros [= -> ->]; tauto).
    by apply Hcell2. }
  eexists. split; [done|]. simpl. split.
  { apply valid_spec, Valid_intro; simpl; try done.
    - split; [done|]. intros y x Hr Hni. rewrite Hcell4 by done.
      unfold interior in Hni.
      rewrite bool_decide_eq_false_2 by (intros [= -> ->]; lia).
      rewrite bool_decide_eq_false_2 by (intros [= -> ->]; lia).
      destruct (inGrid W H x y) eqn:Hi; [|done].
      apply inGrid_interior in Hi. unfold interior in Hi. lia.
    - unfold node_interior, interior. simpl. lia.
    - unfold node_interior, interior. simpl. lia.
    - intros n Hn. inversion Hn.
    - intros n Hn. inversion Hn. }
  repeat (split; [done|]). split.
  { rewrite Node_eqb_true. unfold Node.getPos. simpl. split.
    - intros [= ? ?]. lia.
    - intros [-> ->]. done. }
  intros y x Hr. rewrite (get_tile_cell W H) by done. f_equal. by apply Hcell4.
Qed.

(** X8: for a matrix of at least 3 x 3 tiles the set-up of [main] raises
    no exception and yields a valid state: the border is Wall, the tile
    in row 1, column 1 is Start, the tile in row H-2, column W-2 is End
    (it wins when both are the same tile, which happens for 3 x 3 only),
    every other tile is Path; A* with diagonal movement is selected, no
    search is running and both lists are empty. *)
Theorem main_setup_result (W H : Z) :
  3 ≤ W → 3 ≤ H →
  ∃ st0, main_setup W H = Return st0 ∧ valid W H st0 = true ∧
    START st0 = Node.init 1 1 None ∧ END st0 = Node.init (H - 2) (W - 2) None ∧
    ALGORITHM st0 = ALG_AStar ∧ DIAGONAL st0 = true ∧ searching st0 = false ∧
    open st0 = [] ∧ closed st0 = [] ∧
    (Node.eqb (START st0) (END st0) = true ↔ W = 3 ∧ H = 3) ∧
    ∀ y x, in_range W H y x →
      get_tile (GRID st0) y x =
        Return (if bool_decide ((y, x) = (H - 2, W - 2)) then End_tile
                else if bool_decide ((y, x) = (1, 1)) then Start
                else if inGrid W H x y then Open_tile else Wall).
Proof. apply main_setup_cells. Qed.

Lemma main_setup_result_witness :
  ∃ st0, main_setup 6 6 = Return st0 ∧
         get_tile (GRID st0) 4 4 = Return End_tile ∧
         get_tile (GRID st0) 0 3 = Return Wall.
Proof.
  destruct (main_setup_result 6 6 ltac:(lia) ltac:(lia))
    as (st0 & Hm & _ & _ & _ & _ & _ & _ & _ & _ & _ & Hc).
  exists st0. split; [exact Hm|]. split.
  - rewrite Hc by (unfold in_range; lia). reflexivity.
  - rewrite Hc by (unfold in_range; lia). reflexivity.
Defined.

(** ** What no operation does *)

Lemma ends_only_spec W H st :
  grid_dims W H (GRID st) →
  ends_only W H st = true ↔ EndsOnly W H (GRID st) (START st) (END st).
Proof.
  intros Hd. unfold ends_only, EndsOnly, Start, End_tile.
  rewrite forallb_elem_of. split.
  - intros Hall y x Hr. pose proof Hr as [Hy Hx].
    specialize (Hall y (proj2 (elem_of_range H y) Hy)).
    rewrite forallb_elem_of in Hall.
    specialize (Hall x (proj2 (elem_of_range W x) Hx)).
    apply andb_true_iff in Hall as [H2 H3]. split; intros Hc.
    + apply (tile_is_cell W H _ _ _ _ Hd Hr) in Hc. rewrite Hc in H2.
      by apply bool_decide_eq_true in H2.
    + apply (tile_is_cell W H _ _ _ _ Hd Hr) in Hc. rewrite Hc in H3.
      by apply bool_decide_eq_true in H3.
  - intros Hall y Hy. apply elem_of_range in Hy. apply forallb_elem_of.
    intros x Hx. apply elem_of_range in Hx.
    assert (in_range W H y x) as Hr by done.
    destruct (Hall y x Hr) as [H2 H3]. apply andb_true_iff. split.
    + destruct (tile_is (GRID st) y x 2) eqn:Ht; [|done]. simpl.
      apply bool_decide_eq_true, H2. by apply (tile_is_cell W H).
    + destruct (tile_is (GRID st) y x 3) eqn:Ht; [|done]. simpl.
      apply bool_decide_eq_true, H3. by apply (tile_is_cell W H).
Qed.

Lemma EndsOnly_writes W H g g' S E :
  EndsOnly W H g S E →
  (∀ y x, in_range W H y x →
          cell g' y x = cell g y x ∨ (cell g' y x ≠ 2 ∧ cell g' y x ≠ 3)) →
  EndsOnly W H g' S E.
Proof.
  intros He Hw y x Hr. destruct (He y x Hr) as [H2 H3].
  destruct (Hw y x Hr) as [->|[? ?]]; [done|]. split; intros; done.
Qed.

Lemma EndsOnly_mark W H g g2 S E :
  EndsOnly W H g S E →
  (∀ y x, in_range W H y x →
     cell g2 y x = if decide (y = Node.y E ∧ x = Node.x E) then 3
                   else if decide (y = Node.y S ∧ x = Node.x S) then 2
                   else cell g y x) →
  EndsOnly W H g2 S E.
Proof.
  intros He Hc y x Hr. rewrite Hc by done. unfold Node.getPos.
  destruct (decide _) as [[-> ->]|]; [by split|].
  destruct (decide _) as [[-> ->]|]; [by split|]. by apply He.
Qed.

(** The tiles that a step leaves are the old ones, Frontier or Visited. *)
Lemma step_cells W H a st st' r :
  Valid W H st → step a st = Return (st', r) →
  ∀ y x, in_range W H y x →
    cell (GRID st') y x = cell (GRID st) y x ∨
    cell (GRID st') y x = 4 ∨ cell (GRID st') y x = 5.
Proof.
  intros HV Hs y x Hr. destruct (taken a st) as [curr|] eqn:Ht.
  - apply taken_step in Ht as (_ & visit & rest & Hx & Hperm & Hvok).
    rewrite Hx in Hs.
    destruct (expand_tiles W H visit curr rest st st' r (Hvok W H)
                (Valid_base _ _ _ HV) Hperm Hs) as (Hcell & _).
    rewrite Hcell by (unfold in_range in Hr; lia).
    destruct (newly _ _ _ _); [auto|]. destruct (decide _); auto.
  - apply taken_None in Ht.
    assert (step a st = Return (st, Some false)) as Hf.
    { destruct a; simpl; unfold DFS, BFS, Greedy, AStar; by rewrite Ht. }
    rewrite Hf in Hs. injection Hs as <- <-. by left.
Qed.

Lemma reconstruct_loop_cells W H fuel (cl : list Node.t) g curr parent g' :
  grid_dims W H g → (∀ n, n ∈ cl → node_interior W H n) → node_interior W H curr →
  reconstruct_loop fuel cl g curr parent = Some (Return g') →
  grid_dims W H g' ∧
  ∀ y x, in_range W H y x → cell g' y x = cell g y x ∨ cell g' y x = 6.
Proof.
  intros Hd Hcl. revert g curr parent Hd.
  induction fuel as [|fuel IH]; intros g curr parent Hd Hcurr Hloop;
    destruct parent as [p|]; simpl in Hloop; try congruence.
  { injection Hloop as <-. auto. }
  2:{ injection Hloop as <-. auto. }
  destruct (set_tile_cell W H g _ _ 6 Hd (interior_in_range _ _ _ _ Hcurr))
    as (g1 & Hset & Hd1 & Hc1).
  rewrite Hset in Hloop.
  assert (∀ c pr, node_interior W H c →
            reconstruct_loop fuel cl g1 c pr = Some (Return g') →
            grid_dims W H g' ∧
            ∀ y x, in_range W H y x → cell g' y x = cell g y x ∨ cell g' y x = 6)
    as Hnext.
  { intros c pr Hc Hl. destruct (IH g1 c pr Hd1 Hc Hl) as [Hd' Hc'].
    split; [done|]. intros y x Hr. destruct (Hc' y x Hr) as [->|]; [|auto].
    rewrite Hc1 by (unfold in_range in Hr; lia). destruct (decide _); auto. }
  destruct (find _ cl) as [node|] eqn:Hfind.
  - apply find_some in Hfind as [Hin _]. apply list_elem_of_In in Hin.
    eapply Hnext; [|exact Hloop]. by apply Hcl.
  - eapply Hnext; [|exact Hloop]. done.
Qed.

Lemma reconstructPath_cells W H fuel st st' :
  Valid W H st → reconstructPath fuel st = Some (Return st') →
  same_globals st st' ∧ open st' = open st ∧
  ∃ g, grid_dims W H g ∧
    (∀ y x, in_range W H y x → cell g y x = cell (GRID st) y x ∨ cell g y x = 6) ∧
    (∀ y x, in_range W H y x →
       cell (GRID st') y x =
         if decide (y = Node.y (END st) ∧ x = Node.x (END st)) then 3
         else if decide (y = Node.y (START st) ∧ x = Node.x (START st)) then 2
         else cell g y x).
Proof.
  intros HV Hrec. destruct HV as [Hd Hb Hs He Ho Hc Hr].
  unfold reconstructPath in Hrec.
  destruct (rev (closed st)) as [|curr r] eqn:Hrev; [done|].
  assert (closed st = rev r ++ [curr]) as Hcl.
  { by rewrite <- (rev_involutive (closed st)), Hrev. }
  destruct (reconstruct_loop _ _ _ _ _) as [[g|]|] eqn:Hloop; try done.
  apply reconstruct_loop_cells with (W := W) (H := H) in Hloop as [Hdg Hcg];
    [|done| |].
  2:{ intros n Hn. apply Hc. rewrite Hcl. apply elem_of_app. by left. }
  2:{ apply Hc. rewrite Hcl. apply elem_of_app. right. by left. }
  destruct (mark_ends_cells W H g (START st) (END st) Hdg Hs He) as (g2 & Hm & Hd2 & Hc2).
  apply bind_Return in Hm as (g1 & Hm1 & Hm2).
  rewrite Hm1 in Hrec. simpl in Hrec. rewrite Hm2 in Hrec. simpl in Hrec.
  injection Hrec as <-. simpl. split; [by repeat split|]. split; [done|].
  exists g. split; [done|]. split; [done|].
  intros y x Hyx. apply Hc2; unfold in_range in Hyx; lia.
Qed.

Lemma start_frame W H st st' :
  Valid W H st → start W H st = Return st' →
  keeps_settings st st' ∧ ends_kept W H st st'.
Proof.
  intros HV Hst.
  destruct (start_spec W H st HV)
    as (st1 & Hst1 & _ & _ & _ & _ & HS & HE & HA & HD & _ & Hc).
  rewrite Hst in Hst1. injection Hst1 as <-.
  split; [by repeat split|]. intros Hends. rewrite HS, HE.
  intros y x Hr. rewrite Hc by (unfold in_range in Hr; lia). unfold Node.getPos.
  destruct (decide _) as [[-> ->]|]; [by split|].
  destruct (decide _) as [[-> ->]|]; [by split|].
  destruct (Hends y x Hr) as [H2 H3].
  destruct (inGrid W H x y); [|done]. unfold erased.
  destruct (_ || _); [by split | done].
Qed.

Lemma clear_frame W H st st' :
  Valid W H st → clear W H st = Return st' →
  keeps_settings st st' ∧ ends_kept W H st st'.
Proof.
  intros HV Hcl. pose proof HV as HV0. apply valid_spec in HV0.
  destruct (clear_cells W H st HV0)
    as (st1 & Hcl1 & HV1 & HS & HE & HA & HD & _ & _ & _ & Hc).
  rewrite Hcl in Hcl1. injection Hcl1 as <-. apply valid_spec in HV1.
  split; [by repeat split|]. intros _. rewrite HS, HE. intros y x Hr.
  specialize (Hc y x Hr). rewrite (get_tile_cell W H) in Hc by (apply HV1 || done).
  injection Hc as ->.
  destruct (bool_decide_reflect ((y, x) = Node.getPos (END st))); [by split|].
  destruct (bool_decide_reflect ((y, x) = Node.getPos (START st))); [by split|].
  by destruct (inGrid W H x y).
Qed.

Lemma mouseHandler_frame W H xPos yPos c st st' :
  Valid W H st → mouseHandler W H xPos yPos c st = Return st' →
  keeps_settings st st' ∧ ends_kept W H st st'.
Proof.
  intros HV Hm. pose proof HV as HV0. apply valid_spec in HV0.
  destruct (mouseHandler_cells W H st xPos yPos c HV0)
    as (st1 & Hm1 & HS & HE & HA & HD & _ & _ & _ & Hc).
  rewrite Hm in Hm1. injection Hm1 as <-.
  destruct (mouseHandler_valid W H xPos yPos c st HV) as (st2 & Hm2 & HV2).
  rewrite Hm in Hm2. injection Hm2 as <-.
  split; [by repeat split|]. intros Hends. rewrite HS, HE.
  apply (EndsOnly_writes W H (GRID st)); [done|].
  intros y x Hr. specialize (Hc y x Hr).
  rewrite !(get_tile_cell W H) in Hc by (apply HV2 || apply HV || done).
  simpl in Hc. injection Hc as ->.
  destruct (_ && _); [|by left].
  destruct (painted_cases c (cell (GRID st) y x)) as [->|[_ [->| ->]]]; auto.
Qed.

Lemma step_frame W H a st st' r :
  Valid W H st → step a st = Return (st', r) →
  keeps_settings st st' ∧ ends_kept W H st st'.
Proof.
  intros HV Hs.
  destruct (step_valid W H a st HV) as (st1 & r1 & Hs1 & _ & (HS & HE & HA & HD & _) & _).
  rewrite Hs in Hs1. injection Hs1 as <- <-.
  split; [by repeat split|]. intros Hends. rewrite HS, HE.
  apply (EndsOnly_writes W H (GRID st)); [done|].
  intros y x Hr. destruct (step_cells W H a st st' r HV Hs y x Hr) as [->|[-> | ->]]; auto.
Qed.

Lemma reconstructPath_frame W H fuel st st' :
  Valid W H st → reconstructPath fuel st = Some (Return st') →
  keeps_settings st st' ∧ ends_kept W H st st'.
Proof.
  intros HV Hrec.
  destruct (reconstructPath_cells W H fuel st st' HV Hrec)
    as ((HS & HE & HA & HD & _) & _ & g & Hdg & Hcg & Hc).
  split; [by repeat split|]. intros Hends. rewrite HS, HE.
  apply (EndsOnly_mark W H g); [|done].
  apply (EndsOnly_writes W H (GRID st)); [done|].
  intros y x Hr. destruct (Hcg y x Hr) as [->| ->]; auto.
Qed.

Lemma frame_ext W H st st1 st' :
  GRID st' = GRID st1 → START st' = START st1 → END st' = END st1 →
  DIAGONAL st' = DIAGONAL st1 → ALGORITHM st' = ALGORITHM st1 →
  keeps_settings st st1 ∧ ends_kept W H st st1 →
  keeps_settings st st' ∧ ends_kept W H st st'.
Proof.
  intros Hg HS HE HD HA [(? & ? & ? & ?) Hk]. split.
  - repeat split; congruence.
  - intros Hends. rewrite Hg, HS, HE. by apply Hk.
Qed.

Lemma frame_trans W H st st1 st2 :
  keeps_settings st st1 ∧ ends_kept W H st st1 →
  keeps_settings st1 st2 ∧ ends_kept W H st1 st2 →
  keeps_settings st st2 ∧ ends_kept W H st st2.
Proof.
  intros [(? & ? & ? & ?) Hk1] [(? & ? & ? & ?) Hk2]. split.
  - repeat split; congruence.
  - intros Hends. by apply Hk2, Hk1.
Qed.

Lemma tick_frame W H fuel st st' :
  Valid W H st → tick fuel st = Some (Return st') →
  keeps_settings st st' ∧ ends_kept W H st st'.
Proof.
  intros HV Htick. unfold tick in Htick.
  destruct (searching st).
  2:{ injection Htick as <-. split; [by repeat split | by intros ?]. }
  destruct (step_valid W H (ALGORITHM st) st HV) as (st1 & r & Hstep & HV1 & _).
  pose proof (step_frame W H _ st st1 r HV Hstep) as Hf1.
  rewrite Hstep in Htick. destruct r as [[|]|].
  - destruct (reconstructPath fuel st1) as [[st2|]|] eqn:Hrec; try done.
    injection Htick as <-.
    pose proof (reconstructPath_frame W H fuel st1 st2 HV1 Hrec) as Hf2.
    eapply frame_ext; [..|by eapply frame_trans]; done.
  - injection Htick as <-. by eapply frame_ext; [..|exact Hf1].
  - by injection Htick as <-.
Qed.

Lemma setStart_ends W H st x y g s :
  Valid W H st → interior W H y x →
  setStart (Some (START st)) (GRID st) x y = Return (g, s) →
  s = Node.init y x None ∧
  (EndsOnly W H (GRID st) (START st) (END st) → EndsOnly W H g s (END st)).
Proof.
  intros HV Hi Hset. pose proof (Valid_grid_ok _ _ _ HV) as Hg.
  destruct (grid_ok_set W H (GRID st) _ _ 0 Hg (v_start _ _ _ HV)) as (g1 & Hs1 & Hg1 & Hc1).
  destruct (grid_ok_set W H g1 y x 2 Hg1 Hi) as (g2 & Hs2 & Hg2 & Hc2).
  unfold setStart in Hset. rewrite Hs1 in Hset. simpl in Hset.
  rewrite Hs2 in Hset. simpl in Hset. injection Hset as <- <-.
  split; [done|]. intros Hends y' x' Hr.
  rewrite Hc2, Hc1 by (unfold in_range in Hr; lia). unfold Node.getPos. simpl.
  destruct (decide (y' = y ∧ x' = x)) as [[-> ->]|]; [by split|].
  destruct (decide _) as [[-> ->]|Hne]; [by split|].
  destruct (Hends y' x' Hr) as [H2 H3]. split; [|done].
  intros Hc. apply H2 in Hc. injection Hc as -> ->. tauto.
Qed.

Lemma setEnd_ends W H st x y g e :
  Valid W H st → interior W H y x →
  setEnd (Some (END st)) (GRID st) x y = Return (g, e) →
  e = Node.init y x None ∧
  (EndsOnly W H (GRID st) (START st) (END st) → EndsOnly W H g (START st) e).
Proof.
  intros HV Hi Hset. pose proof (Valid_grid_ok _ _ _ HV) as Hg.
  destruct (grid_ok_set W H (GRID st) _ _ 0 Hg (v_end _ _ _ HV)) as (g1 & Hs1 & Hg1 & Hc1).
  destruct (grid_ok_set W H g1 y x 3 Hg1 Hi) as (g2 & Hs2 & Hg2 & Hc2).
  unfold setEnd in Hset. rewrite Hs1 in Hset. simpl in Hset.
  rewrite Hs2 in Hset. simpl in Hset. injection Hset as <- <-.
  split; [done|]. intros Hends y' x' Hr.
  rewrite Hc2, Hc1 by (unfold in_range in Hr; lia). unfold Node.getPos. simpl.
  destruct (decide (y' = y ∧ x' = x)) as [[-> ->]|]; [by split|].
  destruct (decide _) as [[-> ->]|Hne]; [by split|].
  destruct (Hends y' x' Hr) as [H2 H3]. split; [done|].
  intros Hc. apply H3 in Hc. injection Hc as -> ->. tauto.
Qed.

(** What an operation does to the settings and to the Start and End
    tiles. *)
Lemma apply_op_frame W H o st st' :
  Valid W H st → apply_op W H o st = Some (Return st') →
  ends_kept W H st st' ∧
  (Node.eqb (START st) (END st) = false → Node.eqb (START st') (END st') = false) ∧
  (searching st = true → keeps_settings st st').
Proof.
  intros HV Hop.
  assert (∀ s, keeps_settings s st' ∧ ends_kept W H s st' → s = st →
    ends_kept W H st st' ∧
    (Node.eqb (START st) (END st) = false → Node.eqb (START st') (END st') = false) ∧
    (searching st = true → keeps_settings st st')) as Hkeep.
  { intros s [Hk He] ->. split; [done|]. split; [|done].
    destruct Hk as (-> & -> & _). done. }
  assert (keeps_settings st st ∧ ends_kept W H st st) as Hrefl.
  { split; [by repeat split | by intros ?]. }
  destruct o; simpl in Hop.
  - injection Hop as Hop. eapply Hkeep; [|done]. by eapply mouseHandler_frame.
  - injection Hop as Hop. unfold keyHandler in Hop. destruct k.
    + rewrite reset_start in Hop. apply bind_Return in Hop as (st1 & Hst & Hop).
      injection Hop as <-. eapply Hkeep; [|done].
      eapply frame_ext; [..|by eapply start_frame]; done.
    + unfold toggleDiagonal in Hop.
      destruct (searching st) eqn:Hse; injection Hop as <-; [by eapply Hkeep|].
      split; [by intros ?|]. split; [done | discriminate].
    + eapply Hkeep; [|done]. by eapply clear_frame.
    + destruct (searching st) eqn:Hse.
      * injection Hop as <-. by eapply Hkeep.
      * split; [by eapply start_frame|]. split; [|discriminate].
        destruct (start_frame W H st st' HV Hop) as [(-> & -> & _) _]. done.
    + destruct (searching st) eqn:Hse.
      { injection Hop as <-. by eapply Hkeep. }
      destruct (getCoordsFromPosition xPos yPos) as [y x].
      destruct (inGrid W H x y) eqn:Hi; simpl in Hop.
      2:{ injection Hop as <-. split; [by intros ?|]. split; [done | discriminate]. }
      destruct (bool_decide_reflect ((y, x) = Node.getPos (END st))) as [Heq|Hne];
        simpl in Hop.
      { injection Hop as <-. split; [by intros ?|]. split; [done | discriminate]. }
      apply inGrid_interior in Hi.
      apply bind_Return in Hop as ([g s] & Hset & Hop). injection Hop as <-.
      destruct (setStart_ends W H st x y g s HV Hi Hset) as [-> Hends].
      split; [done|]. split; [|discriminate]. simpl. intros _.
      apply Node_eqb_false. unfold Node.getPos at 1. simpl. done.
    + destruct (searching st) eqn:Hse.
      { injection Hop as <-. by eapply Hkeep. }
      destruct (getCoordsFromPosition xPos yPos) as [y x].
      destruct (inGrid W H x y) eqn:Hi; simpl in Hop.
      2:{ injection Hop as <-. split; [by intros ?|]. split; [done | discriminate]. }
      destruct (bool_decide_reflect ((y, x) = Node.getPos (START st))) as [Heq|Hne];
        simpl in Hop.
      { injection Hop as <-. split; [by intros ?|]. split; [done | discriminate]. }
      apply inGrid_interior in Hi.
      apply bind_Return in Hop as ([g e] & Hset & Hop). injection Hop as <-.
      destruct (setEnd_ends W H st x y g e HV Hi Hset) as [-> Hends].
      split; [done|]. split; [|discriminate]. simpl. intros _.
      apply Node_eqb_false. unfold Node.getPos at 2. simpl. congruence.
    + destruct (searching st); injection Hop as <-; by eapply Hkeep.
  - injection Hop as Hop. eapply Hkeep; [|done]. by eapply clear_frame.
  - injection Hop as Hop. rewrite reset_start in Hop.
    apply bind_Return in Hop as (st1 & Hst & Hop). injection Hop as <-.
    eapply Hkeep; [|done]. eapply frame_ext; [..|by eapply start_frame]; done.
  - injection Hop as Hop. eapply Hkeep; [|done]. by eapply start_frame.
  - injection Hop as Hop. unfold selectAlgorithm in Hop.
    destruct (searching st) eqn:Hse.
    { injection Hop as <-. by eapply Hkeep. }
    assert (Valid W H (set_ALGORITHM a st)) as HVa by (by eapply Valid_ext; [..|exact HV]).
    destruct (start_frame W H _ st' HVa Hop) as [(HS & HE & _) Hk].
    split; [exact Hk|]. split; [|discriminate]. by rewrite HS, HE.
  - unfold toggleDiagonal in Hop.
    destruct (searching st) eqn:Hse; injection Hop as <-; [by eapply Hkeep|].
    split; [by intros ?|]. split; [done | discriminate].
  - injection Hop as Hop. apply bind_Return in Hop as ([st1 r] & Hs & Hop).
    injection Hop as <-. eapply Hkeep; [|done]. by eapply step_frame.
  - eapply Hkeep; [|done]. by eapply reconstructPath_frame.
  - eapply Hkeep; [|done]. by eapply tick_frame.
Qed.

(** X9: there is never a second Start or End tile.  If in a valid state
    the only Start tile (if any) is at the coordinates of the Start node
    and the only End tile (if any) at those of the End node, then the
    same holds after every operation that returns: painting, the keys
    (moving the Start or the End node included), clear, reset, begin
    search, the choice of an algorithm, a step, path reconstruction and a
    pass of the event loop.  The set-up of [main] establishes it. *)
Theorem start_end_tiles_unique (W H : Z) (o : operation) (st st' : state) :
  valid W H st = true → ends_only W H st = true →
  apply_op W H o st = Some (Return st') →
  ends_only W H st' = true ∧
  ∃ st0, main_setup W H = Return st0 ∧ ends_only W H st0 = true.
Proof.
  intros HV Hends Hop. apply valid_spec in HV.
  pose proof (apply_op_valid W H o st st' HV Hop) as HV'.
  split.
  - apply ends_only_spec; [apply HV'|].
    apply (apply_op_frame W H o st st' HV Hop).
    apply ends_only_spec; [apply HV | done].
  - pose proof (v_start _ _ _ HV) as Hi. unfold node_interior, interior in Hi.
    destruct (main_setup_cells W H) as (st0 & Hm & HV0 & HS & HE & _ & _ & _ & _ & _ & _ & Hc);
      [lia | lia |].
    exists st0. split; [done|]. apply valid_spec in HV0.
    apply ends_only_spec; [apply HV0|]. rewrite HS, HE.
    intros y x Hr. specialize (Hc y x Hr).
    rewrite (get_tile_cell W H) in Hc by (apply HV0 || done). injection Hc as ->.
    unfold Node.getPos. simpl.
    destruct (bool_decide_reflect ((y, x) = (H - 2, W - 2))); [by split|].
    destruct (bool_decide_reflect ((y, x) = (1, 1))); [by split|].
    by destruct (inGrid W H x y).
Qed.

Lemma start_end_tiles_unique_witness :
  valid 6 6 (example_after 11) = true ∧
  ends_only 6 6 (after_op 6 6 (OpKey K_e 70 50) (example_state ALG_BFS false)) = true.
Proof.
  assert (valid 6 6 (example_after 11) = true) as HV0 by (vm_compute; reflexivity).
  split; [exact HV0|].
  assert (valid 6 6 (example_state ALG_BFS false) = true) as HV
    by (vm_compute; reflexivity).
  assert (ends_only 6 6 (example_state ALG_BFS false) = true) as He
    by (vm_compute; reflexivity).
  assert (apply_op 6 6 (OpKey K_e 70 50) (example_state ALG_BFS false)
          = Some (Return (after_op 6 6 (OpKey K_e 70 50) (example_state ALG_BFS false))))
    as Hop by (vm_compute; reflexivity).
  exact (proj1 (start_end_tiles_unique 6 6 _ _ _ HV He Hop)).
Defined.

(** X10: the Start and the End node never come to lie on the same tile:
    if their coordinates differ in a valid state, they differ after every
    operation that returns (the keys S and E refuse the tile of the
    other node). *)
Theorem start_end_stay_apart (W H : Z) (o : operation) (st st' : state) :
  valid W H st = true → Node.eqb (START st) (END st) = false →
  apply_op W H o st = Some (Return st') →
  Node.eqb (START st') (END st') = false.
Proof.
  intros HV Hne Hop. apply valid_spec in HV.
  by apply (apply_op_frame W H o st st' HV Hop).
Qed.

Lemma start_end_stay_apart_witness :
  apply_op 6 6 (OpKey K_s 90 90) (example_state ALG_BFS false)
    = Some (Return (example_state ALG_BFS false)) ∧
  Node.eqb (START (example_state ALG_BFS false))
           (END (example_state ALG_BFS false)) = false.
Proof.
  assert (valid 6 6 (example_state ALG_BFS false) = true) as HV
    by (vm_compute; reflexivity).
  assert (apply_op 6 6 (OpKey K_s 90 90) (example_state ALG_BFS false)
          = Some (Return (example_state ALG_BFS false))) as Hop
    by (vm_compute; reflexivity).
  split; [exact Hop|].
  exact (start_end_stay_apart 6 6 _ _ _ HV eq_refl Hop).
Defined.

Lemma locked_ignored W H o st st' :
  searching st = true → locked o = true →
  apply_op W H o st = Some (Return st') → st' = st.
Proof.
  intros Hse Hl Hop. destruct o as [| k xPos yPos | | | | a | | | |]; try done;
    simpl in Hop.
  - unfold keyHandler, toggleDiagonal in Hop.
    destruct k; try done; rewrite Hse in Hop; by injection Hop as <-.
  - unfold selectAlgorithm in Hop. rewrite Hse in Hop. by injection Hop as <-.
  - unfold toggleDiagonal in Hop. rewrite Hse in Hop. by injection Hop as <-.
Qed.

(** X11: while a search is running ([searching] is set), the keys D,
    SPACE, S and E, the algorithm buttons and [toggleDiagonal] are
    ignored: the operation returns the state as it was, so the run in
    progress is kept.  Every other operation that returns (the keys R
    and C, painting, [clear], [reset], a step, path reconstruction, a
    pass of the event loop, and a direct call of [start]) leaves the
    Start node, the End node, the movement model and the selected
    algorithm as they were. *)
Theorem search_locks_settings (W H : Z) (o : operation) (st st' : state) :
  valid W H st = true → searching st = true →
  apply_op W H o st = Some (Return st') →
  (locked o = true → st' = st) ∧
  START st' = START st ∧ END st' = END st ∧
  DIAGONAL st' = DIAGONAL st ∧ ALGORITHM st' = ALGORITHM st.
Proof.
  intros HV Hse Hop. apply valid_spec in HV. split.
  - intros Hl. by eapply locked_ignored.
  - by apply (apply_op_frame W H o st st' HV Hop).
Qed.

Lemma search_locks_settings_witness :
  searching (example_after 3) = true ∧
  after_op 6 6 (OpSelect ALG_DFS) (example_after 3) = example_after 3.
Proof.
  assert (valid 6 6 (example_after 3) = true) as HV by (vm_compute; reflexivity).
  assert (searching (example_after 3) = true) as Hse by reflexivity.
  assert (apply_op 6 6 (OpSelect ALG_DFS) (example_after 3)
          = Some (Return (after_op 6 6 (OpSelect ALG_DFS) (example_after 3)))) as Hop
    by (vm_compute; reflexivity).
  split; [exact Hse|].
  exact (proj1 (search_locks_settings 6 6 _ _ _ HV Hse Hop) eq_refl).
Defined.

(** ** The search part of the event loop *)

Lemma chain_depth (n m : Node.t) : m ∈ Node.chain n → (Node.depth m ≤ Node.depth n)%nat.
Proof.
  induction n as [n Hn|n p Hp IH] using Node_parent_ind; intros Hin.
  - destruct n as [y x par g h]. simpl in *. subst par.
    apply list_elem_of_singleton in Hin as ->. done.
  - destruct n as [y x par g h]. simpl in *. subst par.
    apply elem_of_cons in Hin as [->|Hin]; [done|]. specialize (IH Hin). lia.
Qed.

Lemma chain_NoDup (n : Node.t) : NoDup (Node.chain n).
Proof.
  induction n as [n Hn|n p Hp IH] using Node_parent_ind.
  - destruct n as [y x par g h]. simpl in *. subst par. apply NoDup_singleton.
  - destruct n as [y x par g h]. simpl in *. subst par.
    apply NoDup_cons. split; [|done].
    intros Hin%chain_depth. simpl in Hin. lia.
Qed.

Lemma chain_closed (cl : list Node.t) :
  (∀ n p, n ∈ cl → Node.parent n = Some p → p ∈ cl) →
  ∀ n, n ∈ cl → ∀ m, m ∈ Node.chain n → m ∈ cl.
Proof.
  intros Hpar n. induction n as [n Hn|n p Hp IH] using Node_parent_ind; intros Hin m Hm.
  - destruct n as [y x par g h]. simpl in *. subst par.
    by apply list_elem_of_singleton in Hm as ->.
  - pose proof (Hpar _ _ Hin Hp) as Hpin.
    destruct n as [y x par g h]. simpl in *. subst par.
    apply elem_of_cons in Hm as [->|Hm]; [done | by apply IH].
Qed.

Lemma chain_length (n : Node.t) : length (Node.chain n) = S (Node.depth n).
Proof.
  destruct (chain_split n) as (-> & _ & <-). rewrite length_app. simpl. lia.
Qed.

(** A node of a list that holds the discoverers of its nodes has fewer
    chain edges than the list has entries. *)
Lemma depth_lt_length (cl : list Node.t) (p : Node.t) :
  (∀ n q, n ∈ cl → Node.parent n = Some q → q ∈ cl) → p ∈ cl →
  (Node.depth p < length cl)%nat.
Proof.
  intros Hpar Hp.
  assert (Node.chain p ⊆+ cl) as Hsub.
  { apply NoDup_submseteq; [apply chain_NoDup|]. by apply chain_closed. }
  apply submseteq_length in Hsub. rewrite chain_length in Hsub. lia.
Qed.

(** After the step that has taken the End node, [reconstructPath] needs
    no more rounds than there are tiles inside the border. *)
Lemma reconstruct_returns W H g0 a prev st fuel :
  run_inv W H g0 prev → step a prev = Return (st, Some true) →
  (interior_size W H ≤ fuel)%nat →
  ∃ st', reconstructPath fuel st = Some (Return st').
Proof.
  intros Hprev Hlast Hfuel.
  destruct (step_run W H g0 a prev Hprev) as (st' & r & Hst' & Hinv & Hsg & Hout).
  rewrite Hlast in Hst'. injection Hst' as <- <-.
  destruct Hout as (e & Heo & Hcl & Hr). destruct Hsg as (HSt & HEt & _).
  destruct (Node.eqb e (END prev)) eqn:HeE; [clear Hr|done].
  pose proof (closed_bound _ _ _ _ Hinv) as Hbound.
  rewrite Hcl, length_app in Hbound. simpl in Hbound.
  set (cl := closed prev) in *.
  destruct Hprev as [Hd Hb Hi Hnd Hp Hps Hnf Hw].
  assert (e ∈ open prev ++ cl) as Heoc by (apply elem_of_app; by left).
  assert (NoDup (Node.getPos <$> cl)) as Hndc.
  { rewrite fmap_app in Hnd. by apply NoDup_app in Hnd as (_ & _ & ?). }
  assert (∀ n p, n ∈ cl → Node.parent n = Some p → p ∈ cl) as Hparc.
  { intros m p Hm Hmp. assert (m ∈ open prev ++ cl) as Hm' by (apply elem_of_app; by right).
    specialize (Hp m Hm'). by rewrite Hmp in Hp. }
  assert (∀ p, Node.parent e = Some p → p ∈ cl) as Hpe.
  { intros p Hep. specialize (Hp e Heoc). by rewrite Hep in Hp. }
  assert (Node.depth e ≤ fuel)%nat as Hdepth.
  { destruct e as [ye xe [p|] ge he]; simpl; [|lia].
    pose proof (depth_lt_length cl p Hparc (Hpe p eq_refl)). lia. }
  destruct (reconstruct_loop_chain W H cl Hndc) with (fuel := fuel) (curr := e)
    (g := GRID st) as (g' & Hloop & Hd' & _).
  { intros m Hm. apply Hi, elem_of_app. by right. }
  { done. }
  { apply Hinv. }
  { by apply Hi. }
  { done. }
  { done. }
  assert (node_interior W H (START st) ∧ node_interior W H (END st)) as [HSi HEi].
  { split.
    - apply (ri_interior _ _ _ _ _ _ _ Hinv).
      assert (chain_root e ∈ open st ++ closed st) as Hroot.
      { rewrite Hcl. destruct (Node.parent e) as [p|] eqn:Hep.
        - apply elem_of_app. right. apply elem_of_app. left.
          apply (chain_closed cl Hparc p (Hpe p eq_refl)).
          destruct e as [ye xe pe ge he]. simpl in *. subst pe.
          destruct (chain_split p) as (-> & _ & _).
          apply elem_of_app. right. by left.
        - destruct e as [ye xe pe ge he]. simpl in *. subst pe. simpl.
          apply elem_of_app. right. apply elem_of_app. right. by left. }
      pose proof (ri_parent _ _ _ _ _ _ _ Hinv _ Hroot) as Hrp.
      destruct (chain_split e) as (_ & Hnone & _). rewrite Hnone in Hrp.
      by rewrite <- Hrp.
    - apply Node_eqb_true, getPos_eq in HeE as [Hy Hx].
      unfold node_interior. rewrite HEt, <- Hy, <- Hx. by apply Hi. }
  destruct (mark_ends_cells W H g' (START st) (END st) Hd' HSi HEi)
    as (g2 & Hm & _).
  eexists. unfold reconstructPath. rewrite Hcl, rev_app_distr. simpl.
  rewrite rev_involutive, Hloop.
  apply bind_Return in Hm as (g1 & Hm1 & Hm2). rewrite Hm1. simpl.
  rewrite Hm2. simpl. reflexivity.
Qed.

Lemma ticks_idle fuel m st : searching st = false → ticks fuel m st = Some (Return st).
Proof.
  intros Hs. induction m as [|m IH]; [done|]. simpl. unfold tick. by rewrite Hs.
Qed.

Lemma ticks_add fuel k m st st' :
  ticks fuel k st = Some (Return st') → ticks fuel (k + m) st = ticks fuel m st'.
Proof.
  revert st. induction k as [|k IH]; intros st Hk; simpl in *.
  - by injection Hk as ->.
  - destruct (tick fuel st) as [[st1|]|]; try done. by apply IH.
Qed.

Lemma ticks_terminate W H g0 fuel n st :
  Valid W H st → run_inv W H g0 st → searching st = true →
  (interior_size W H ≤ fuel)%nat →
  (interior_size W H < n + length (closed st))%nat →
  ∃ k st', (k ≤ n)%nat ∧ ticks fuel k st = Some (Return st') ∧
           searching st' = false ∧ Valid W H st'.
Proof.
  intros HV Hinv Hse Hfuel. revert st HV Hinv Hse.
  induction n as [|n IH]; intros st HV Hinv Hse Hlt.
  { pose proof (closed_bound _ _ _ _ Hinv). lia. }
  destruct (step_run W H g0 (ALGORITHM st) st Hinv)
    as (st1 & r & Hstep & Hinv1 & Hsg1 & Hout).
  assert (∀ st', tick fuel st = Some (Return st') → Valid W H st') as HVt.
  { intros st' Ht. by eapply tick_valid. }
  destruct r as [[|]|].
  - destruct (reconstruct_returns W H g0 _ st st1 fuel Hinv Hstep Hfuel) as (st2 & Hrec).
    assert (tick fuel st = Some (Return (set_searching false st2))) as Ht.
    { unfold tick. by rewrite Hse, Hstep, Hrec. }
    exists 1%nat, (set_searching false st2). split; [lia|]. split.
    { simpl. by rewrite Ht. }
    split; [done | by apply HVt].
  - assert (tick fuel st = Some (Return (set_searching false st1))) as Ht.
    { unfold tick. by rewrite Hse, Hstep. }
    exists 1%nat, (set_searching false st1). split; [lia|]. split.
    { simpl. by rewrite Ht. }
    split; [done | by apply HVt].
  - assert (tick fuel st = Some (Return st1)) as Ht.
    { unfold tick. by rewrite Hse, Hstep. }
    destruct Hout as (curr & _ & Hcl & _).
    destruct (IH st1) as (k & st' & Hk & Hticks & Hdone & HV').
    { by apply HVt. }
    { done. }
    { destruct Hsg1 as (_ & _ & _ & _ & ->). done. }
    { rewrite Hcl, length_app. simpl. lia. }
    exists (S k), st'. split; [lia|]. split; [|done].
    simpl. by rewrite Ht.
Qed.

(** X12: after [start] in a valid state, the search part of the event
    loop (a step of the selected algorithm per pass, then
    [reconstructPath] when the step returns [True]) ends the search
    within W*H passes: no pass raises an exception, the loop of
    [reconstructPath] comes to an end (fuel for as many rounds as there
    are tiles inside the border is enough), [searching] is false
    afterwards, the state is valid, and further passes change nothing. *)
Theorem event_loop_ends_search (W H : Z) (fuel : nat) (st0 s : state) :
  valid W H st0 = true → start W H st0 = Return s →
  (interior_size W H ≤ fuel)%nat →
  ∃ k st', (k ≤ Z.to_nat (W * H))%nat ∧ searching st' = false ∧
           valid W H st' = true ∧
           ∀ m, ticks fuel (k + m) s = Some (Return st').
Proof.
  intros HV Hstart Hfuel. apply valid_spec in HV.
  destruct (start_spec W H st0 HV)
    as (s1 & Hs1 & HVs & Hinv & _ & Hcl & _ & _ & _ & _ & Hse & _).
  rewrite Hstart in Hs1. injection Hs1 as <-.
  pose proof (v_start _ _ _ HV) as Hi. unfold node_interior, interior in Hi.
  destruct (ticks_terminate W H (GRID s) fuel (Z.to_nat (W * H)) s HVs Hinv Hse Hfuel)
    as (k & st' & Hk & Hticks & Hdone & HV').
  { rewrite Hcl. simpl. unfold interior_size. nia. }
  exists k, st'. split; [done|]. split; [done|]. split; [by apply valid_spec|].
  intros m. rewrite (ticks_add fuel k m s st' Hticks). by apply ticks_idle.
Qed.

Lemma event_loop_ends_search_witness :
  valid 6 6 (example_state ALG_Greedy true) = true ∧
  ∃ k st', (k ≤ 36)%nat ∧ searching st' = false ∧
           ticks 16 k (example_seeded ALG_Greedy true) = Some (Return st').
Proof.
  assert (valid 6 6 (example_state ALG_Greedy true) = true) as HV
    by (vm_compute; reflexivity).
  assert (start 6 6 (example_state ALG_Greedy true)
          = Return (example_seeded ALG_Greedy true)) as Hst
    by (vm_compute; reflexivity).
  assert (interior_size 6 6 ≤ 16)%nat as Hfuel by (vm_compute; lia).
  split; [exact HV|].
  destruct (event_loop_ends_search 6 6 16 _ _ HV Hst Hfuel)
    as (k & st' & Hk & Hdone & _ & Hticks).
  exists k, st'. split; [exact Hk|]. split; [exact Hdone|].
  specialize (Hticks 0%nat). rewrite Nat.add_0_r in Hticks. exact Hticks.
Defined.

(** ** The open list after a step of DFS, BFS or Greedy *)

(** The loop of [DFS], [BFS] and [Greedy] over neighbors that lie inside
    the matrix and have pairwise different coordinates appends those that
    pass the test. *)
Lemma for_each_admits W H (f : Node.t → Node.t)
    (visit : grid * list Node.t → Node.t → result (grid * list Node.t))
    (cl : list Node.t) :
  (∀ nb, Node.getPos (f nb) = Node.getPos nb) →
  (∀ g op nb, visit (g, op) nb =
     (p ← isPath g nb;
      if p && negb (Node.mem nb cl) && negb (Node.mem nb op) then
        g' ← set_tile g (Node.y (f nb)) (Node.x (f nb)) 4; Return (g', op ++ [f nb])
      else Return (g, op))) →
  ∀ nbs g op,
    grid_dims W H g → NoDup (Node.getPos <$> nbs) →
    (∀ nb, nb ∈ nbs → in_range W H (Node.y nb) (Node.x nb)) →
    ∃ g', for_each visit nbs (g, op) =
            Return (g', op ++ (f <$> List.filter (admissible g cl op) nbs)) ∧
          grid_dims W H g'.
Proof.
  intros Hpos Hvisit. induction nbs as [|nb nbs IH]; intros g op Hd Hnd Hr.
  { exists g. simpl. by rewrite app_nil_r. }
  rewrite fmap_cons in Hnd. apply NoDup_cons in Hnd as [Hnb Hnd].
  assert (in_range W H (Node.y nb) (Node.x nb)) as Hrnb by (apply Hr; by left).
  assert (∀ nb', nb' ∈ nbs → in_range W H (Node.y nb') (Node.x nb')) as Hr'.
  { intros nb' Hin. apply Hr. by right. }
  simpl. rewrite Hvisit, (isPath_cell W H) by done. simpl.
  destruct (admissible g cl op nb) eqn:Hadm; pose proof Hadm as Hadm';
    unfold admissible in Hadm'; rewrite Hadm'; simpl.
  - destruct (getPos_eq _ _ (Hpos nb)) as [Hy Hx]. rewrite Hy, Hx.
    destruct (set_tile_cell W H g _ _ 4 Hd Hrnb) as (g1 & -> & Hd1 & Hc1). simpl.
    destruct (IH g1 (op ++ [f nb]) Hd1 Hnd Hr') as (g' & -> & Hd').
    exists g'. split; [|done]. f_equal. f_equal. rewrite <- app_assoc. simpl.
    do 3 f_equal. apply List.filter_ext_in. intros nb' Hin.
    apply list_elem_of_In in Hin.
    assert (Node.getPos nb' ≠ Node.getPos nb) as Hne.
    { intros Heq. apply Hnb. rewrite <- Heq. apply list_elem_of_fmap. eauto. }
    unfold admissible. specialize (Hr' nb' Hin). unfold in_range in Hr'.
    rewrite Hc1 by lia. rewrite decide_False.
    2:{ intros [Hy' Hx']. apply Hne. unfold Node.getPos. by rewrite Hy', Hx'. }
    rewrite Node_mem_app. simpl. rewrite orb_false_r.
    assert (Node.eqb nb' (f nb) = false) as ->.
    { apply Node_eqb_false. by rewrite Hpos. }
    by rewrite orb_false_r.
  - destruct (IH g op Hd Hnd Hr') as (g' & -> & Hd'). eauto.
Qed.

Lemma expand_admits W H a visit curr rest st :
  Valid W H st → open st ≡ₚ curr :: rest → remaining a st = rest →
  (∀ cl g op nb, visit curr cl (g, op) nb =
     (p ← isPath g nb;
      if p && negb (Node.mem nb cl) && negb (Node.mem nb op) then
        g' ← set_tile g (Node.y (made a (END st) (DIAGONAL st) curr nb))
                        (Node.x (made a (END st) (DIAGONAL st) curr nb)) 4;
        Return (g', op ++ [made a (END st) (DIAGONAL st) curr nb])
      else Return (g, op))) →
  (∀ nb, Node.getPos (made a (END st) (DIAGONAL st) curr nb) = Node.getPos nb) →
  ∃ st', expand visit curr rest st
           = Return (st', if Node.eqb curr (END st) then Some true else None) ∧
         closed st' = closed st ++ [curr] ∧
         open st' = rest ++ (if Node.eqb curr (END st) then [] else admitted a st curr).
Proof.
  intros HV Hperm Hrem Hvisit Hpos.
  assert (node_interior W H curr) as Hci.
  { apply (v_open _ _ _ HV). rewrite Hperm. by left. }
  destruct (set_tile_cell W H (GRID st) _ _ 5 (v_dims _ _ _ HV)
              (interior_in_range _ _ _ _ Hci)) as (g1 & Hset & Hd1 & Hc1).
  unfold expand. rewrite Hset. simpl.
  destruct (Node.eqb curr (END st)).
  { eexists. split; [done|]. simpl. by rewrite app_nil_r. }
  destruct (for_each_admits W H (made a (END st) (DIAGONAL st) curr)
              (visit curr (closed st ++ [curr])) (closed st ++ [curr]) Hpos
              (Hvisit (closed st ++ [curr]))
              (Node.getNeighbors (DIAGONAL st) curr) g1 rest Hd1
              (getNeighbors_NoDup _ _)) as (g' & Hfe & _).
  { intros nb Hnb. by eapply neighbor_in_range. }
  rewrite Hfe. simpl. eexists. split; [done|]. simpl. split; [done|].
  f_equal. unfold admitted. rewrite Hrem. f_equal.
  apply List.filter_ext_in. intros nb Hnb. apply list_elem_of_In in Hnb.
  unfold admissible. do 2 f_equal.
  pose proof (neighbor_in_range W H _ _ _ Hci Hnb) as Hr. unfold in_range in Hr.
  rewrite Hc1 by lia. rewrite decide_False; [done|].
  apply getNeighbors_spec in Hnb as (_ & _ & _ & Hne & _).
  intros [Hy Hx]. apply Hne. unfold Node.getPos. by rewrite Hy, Hx.
Qed.

(** X13: in a valid state a step of [DFS], [BFS] or [Greedy] raises no
    exception.  [DFS] takes the last entry of the open list, [BFS] the
    first, [Greedy] the first of the list sorted by h-cost; the node goes
    to the end of the closed list.  If it has the coordinates of the End
    node the step returns [True] and adds nothing.  Otherwise it returns
    [None] and appends to the rest of the open list, in the order up,
    right, down, left (then the four diagonal ones), exactly those
    neighbors whose tile is not a Wall and whose coordinates are neither
    in the closed list (the node just taken included) nor in the rest of
    the open list; [Greedy] stores the heuristic in their h-cost. *)
Theorem frontier_update (W H : Z) (a : algorithm) (st : state) (curr : Node.t) :
  valid W H st = true → a ≠ ALG_AStar → taken a st = Some curr →
  ∃ st', step a st = Return (st', if Node.eqb curr (END st) then Some true else None) ∧
    closed st' = closed st ++ [curr] ∧
    open st' = remaining a st ++
               (if Node.eqb curr (END st) then [] else admitted a st curr).
Proof.
  intros HV Ha Ht. apply valid_spec in HV.
  destruct a; [| | |done]; simpl in Ht |- *.
  - unfold DFS. destruct (rev (open st)) as [|c r] eqn:Hrev; [done|].
    injection Ht as ->. simpl.
    apply (expand_admits W H ALG_DFS); try done.
    + rewrite <- (rev_involutive (open st)), Hrev. simpl.
      symmetry. apply Permutation_cons_append.
    + simpl. by rewrite Hrev.
  - unfold BFS. destruct (open st) as [|c r] eqn:Hopen; [done|].
    injection Ht as ->. simpl.
    apply (expand_admits W H ALG_BFS); try done.
    + by rewrite Hopen.
    + simpl. by rewrite Hopen.
  - unfold Greedy. destruct (sort_by Node.hCost (open st)) as [|c r] eqn:Hs; [done|].
    injection Ht as ->. simpl.
    destruct (open st) as [|o1 ol] eqn:Hopen; [done|].
    apply (expand_admits W H ALG_Greedy); try done.
    + rewrite Hopen, <- Hs. symmetry. apply sort_by_perm.
    + simpl. by rewrite Hopen, Hs.
Qed.

Lemma frontier_update_witness :
  valid 6 6 (example_after 1) = true ∧
  ∃ st', step ALG_BFS (example_after 1) = Return (st', None) ∧
         Node.getPos <$> open st' = [(2, 1); (1, 3)].
Proof.
  assert (valid 6 6 (example_after 1) = true) as HV by (vm_compute; reflexivity).
  assert (ALG_BFS ≠ ALG_AStar) as Ha by discriminate.
  split; [exact HV|].
  destruct (frontier_update 6 6 ALG_BFS (example_after 1)
              (Node.init 1 2 (Some (Node.init 1 1 None))) HV Ha eq_refl)
    as (st' & Hs & _ & Hopen).
  exists st'. split; [exact Hs|]. rewrite Hopen. vm_compute. reflexivity.
Defined.

(** ** What a step does to the lists and to the tiles *)

Lemma step_exact W H (a : algorithm) (st : state) (curr : Node.t) :
  Valid W H st → taken a st = Some curr →
  ∃ st', step a st = Return (st', if Node.eqb curr (END st) then Some true else None) ∧
    closed st' = closed st ++ [curr] ∧
    open st' = if Node.eqb curr (END st) then remaining a st
               else kept a st curr ++ admitted a st curr.
Proof.
  intros HV Ht.
  assert (a ≠ ALG_AStar →
    ∃ st', step a st = Return (st', if Node.eqb curr (END st) then Some true else None) ∧
      closed st' = closed st ++ [curr] ∧
      open st' = remaining a st ++
                 (if Node.eqb curr (END st) then [] else admitted a st curr)) as Hplain.
  { intros Ha. destruct a; [| | |done]; simpl in Ht |- *.
    - unfold DFS. destruct (rev (open st)) as [|c r] eqn:Hrev; [done|].
      injection Ht as ->. simpl.
      apply (expand_admits W H ALG_DFS); try done.
      + rewrite <- (rev_involutive (open st)), Hrev. simpl.
        symmetry. apply Permutation_cons_append.
      + simpl. by rewrite Hrev.
    - unfold BFS. destruct (open st) as [|c r] eqn:Hopen; [done|].
      injection Ht as ->. simpl.
      apply (expand_admits W H ALG_BFS); try done.
      + by rewrite Hopen.
      + simpl. by rewrite Hopen.
    - unfold Greedy. destruct (sort_by Node.hCost (open st)) as [|c r] eqn:Hs; [done|].
      injection Ht as ->. simpl.
      destruct (open st) as [|o1 ol] eqn:Hopen; [done|].
      apply (expand_admits W H ALG_Greedy); try done.
      + rewrite Hopen, <- Hs. symmetry. apply sort_by_perm.
      + simpl. by rewrite Hopen, Hs. }
  assert (a = ALG_AStar ∨ a ≠ ALG_AStar) as [->|Ha]
    by (destruct a; (by left) || (by right)).
  - exact (astar_step_exact W H st curr HV Ht).
  - destruct (Hplain Ha) as (st' & Hs & Hcl & Hop). exists st'.
    split; [done|]. split; [done|]. rewrite Hop.
    destruct (Node.eqb curr (END st)); [by rewrite app_nil_r|].
    by destruct a.
Qed.

Lemma open_perm_remaining (a : algorithm) (st : state) (curr : Node.t) :
  taken a st = Some curr → open st ≡ₚ curr :: remaining a st.
Proof.
  destruct a; simpl; intros Ht.
  - destruct (rev (open st)) as [|c r] eqn:Hrev; [done|]. injection Ht as ->.
    rewrite <- (rev_involutive (open st)), Hrev. simpl.
    symmetry. apply Permutation_cons_append.
  - destruct (open st) as [|c r]; [done|]. by injection Ht as ->.
  - destruct (sort_by Node.hCost (open st)) as [|c r] eqn:Hs; [done|].
    injection Ht as ->. simpl. rewrite <- Hs. symmetry. apply sort_by_perm.
  - destruct (sort_by Node.fCost (open st)) as [|c r] eqn:Hs; [done|].
    injection Ht as ->. simpl. rewrite <- Hs. symmetry. apply sort_by_perm.
Qed.

(** C1, as the code has it: in a valid state a step that takes [curr]
    from the open list raises nothing and returns [True] when [curr] has
    the coordinates of the End node and [None] otherwise.  It takes
    [curr] out of the open list and appends it to the closed list, and
    unless it returns [True] it appends the admitted neighbors to the
    open list.  It marks the tile of [curr] Visited and the tile of every
    admitted neighbor Frontier (every entry of the new open list whose
    coordinates were not in the old one); no other tile changes.  This
    holds whatever the tiles were, the Start and the End tile
    included. *)
Theorem step_marks_tiles (W H : Z) (a : algorithm) (st : state) (curr : Node.t) :
  valid W H st = true → taken a st = Some curr →
  ∃ st' r, step a st = Return (st', r) ∧
    r = (if Node.eqb curr (END st) then Some true else None) ∧
    closed st' = closed st ++ [curr] ∧
    open st' = (if Node.eqb curr (END st) then remaining a st
                else kept a st curr ++ admitted a st curr) ∧
    get_tile (GRID st') (Node.y curr) (Node.x curr) = Return Visited ∧
    (∀ n, n ∈ open st' → Node.mem n (open st) = false →
          get_tile (GRID st') (Node.y n) (Node.x n) = Return Frontier) ∧
    (Node.eqb curr (END st) = false →
     ∀ n, n ∈ admitted a st curr →
          get_tile (GRID st') (Node.y n) (Node.x n) = Return Frontier) ∧
    (∀ y x, in_range W H y x → (y, x) ≠ Node.getPos curr →
            newly (open st') (open st) y x = false →
            get_tile (GRID st') y x = get_tile (GRID st) y x).
Proof.
  intros HV Ht. apply valid_spec in HV.
  destruct (step_tiles W H a st curr HV Ht) as (st' & r & Hs & Hcl & Hv & Hf & Hfr).
  destruct (step_exact W H a st curr HV Ht) as (st1 & Hs1 & _ & Hop).
  rewrite Hs in Hs1. injection Hs1 as <- ->.
  exists st', (if Node.eqb curr (END st) then Some true else None).
  split; [done|]. split; [done|]. split; [done|]. split; [done|].
  split; [done|]. split; [done|]. split; [|done].
  intros HnE n Hn. rewrite HnE in Hop. apply Hf.
  { rewrite Hop. apply elem_of_app. by right. }
  unfold admitted in Hn. apply list_elem_of_fmap in Hn as (nb & -> & Hnb).
  apply list_elem_of_In, filter_In in Hnb as [Hnb Hadm].
  apply list_elem_of_In in Hnb.
  assert (Node.mem (made a (END st) (DIAGONAL st) curr nb) (open st)
          = Node.mem nb (open st)) as -> by (by destruct a).
  unfold admissible in Hadm.
  apply andb_true_iff in Hadm as [_ Hm%negb_true_iff].
  apply Node_mem_false in Hm. apply Node_mem_false.
  rewrite (open_perm_remaining a st curr Ht), fmap_cons.
  intros [Heq|Hin]%elem_of_cons; [|done].
  by apply getNeighbors_spec in Hnb as (_ & _ & _ & Hne & _).
Qed.

Lemma step_marks_tiles_witness :
  valid 6 6 (example_after 10) = true ∧
  ∃ st', step ALG_BFS (example_after 10) = Return (st', None) ∧
         Node.getPos <$> open st' = [(4, 3); (4, 4)] ∧
         get_tile (GRID st') 3 4 = Return Visited ∧
         get_tile (GRID st') 4 4 = Return Frontier.
Proof.
  assert (valid 6 6 (example_after 10) = true) as HV by (vm_compute; reflexivity).
  split; [exact HV|].
  destruct (step_marks_tiles 6 6 ALG_BFS (example_after 10)
              (Node.mk 3 4 (Some (Node.mk 2 4 (Some (Node.mk 1 4 (Some (Node.mk 1 3
                 (Some (Node.mk 1 2 (Some (Node.mk 1 1 None 0 0)) 0 0)) 0 0)) 0 0)) 0 0)) 0 0)
              HV eq_refl) as (st' & r & Hs & Hr & _ & Hop & Ht & _ & Hadm & _).
  exists st'. rewrite Hr in Hs. split; [exact Hs|].
  split; [rewrite Hop; vm_compute; reflexivity|]. split; [exact Ht|].
  apply (Hadm eq_refl
           (Node.init 4 4 (Some (Node.mk 3 4 (Some (Node.mk 2 4 (Some (Node.mk 1 4
              (Some (Node.mk 1 3 (Some (Node.mk 1 2 (Some (Node.mk 1 1 None 0 0)) 0 0))
                 0 0)) 0 0)) 0 0)) 0 0)))).
  vm_compute. apply list_elem_of_here.
Defined.

(** C1 as the specification states it fails: in the seeded fixture the
    first call of [BFS] takes the Start node and overwrites the Start
    tile with Visited, and the eleventh call admits the End node and
    overwrites the End tile with Frontier. *)
Lemma step_overwrites_start_and_end_counterexample :
  (get_tile (GRID (example_after 0)) 1 1 = Return Start ∧
   Node.getPos (START (example_after 0)) = (1, 1) ∧
   ∃ st', BFS (example_after 0) = Return (st', None) ∧
          get_tile (GRID st') 1 1 = Return Visited) ∧
  (get_tile (GRID (example_after 10)) 4 4 = Return End_tile ∧
   Node.getPos (END (example_after 10)) = (4, 4) ∧
   ∃ st', BFS (example_after 10) = Return (st', None) ∧
          get_tile (GRID st') 4 4 = Return Frontier).
Proof.
  split.
  - split; [reflexivity|]. split; [reflexivity|].
    exists (example_after 1). split; vm_compute; reflexivity.
  - split; [reflexivity|]. split; [reflexivity|].
    exists (example_after 11). split; vm_compute; reflexivity.
Qed.

(** ** The nodes that a run creates *)

Lemma expand_globals visit curr rest st st' r :
  expand visit curr rest st = Return (st', r) → same_globals st st'.
Proof.
  unfold expand. intros Hx. inv_bind Hx.
  destruct (Node.eqb curr (END st)).
  - injection Hx as <- <-. by repeat split.
  - inv_bind Hx. destruct r1 as [g' op]. injection Hx as <- <-. by repeat split.
Qed.

Lemma for_each_made (f : Node.t → Node.t)
    (visit : grid * list Node.t → Node.t → result (grid * list Node.t)) :
  (∀ g op nb g' op', visit (g, op) nb = Return (g', op') →
     ∀ n, n ∈ op' → n ∈ op ∨ n = f nb) →
  ∀ nbs g op g' op',
    for_each visit nbs (g, op) = Return (g', op') →
    ∀ n, n ∈ op' → n ∈ op ∨ ∃ nb, nb ∈ nbs ∧ n = f nb.
Proof.
  intros Hvisit. induction nbs as [|nb nbs IH]; intros g op g' op' Hfe n Hn.
  { simpl in Hfe. injection Hfe as <- <-. by left. }
  simpl in Hfe. apply bind_Return in Hfe as ([g1 op1] & Hv & Hfe).
  destruct (IH g1 op1 g' op' Hfe n Hn) as [Hin|(nb' & Hnb' & ->)].
  - destruct (Hvisit g op nb g1 op1 Hv n Hin) as [?| ->]; [by left|].
    right. exists nb. split; [by left | done].
  - right. exists nb'. split; [by right | done].
Qed.

Lemma visit_plain_made cl g op nb g' op' :
  visit_plain cl (g, op) nb = Return (g', op') →
  ∀ n, n ∈ op' → n ∈ op ∨ n = nb.
Proof.
  unfold visit_plain. intros Hv. inv_bind Hv.
  destruct (_ && _).
  - inv_bind Hv. injection Hv as <- <-.
    intros n [?| ->%list_elem_of_singleton]%elem_of_app; auto.
  - injection Hv as <- <-. auto.
Qed.

Lemma visit_greedy_made E d cl g op nb g' op' :
  visit_greedy E d cl (g, op) nb = Return (g', op') →
  ∀ n, n ∈ op' → n ∈ op ∨ n = Node.set_hCost (HCost E d nb) nb.
Proof.
  unfold visit_greedy. intros Hv. inv_bind Hv.
  destruct (_ && _).
  - inv_bind Hv. injection Hv as <- <-.
    intros n [?| ->%list_elem_of_singleton]%elem_of_app; auto.
  - injection Hv as <- <-. auto.
Qed.

Lemma visit_astar_made E d curr cl g op nb g' op' :
  visit_astar E d curr cl (g, op) nb = Return (g', op') →
  ∀ n, n ∈ op' → n ∈ op ∨ n = candidate E d curr nb.
Proof.
  unfold visit_astar. intros Hv. inv_bind Hv.
  fold (candidate E d curr nb) in Hv.
  destruct (_ && _).
  - destruct (Node.mem _ op).
    + injection Hv as <- <-. rewrite replace_loop_relaxed.
      intros n (o & Ho & _ & [->| ->])%elem_of_relaxed; auto.
    + inv_bind Hv. injection Hv as <- <-.
      intros n [?| ->%list_elem_of_singleton]%elem_of_app; auto.
  - injection Hv as <- <-. auto.
Qed.

Lemma expand_nodes (f : Node.t → Node.t) visit curr rest st st' r :
  (∀ cl g op nb g' op', visit curr cl (g, op) nb = Return (g', op') →
     ∀ n, n ∈ op' → n ∈ op ∨ n = f nb) →
  expand visit curr rest st = Return (st', r) →
  ∀ n, n ∈ open st' ++ closed st' →
    n ∈ rest ∨ n ∈ closed st ∨ n = curr ∨
    ∃ nb, nb ∈ Node.getNeighbors (DIAGONAL st) curr ∧ n = f nb.
Proof.
  intros Hvisit Hx n Hn. unfold expand in Hx. inv_bind Hx.
  assert (n ∈ closed st ++ [curr] → n ∈ closed st ∨ n = curr) as Hcl.
  { intros [?| ->%list_elem_of_singleton]%elem_of_app; auto. }
  destruct (Node.eqb curr (END st)).
  - injection Hx as <- <-. simpl in Hn.
    apply elem_of_app in Hn as [?|Hn]; [by left|]. apply Hcl in Hn. tauto.
  - inv_bind Hx. destruct r1 as [g' op]. injection Hx as <- <-. simpl in Hn.
    apply elem_of_app in Hn as [Hn|Hn]; [|apply Hcl in Hn; tauto].
    destruct (for_each_made f _ (Hvisit (closed st ++ [curr])) _ _ _ _ _ H0 n Hn)
      as [?|?]; auto.
Qed.

(** Every node in the two lists after a step was there before or was
    made of a neighbor of a node of the open list. *)
Lemma step_nodes a st st' r :
  step a st = Return (st', r) →
  same_globals st st' ∧
  ∀ n, n ∈ open st' ++ closed st' →
    n ∈ open st ++ closed st ∨
    ∃ curr nb, curr ∈ open st ++ closed st ∧
               nb ∈ Node.getNeighbors (DIAGONAL st) curr ∧
               n = made a (END st) (DIAGONAL st) curr nb.
Proof.
  intros Hs.
  assert (∀ f visit curr rest,
    (∀ cl g op nb g' op', visit curr cl (g, op) nb = Return (g', op') →
       ∀ n, n ∈ op' → n ∈ op ∨ n = f curr nb) →
    open st ≡ₚ curr :: rest →
    expand visit curr rest st = Return (st', r) →
    same_globals st st' ∧
    ∀ n, n ∈ open st' ++ closed st' →
      n ∈ open st ++ closed st ∨
      ∃ c nb, c ∈ open st ++ closed st ∧
              nb ∈ Node.getNeighbors (DIAGONAL st) c ∧ n = f c nb) as Hexp.
  { intros f visit curr rest Hvisit Hperm Hx.
    split; [by eapply expand_globals|]. intros n Hn.
    assert (curr ∈ open st ++ closed st) as Hc.
    { apply elem_of_app. left. rewrite Hperm. by left. }
    destruct (expand_nodes (f curr) visit curr rest st st' r Hvisit Hx n Hn)
      as [Hin|[Hin|[->|(nb & Hnb & ->)]]].
    - left. apply elem_of_app. left. rewrite Hperm. by right.
    - left. apply elem_of_app. by right.
    - by left.
    - right. eauto. }
  destruct a; simpl in Hs.
  - unfold DFS in Hs. destruct (rev (open st)) as [|c rr] eqn:Hrev.
    { injection Hs as <- <-. split; [by repeat split | auto]. }
    refine (Hexp (λ _ nb, nb) (λ _, visit_plain) c (rev rr) visit_plain_made _ Hs).
    rewrite <- (rev_involutive (open st)), Hrev. simpl.
    symmetry. apply Permutation_cons_append.
  - unfold BFS in Hs. destruct (open st) as [|c rr] eqn:Hopen.
    { injection Hs as <- <-. split; [by repeat split|].
      intros n Hn. left. by rewrite Hopen in Hn. }
    rewrite <- Hopen in *.
    refine (Hexp (λ _ nb, nb) (λ _, visit_plain) c rr visit_plain_made _ Hs).
    by rewrite Hopen.
  - unfold Greedy in Hs. destruct (open st) as [|o1 ol] eqn:Hopen.
    { injection Hs as <- <-. split; [by repeat split|].
      intros n Hn. left. by rewrite Hopen in Hn. }
    rewrite <- Hopen in *.
    destruct (sort_by Node.hCost (open st)) as [|c rr] eqn:Hsort; [done|].
    refine (Hexp (λ _ nb, Node.set_hCost (HCost (END st) (DIAGONAL st) nb) nb)
              (λ _, visit_greedy (END st) (DIAGONAL st)) c rr
              (visit_greedy_made _ _) _ Hs).
    rewrite <- Hsort. symmetry. apply sort_by_perm.
  - unfold AStar in Hs. destruct (open st) as [|o1 ol] eqn:Hopen.
    { injection Hs as <- <-. split; [by repeat split|].
      intros n Hn. left. by rewrite Hopen in Hn. }
    rewrite <- Hopen in *.
    destruct (sort_by Node.fCost (open st)) as [|c rr] eqn:Hsort; [done|].
    refine (Hexp (candidate (END st) (DIAGONAL st))
              (visit_astar (END st) (DIAGONAL st)) c rr
              (λ cl, visit_astar_made _ _ c cl) _ Hs).
    rewrite <- Hsort. symmetry. apply sort_by_perm.
Qed.

(** A property of nodes that the Start node has and that passes from a
    node to what a loop body makes of its neighbors holds for every node
    of the two lists throughout a run. *)
Lemma steps_made_inv (a : algorithm) (P : Node.t → Prop) (E : Node.t) (d : bool)
    (k : nat) (st st' : state) :
  END st = E → DIAGONAL st = d →
  (∀ curr nb, P curr → nb ∈ Node.getNeighbors d curr → P (made a E d curr nb)) →
  (∀ m, m ∈ open st ++ closed st → P m) →
  steps (step a) k st = Return st' →
  ∀ m, m ∈ open st' ++ closed st' → P m.
Proof.
  intros HE HD Hmade. revert st HE HD.
  induction k as [|k IH]; intros st HE HD HP Hsteps.
  { simpl in Hsteps. by injection Hsteps as <-. }
  simpl in Hsteps. apply bind_Return in Hsteps as ([st1 r] & Hs & Hsteps).
  destruct (step_nodes a st st1 r Hs) as [(_ & HE1 & _ & HD1 & _) Hn].
  apply (IH st1); [congruence | congruence | | done].
  intros m Hm. destruct (Hn m Hm) as [?|(curr & nb & Hc & Hnb & ->)]; [by apply HP|].
  rewrite HE, HD in *. apply Hmade; [by apply HP | done].
Qed.

Lemma made_bookkeeping a S E d curr nb :
  bookkeeping a S E d curr → nb ∈ Node.getNeighbors d curr →
  bookkeeping a S E d (made a E d curr nb).
Proof.
  intros Hc (Hp & Hg & Hh & _)%getNeighbors_spec.
  destruct a; simpl in *.
  - by right.
  - by right.
  - right. done.
  - destruct Hc as [Hgc _]. split; [|by right].
    rewrite Hp. simpl. lia.
Qed.

(** X14: the costs of the nodes of a run.  After [start()] and any number
    of calls of the step function, every node of the open and the closed
    list other than the Start node has the costs that its algorithm
    keeps: both 0 under [DFS] and [BFS]; [gCost] 0 and [hCost] the
    heuristic [HCost] of its coordinates under [Greedy]; and under
    [AStar] [hCost] the heuristic and [gCost] the [gCost] of the Start
    node plus the number of moves of its discoverer chain. *)
Theorem cost_bookkeeping (W H : Z) (a : algorithm) (k : nat) (st0 s st : state) :
  valid W H st0 = true → start W H st0 = Return s →
  steps (step a) k s = Return st →
  ∀ n, n ∈ open st ++ closed st →
    bookkeeping a (START st0) (END st0) (DIAGONAL st0) n.
Proof.
  intros HV Hstart Hsteps. apply valid_spec in HV.
  destruct (start_spec W H st0 HV) as (s1 & Hs1 & _ & _ & Hop & Hcl & _ & HE & _ & HD & _).
  rewrite Hstart in Hs1. injection Hs1 as <-.
  apply (steps_made_inv a _ (END st0) (DIAGONAL st0) k s st HE HD); [|
    |exact Hsteps].
  - intros curr nb. apply made_bookkeeping.
  - intros m. rewrite Hop, Hcl. simpl. intros ->%list_elem_of_singleton.
    destruct a; simpl; try by left.
    split; [|by left]. pose proof (v_root _ _ _ HV) as Hr.
    destruct (START st0) as [y x par g h]. simpl in *. subst par. simpl. lia.
Qed.

Lemma cost_bookkeeping_witness :
  valid 6 6 (example_state ALG_AStar true) = true ∧
  ∀ n, n ∈ open (example_run ALG_AStar true 3) ++ closed (example_run ALG_AStar true 3) →
    bookkeeping ALG_AStar (START (example_state ALG_AStar true))
                (END (example_state ALG_AStar true))
                (DIAGONAL (example_state ALG_AStar true)) n.
Proof.
  assert (valid 6 6 (example_state ALG_AStar true) = true) as HV
    by (vm_compute; reflexivity).
  assert (start 6 6 (example_state ALG_AStar true) =
          Return (example_seeded ALG_AStar true)) as Hstart
    by (vm_compute; reflexivity).
  assert (steps (step ALG_AStar) 3 (example_seeded ALG_AStar true) =
          Return (example_run ALG_AStar true 3)) as Hsteps
    by (vm_compute; reflexivity).
  split; [exact HV|].
  exact (cost_bookkeeping 6 6 ALG_AStar 3 _ _ _ HV Hstart Hsteps).
Defined.

(** ** Discoverer chains are walks *)

Lemma one_move_sym (d : bool) (c c' : Z * Z) : one_move d c c' → one_move d c' c.
Proof. unfold one_move. destruct d; lia. Qed.

Lemma made_parent a E d curr nb :
  nb ∈ Node.getNeighbors d curr →
  Node.parent (made a E d curr nb) = Some curr ∧
  Node.getPos (made a E d curr nb) = Node.getPos nb.
Proof.
  intros (Hp & _)%getNeighbors_spec. by destruct a.
Qed.

Lemma chain_head (n : Node.t) : ∃ t, Node.chain n = n :: t.
Proof. destruct n as [y x [p|] g h]; simpl; eauto. Qed.

Lemma made_chain_walk a S E d curr nb :
  chain_walk S d curr → nb ∈ Node.getNeighbors d curr →
  chain_walk S d (made a E d curr nb).
Proof.
  intros [Hw Hl] Hnb.
  destruct (made_parent a E d curr nb Hnb) as [Hp Hpos].
  apply getNeighbors_moves, one_move_sym in Hnb.
  unfold chain_walk. rewrite Hpos.
  destruct (made a E d curr nb) as [y x par g h]. simpl in Hp. subst par. simpl.
  destruct (chain_head curr) as (t & Ht). rewrite Ht in *. simpl in *.
  split; [by split|]. done.
Qed.

Lemma chain_in_lists W H S g0 g op cl :
  RunInv W H S g0 g op cl →
  ∀ n, n ∈ op ++ cl → ∀ m, m ∈ Node.chain n → m = n ∨ m ∈ cl.
Proof.
  intros Hinv n.
  induction n as [n Hn|n p Hp IH] using Node_parent_ind; intros Hin m Hm.
  - destruct n as [y x par gc hc]. simpl in *. subst par.
    apply list_elem_of_singleton in Hm. by left.
  - pose proof (ri_parent _ _ _ _ _ _ _ Hinv n Hin) as Hpar. rewrite Hp in Hpar.
    destruct n as [y x par gc hc]. simpl in *. subst par.
    apply elem_of_cons in Hm as [->|Hm]; [by left|]. right.
    destruct (IH ltac:(apply elem_of_app; by right) m Hm) as [->|?]; done.
Qed.

(** X15: the discoverer chain of a node is a path to the Start node.
    After [start()] and any number of calls of the step function of any
    algorithm, the chain [n, n.parent, n.parent.parent, ...] of every
    node of the open and the closed list is a walk in the movement model
    in use (each node one move from its discoverer), ends at the Start
    node, visits no coordinates twice, and all its nodes but [n] itself
    are in the closed list, lie inside the border and are not on a Wall
    tile. *)
Theorem discoverer_chain_is_path (W H : Z) (a : algorithm) (k : nat)
    (st0 s st : state) (n : Node.t) :
  valid W H st0 = true → start W H st0 = Return s →
  steps (step a) k s = Return st →
  n ∈ open st ++ closed st →
  is_walk (DIAGONAL st0) (Node.getPos n) (Node.getPos <$> tail (Node.chain n)) ∧
  last (Node.chain n) = Some (START st0) ∧
  NoDup (Node.getPos <$> Node.chain n) ∧
  ∀ m, m ∈ Node.chain n →
    (m = n ∨ m ∈ closed st) ∧ node_interior W H m ∧
    cell (GRID st) (Node.y m) (Node.x m) ≠ 1.
Proof.
  intros HV Hstart Hsteps Hn. apply valid_spec in HV.
  destruct (start_spec W H st0 HV) as (s1 & Hs1 & _ & Hinv & Hop & Hcl & _ & HE & _ & HD & _).
  rewrite Hstart in Hs1. injection Hs1 as <-.
  destruct (steps_run W H (GRID s) a k s Hinv) as (st' & Hsteps' & Hinv' & _).
  rewrite Hsteps in Hsteps'. injection Hsteps' as <-.
  assert (chain_walk (START st0) (DIAGONAL st0) n) as [Hw Hl].
  { revert n Hn.
    apply (steps_made_inv a _ (END st0) (DIAGONAL st0) k s st HE HD); [| |exact Hsteps].
    - intros curr nb. apply made_chain_walk.
    - intros m. rewrite Hop, Hcl. simpl. intros ->%list_elem_of_singleton.
      pose proof (v_root _ _ _ HV) as Hr.
      destruct (START st0) as [y x par g h]. simpl in *. subst par.
      split; simpl; done. }
  assert (∀ m, m ∈ Node.chain n → m ∈ open st ++ closed st) as Hsub.
  { intros m Hm. destruct (chain_in_lists _ _ _ _ _ _ _ Hinv' n Hn m Hm) as [->|?];
      [done | apply elem_of_app; by right]. }
  split; [exact Hw|]. split; [exact Hl|]. split.
  - apply NoDup_fmap_2_strong; [|apply chain_NoDup].
    intros x y Hx Hy. apply (NoDup_pos_eq (open st ++ closed st));
      [apply (ri_nodup _ _ _ _ _ _ _ Hinv') | by apply Hsub | by apply Hsub].
  - intros m Hm. split; [by eapply chain_in_lists|]. split.
    + apply (ri_interior _ _ _ _ _ _ _ Hinv'). by apply Hsub.
    + apply (ri_pass _ _ _ _ _ _ _ Hinv'). by apply Hsub.
Qed.

Lemma discoverer_chain_is_path_witness :
  valid 6 6 (example_state ALG_DFS false) = true ∧
  is_walk false (4, 2) [(4, 1); (3, 1); (2, 1); (1, 1)] ∧
  last (Node.chain example_node) = Some (Node.init 1 1 None).
Proof.
  assert (valid 6 6 (example_state ALG_DFS false) = true) as HV
    by (vm_compute; reflexivity).
  assert (start 6 6 (example_state ALG_DFS false) =
          Return (example_seeded ALG_DFS false)) as Hstart
    by (vm_compute; reflexivity).
  assert (steps (step ALG_DFS) 4 (example_seeded ALG_DFS false) =
          Return (example_run ALG_DFS false 4)) as Hsteps
    by (vm_compute; reflexivity).
  assert (example_node ∈ open (example_run ALG_DFS false 4) ++
                         closed (example_run ALG_DFS false 4)) as Hn
    by (vm_compute; repeat first [apply list_elem_of_here | apply list_elem_of_further]).
  destruct (discoverer_chain_is_path 6 6 ALG_DFS 4 _ _ _ example_node
              HV Hstart Hsteps Hn) as (Hw & Hl & _).
  split; [exact HV|]. split; [exact Hw | exact Hl].
Defined.

(** ** [reconstructPath] outside a run *)

Lemma reconstruct_loop_orphan (fuel : nat) (cl : list Node.t) (g g' : grid)
    (curr p : Node.t) :
  Node.mem p cl = false →
  reconstruct_loop fuel cl g curr (Some p) ≠ Some (Return g').
Proof.
  intros Hm. revert g. induction fuel as [|fuel IH]; intros g; simpl; [done|].
  destruct (set_tile g (Node.y curr) (Node.x curr) 6) as [g1|e]; [|done].
  rewrite (find_mem_false _ _ Hm). apply IH.
Qed.

(** X16: [reconstructPath] relies on the closed list holding the
    discoverer of its last node.  When the last node of the closed list
    has a discoverer and no node of the rest of the list has the
    coordinates of that discoverer, the call never completes: whatever
    the number of rounds of its [while] loop, it is still in the loop or
    has raised an exception. *)
Theorem reconstructPath_needs_discoverer (fuel : nat) (st : state)
    (cl : list Node.t) (curr p : Node.t) :
  closed st = cl ++ [curr] → Node.parent curr = Some p →
  Node.mem p cl = false →
  ∀ st', reconstructPath fuel st ≠ Some (Return st').
Proof.
  intros Hcl Hp Hm st'. unfold reconstructPath.
  rewrite Hcl, rev_app_distr. simpl. rewrite rev_involutive, Hp.
  destruct (reconstruct_loop fuel cl (GRID st) curr (Some p)) as [[g|e]|] eqn:Hloop;
    [|done..].
  by apply reconstruct_loop_orphan in Hloop.
Qed.

Lemma reconstructPath_needs_discoverer_witness :
  Node.mem (Node.init 4 3 None) [Node.init 1 1 None] = false ∧
  ∀ st', reconstructPath 36 orphan_state ≠ Some (Return st').
Proof.
  assert (Node.mem (Node.init 4 3 None) [Node.init 1 1 None] = false) as Hm
    by (vm_compute; reflexivity).
  split; [exact Hm|].
  exact (reconstructPath_needs_discoverer 36 orphan_state [Node.init 1 1 None]
           (Node.init 4 4 (Some (Node.init 4 3 None))) (Node.init 4 3 None)
           eq_refl eq_refl Hm).
Defined.

(** ** BFS finds a shortest route *)

Lemma is_path_cons (d : bool) (c : Z * Z) (p : list (Z * Z)) :
  is_path d (c :: p) ↔ is_walk d c p.
Proof.
  revert c. induction p as [|c' p IH]; intros c; [done|].
  change (is_path d (c :: c' :: p)) with (one_move d c c' ∧ is_path d (c' :: p)).
  cbn [is_walk]. by rewrite IH.
Qed.

Lemma is_path_app (d : bool) (l1 l2 : list (Z * Z)) :
  is_path d (l1 ++ l2) ↔
  is_path d l1 ∧ is_path d l2 ∧
  ∀ a b, last l1 = Some a → head l2 = Some b → one_move d a b.
Proof.
  induction l1 as [|c l1 IH].
  { simpl. split; [intros ?; split; [done|]; split; [done|]; by intros | tauto]. }
  destruct l1 as [|c' l1].
  - destruct l2 as [|b l2]; simpl.
    + split; [intros _; split; [done|]; split; [done|]; by intros | done].
    + split.
      * intros [Hm Hp]. split; [done|]. split; [done|]. by intros ? ? [= <-] [= <-].
      * intros (_ & Hp & Hm). split; [by apply Hm | done].
  - change (is_path d ((c :: c' :: l1) ++ l2))
      with (one_move d c c' ∧ is_path d ((c' :: l1) ++ l2)).
    change (is_path d (c :: c' :: l1)) with (one_move d c c' ∧ is_path d (c' :: l1)).
    rewrite IH, last_cons_cons. tauto.
Qed.

Lemma is_path_rev (d : bool) (l : list (Z * Z)) : is_path d l → is_path d (rev l).
Proof.
  induction l as [|c l IH]; [done|]. intros Hp. simpl.
  apply is_path_app. destruct l as [|c' l]; [done|].
  destruct Hp as [Hm Hp]. split; [by apply IH|]. split; [done|].
  intros a b Ha [= <-].
  assert (a = c') as ->; [|by apply one_move_sym].
  simpl in Ha. rewrite last_snoc in Ha. by injection Ha.
Qed.

Lemma last_rev {A : Type} (l : list A) : last (rev l) = head l.
Proof. destruct l as [|a l]; [done|]. simpl. by rewrite last_snoc. Qed.

Lemma head_rev {A : Type} (l : list A) : head (rev l) = last l.
Proof. by rewrite <- (rev_involutive l) at 2; rewrite last_rev. Qed.

Lemma route_snoc W H g d c c' l :
  route W H g d c c' l →
  l = [c] ∧ c' = c ∨
  ∃ l' c0, l = l' ++ [c'] ∧ route W H g d c c0 l' ∧ one_move d c0 c' ∧
           passable W H g c'.
Proof.
  intros (Hh & Hl & Hp & Hf).
  apply last_Some in Hl as (l' & ->).
  destruct l' as [|a l'].
  { left. simpl in Hh. by injection Hh as ->. }
  right. simpl in Hh. injection Hh as ->.
  destruct (last (c :: l')) as [c0|] eqn:Hl0; [|by apply last_None in Hl0].
  exists (c :: l'), c0. split; [done|].
  apply is_path_app in Hp as (Hp1 & _ & Hm).
  apply Forall_app in Hf as [Hf1 Hf2].
  split; [exact (conj eq_refl (conj Hl0 (conj Hp1 Hf1)))|].
  split; [by apply Hm|]. by inversion Hf2.
Qed.

Lemma bfs_step_exact W H st curr rest :
  Valid W H st → open st = curr :: rest →
  ∃ st', step ALG_BFS st
           = Return (st', if Node.eqb curr (END st) then Some true else None) ∧
         closed st' = closed st ++ [curr] ∧
         open st' = rest ++ (if Node.eqb curr (END st) then []
                             else admitted ALG_BFS st curr).
Proof.
  intros HV Hopen. simpl. unfold BFS. rewrite Hopen.
  apply (expand_admits W H ALG_BFS); try done.
  - by rewrite Hopen.
  - simpl. by rewrite Hopen.
Qed.

Lemma elem_of_admitted_bfs st curr n :
  n ∈ admitted ALG_BFS st curr ↔
  n ∈ Node.getNeighbors (DIAGONAL st) curr ∧
  admissible (GRID st) (closed st ++ [curr]) (remaining ALG_BFS st) n = true.
Proof.
  unfold admitted. rewrite list_elem_of_fmap. split.
  - intros (nb & -> & Hin). apply list_elem_of_In, filter_In in Hin as [Hin Hadm].
    split; [by apply list_elem_of_In | done].
  - intros [Hin Hadm]. exists n. split; [done|].
    apply list_elem_of_In, filter_In. split; [by apply list_elem_of_In | done].
Qed.

(** In a run of BFS a tile without a node in the lists is farther from
    the Start tile than the node that is taken next. *)
Lemma undiscovered_far W H g0 d S0 E0 curr rest cl :
  BfsInv W H g0 d S0 E0 (curr :: rest) cl →
  ∀ l c, route W H g0 d (Node.getPos S0) c l →
         c ∉ Node.getPos <$> ((curr :: rest) ++ cl) →
         (Node.depth curr + 1 ≤ moves l)%nat.
Proof.
  intros Hinv l. induction l as [|x l' IH] using rev_ind; intros c Hroute Hun.
  { by destruct Hroute as ([=] & _). }
  destruct (route_snoc _ _ _ _ _ _ _ Hroute)
    as [[Heq ->]|(l'' & c0 & Heq & Hr' & Hm & Hpass)].
  { exfalso. apply Hun. apply (bf_start _ _ _ _ _ _ _ _ Hinv). }
  apply app_inj_tail in Heq as [<- ->].
  assert (l' ≠ []) as Hne by (intros ->; by destruct Hr' as ([=] & _)).
  assert (moves (l' ++ [c]) = S (moves l')) as ->.
  { unfold moves. rewrite length_app. simpl. destruct l'; [done|]. simpl. lia. }
  destruct (decide (c0 ∈ Node.getPos <$> ((curr :: rest) ++ cl))) as [Hin|Hnin].
  2:{ specialize (IH c0 Hr' Hnin). lia. }
  apply list_elem_of_fmap in Hin as (w & Hpos & Hw).
  apply elem_of_app in Hw as [Hw|Hw].
  - assert (Node.depth curr ≤ Node.depth w)%nat as Hle.
    { apply elem_of_cons in Hw as [->|Hw]; [done|].
      pose proof (bf_sorted _ _ _ _ _ _ _ _ Hinv) as Hs.
      apply StronglySorted_cons in Hs as [Hf _].
      rewrite Forall_forall in Hf. by destruct (Hf w Hw). }
    assert (Node.depth w ≤ moves l')%nat; [|lia].
    apply (bf_short _ _ _ _ _ _ _ _ Hinv).
    + apply elem_of_app. by left.
    + by rewrite <- Hpos.
  - exfalso. apply Hun. apply (bf_expanded _ _ _ _ _ _ _ _ Hinv w); [done| |done].
    by rewrite <- Hpos.
Qed.

Lemma BfsInv_init W H g0 d S0 E0 :
  Node.parent S0 = None → BfsInv W H g0 d S0 E0 [S0] [].
Proof.
  intros Hroot. split.
  - apply StronglySorted_cons. split; [constructor | constructor].
  - intros u c Hu. inversion Hu.
  - intros n l [->%list_elem_of_singleton|Hn]%elem_of_app _; [|inversion Hn].
    destruct S0 as [y x par g h]. simpl in *. subst par. simpl. lia.
  - simpl. by left.
  - intros n [->%list_elem_of_singleton|Hn]%elem_of_app; [|inversion Hn].
    destruct S0 as [y x par g h]. simpl in *. subst par. by split.
  - intros n Hn. inversion Hn.
Qed.

Lemma level_le_same (k : nat) (l : list Node.t) :
  Forall (λ n, Node.depth n = k) l → StronglySorted level_le l.
Proof.
  induction 1 as [|n l Hn Hl IH]; constructor; [done|].
  rewrite Forall_forall in *. intros m Hm. specialize (Hl m Hm).
  unfold level_le. lia.
Qed.

(** A call of [BFS] that takes a node other than the End node keeps the
    invariant. *)
Lemma BfsInv_step W H g0 d S0 E0 st st' :
  Valid W H st → run_inv W H g0 st →
  DIAGONAL st = d → END st = E0 →
  BfsInv W H g0 d S0 E0 (open st) (closed st) →
  step ALG_BFS st = Return (st', None) →
  BfsInv W H g0 d S0 E0 (open st') (closed st').
Proof.
  intros HV Hrun Hd HE Hinv Hstep.
  destruct (open st) as [|curr rest] eqn:Hopen.
  { simpl in Hstep. unfold BFS in Hstep. by rewrite Hopen in Hstep. }
  destruct (bfs_step_exact W H st curr rest HV Hopen) as (st1 & Hstep1 & Hcl & Hop).
  rewrite Hstep in Hstep1. injection Hstep1 as <- Hr.
  destruct (Node.eqb curr (END st)) eqn:HnE; [done|]. clear Hr.
  rewrite Hcl, Hop.
  set (new := admitted ALG_BFS st curr).
  assert (∀ n, n ∈ new →
            n ∈ Node.getNeighbors d curr ∧ Node.depth n = (Node.depth curr + 1)%nat ∧
            cell (GRID st) (Node.y n) (Node.x n) ≠ 1 ∧
            Node.getPos n ∉ Node.getPos <$> ((curr :: rest) ++ closed st)) as Hnew.
  { intros n [Hn Hadm]%elem_of_admitted_bfs. rewrite Hd in Hn.
    split; [done|]. split.
    { apply getNeighbors_spec in Hn as (Hp & _).
      destruct n as [y x par g h]. simpl in *. subst par. simpl. lia. }
    unfold admissible in Hadm.
    apply andb_true_iff in Hadm as [[Hc Hm1%negb_true_iff]%andb_true_iff Hm2%negb_true_iff].
    apply negb_true_iff, Z.eqb_neq in Hc. split; [done|].
    apply Node_mem_false in Hm1, Hm2. simpl in Hm2. rewrite Hopen in Hm2. simpl in Hm2.
    rewrite fmap_app in Hm1. rewrite fmap_app, fmap_cons.
    intros [[Hin|Hin]%elem_of_cons|Hin]%elem_of_app.
    - apply Hm1, elem_of_app. right. rewrite Hin. by left.
    - done.
    - apply Hm1, elem_of_app. by left. }
  assert (∀ c, c ∈ Node.getPos <$> ((curr :: rest) ++ closed st) →
               c ∈ Node.getPos <$> ((rest ++ new) ++ closed st ++ [curr])) as Hmono.
  { intros c (m & -> & Hm)%list_elem_of_fmap. apply list_elem_of_fmap. exists m.
    split; [done|]. rewrite !elem_of_app. rewrite elem_of_app, elem_of_cons in Hm.
    destruct Hm as [[->|?]|?]; [right; right; by left | by left; left | by right; left]. }
  assert (∀ m, m ∈ (rest ++ new) ++ closed st ++ [curr] →
               m ∈ (curr :: rest) ++ closed st ∨ m ∈ new) as Hsplit.
  { intros m [[?|?]%elem_of_app|[?|Hm]%elem_of_app]%elem_of_app.
    - left. apply elem_of_app. left. by right.
    - by right.
    - left. apply elem_of_app. by right.
    - apply list_elem_of_singleton in Hm as ->. left. by left. }
  assert (curr ∈ (curr :: rest) ++ closed st) as Hcurr by (by left).
  pose proof (bf_sorted _ _ _ _ _ _ _ _ Hinv) as Hs.
  apply StronglySorted_cons in Hs as [Hf Hs]. rewrite Forall_forall in Hf.
  split.
  - apply StronglySorted_app_2; [|done|].
    + intros x1 x2 H1 H2. destruct (Hf x1 H1) as [? ?].
      destruct (Hnew x2 H2) as (_ & Hdep & _). unfold level_le. lia.
    + apply (level_le_same (Node.depth curr + 1)). apply Forall_forall.
      intros n Hn. by destruct (Hnew n Hn) as (_ & ? & _).
  - intros u c [Hu| ->%list_elem_of_singleton]%elem_of_app Hm Hp.
    + apply Hmono. by apply (bf_expanded _ _ _ _ _ _ _ _ Hinv u).
    + apply moves_getNeighbors, list_elem_of_fmap in Hm as (nb & -> & Hnb).
      destruct (admissible (GRID st) (closed st ++ [curr]) (remaining ALG_BFS st) nb)
        eqn:Hadm.
      * apply list_elem_of_fmap. exists nb. split; [done|].
        apply elem_of_app. left. apply elem_of_app. right.
        apply elem_of_admitted_bfs. by rewrite Hd.
      * unfold admissible in Hadm. simpl in Hadm. rewrite Hopen in Hadm. simpl in Hadm.
        apply andb_false_iff in Hadm as [[Hc|Hm1]%andb_false_iff|Hm2].
        -- exfalso. destruct Hp as [Hr Hp]. apply Hp.
           apply (ri_walls _ _ _ _ _ _ _ Hrun); [done|].
           apply negb_false_iff in Hc. by apply Z.eqb_eq in Hc.
        -- apply negb_false_iff, Node_mem_true in Hm1.
           rewrite fmap_app. apply elem_of_app. by right.
        -- apply negb_false_iff, Node_mem_true in Hm2.
           rewrite !fmap_app. apply elem_of_app. left. apply elem_of_app. by left.
  - intros n l Hn Hroute. destruct (Hsplit n Hn) as [Hold|Hn'].
    + by apply (bf_short _ _ _ _ _ _ _ _ Hinv).
    + destruct (Hnew n Hn') as (_ & -> & _ & Hun).
      by apply (undiscovered_far W H g0 d S0 E0 curr rest (closed st) Hinv l (Node.getPos n)).
  - apply Hmono, (bf_start _ _ _ _ _ _ _ _ Hinv).
  - intros n Hn. destruct (Hsplit n Hn) as [Hold|Hn'].
    + by apply (bf_chain _ _ _ _ _ _ _ _ Hinv).
    + destruct (Hnew n Hn') as (Hnb & _).
      apply (made_chain_walk ALG_BFS S0 E0 d curr n); [|done].
      by apply (bf_chain _ _ _ _ _ _ _ _ Hinv).
  - intros n [Hn| ->%list_elem_of_singleton]%elem_of_app.
    + by apply (bf_noend _ _ _ _ _ _ _ _ Hinv).
    + by rewrite <- HE.
Qed.

(** With an empty open list every tile that a route from the Start tile
    reaches has a node in the closed list. *)
Lemma all_discovered W H g0 d S0 E0 cl :
  BfsInv W H g0 d S0 E0 [] cl →
  ∀ l c, route W H g0 d (Node.getPos S0) c l → c ∈ Node.getPos <$> cl.
Proof.
  intros Hinv l. induction l as [|x l' IH] using rev_ind; intros c Hroute.
  { by destruct Hroute as ([=] & _). }
  destruct (route_snoc _ _ _ _ _ _ _ Hroute)
    as [[Heq ->]|(l'' & c0 & Heq & Hr' & Hm & Hpass)].
  { apply (bf_start _ _ _ _ _ _ _ _ Hinv). }
  apply app_inj_tail in Heq as [<- ->].
  apply IH, list_elem_of_fmap in Hr' as (w & -> & Hw).
  by apply (bf_expanded _ _ _ _ _ _ _ _ Hinv w).
Qed.

(** The state before the last call of a search of BFS. *)
Lemma bfs_search_last W H (n : nat) (s st : state) (b : bool) :
  Valid W H s → run_inv W H (GRID s) s → open s = [START s] → closed s = [] →
  search (step ALG_BFS) n s = Return (st, Some b) →
  ∃ prev, Valid W H prev ∧ run_inv W H (GRID s) prev ∧
          START prev = START s ∧ END prev = END s ∧ DIAGONAL prev = DIAGONAL s ∧
          BfsInv W H (GRID s) (DIAGONAL s) (START s) (END s) (open prev) (closed prev) ∧
          step ALG_BFS prev = Return (st, Some b).
Proof.
  intros HV Hrun Hop Hcl Hsearch.
  destruct (search_last (step ALG_BFS)
    (λ t, Valid W H t ∧ run_inv W H (GRID s) t ∧
          START t = START s ∧ END t = END s ∧ DIAGONAL t = DIAGONAL s ∧
          BfsInv W H (GRID s) (DIAGONAL s) (START s) (END s) (open t) (closed t))
    n s st b) as (prev & Hprev & Hlast); [| |done|].
  - split; [done|]. split; [done|]. split; [done|]. split; [done|]. split; [done|].
    rewrite Hop, Hcl. apply BfsInv_init, HV.
  - intros st1 st2 (HV1 & Hrun1 & HS1 & HE1 & HD1 & Hinv1) Hstep.
    destruct (step_valid W H ALG_BFS st1 HV1) as (st2' & r & Hstep' & HV2 & Hsg & _).
    rewrite Hstep in Hstep'. injection Hstep' as <- <-.
    destruct (step_run W H (GRID s) ALG_BFS st1 Hrun1) as (st2' & r & Hstep' & Hrun2 & _).
    rewrite Hstep in Hstep'. injection Hstep' as <- <-.
    destruct Hsg as (HS & HE & _ & HD & _).
    split; [done|]. split; [done|].
    split; [congruence|]. split; [congruence|]. split; [congruence|].
    by apply (BfsInv_step W H (GRID s) (DIAGONAL s) (START s) (END s) st1).
  - exists prev. tauto.
Qed.

(** C2: in a run seeded by [start], when the search of BFS returns
    [True], the last node [e] of the closed list has the coordinates of
    the End node, the coordinates of its discoverer chain, read from the
    Start node to [e], are a route from the Start tile to the End tile
    over tiles that are not Walls, with as many moves as the chain has
    edges, and no route from the Start tile to the End tile has fewer
    moves.  When there is a route, the search returns [True] within W*H
    calls, and when there is none it returns [False].  This holds for
    orthogonal movement and for diagonal movement, each with its own
    routes. *)
Theorem bfs_shortest_route (W H : Z) (st0 s : state) :
  valid W H st0 = true → start W H st0 = Return s →
  let r := route W H (GRID s) (DIAGONAL s)
             (Node.getPos (START s)) (Node.getPos (END s)) in
  (∀ n st, search (step ALG_BFS) n s = Return (st, Some true) →
     ∃ e, last (closed st) = Some e ∧ Node.getPos e = Node.getPos (END s) ∧
          r (chain_route e) ∧ moves (chain_route e) = Node.depth e ∧
          ∀ l, r l → (Node.depth e ≤ moves l)%nat) ∧
  ((∃ l, r l) →
   ∃ st, search (step ALG_BFS) (Z.to_nat (W * H)) s = Return (st, Some true)) ∧
  ((¬ ∃ l, r l) →
   ∃ st, search (step ALG_BFS) (Z.to_nat (W * H)) s = Return (st, Some false)).
Proof.
  intros HV Hstart r. apply valid_spec in HV.
  destruct (start_spec W H st0 HV) as (s1 & Hs1 & HVs & Hrun & Hop & Hcl & HS0 & _).
  rewrite Hstart in Hs1. injection Hs1 as <-.
  rewrite <- HS0 in Hop.
  assert (∀ n st, search (step ALG_BFS) n s = Return (st, Some true) →
     ∃ e, last (closed st) = Some e ∧ Node.getPos e = Node.getPos (END s) ∧
          r (chain_route e) ∧ moves (chain_route e) = Node.depth e ∧
          ∀ l, r l → (Node.depth e ≤ moves l)%nat) as Hfound.
  { intros n st Hsearch.
    destruct (bfs_search_last W H n s st true HVs Hrun Hop Hcl Hsearch)
      as (prev & HVp & Hrunp & HSp & HEp & HDp & Hinv & Hstep).
    destruct (open prev) as [|e rest] eqn:Hopen.
    { simpl in Hstep. unfold BFS in Hstep. by rewrite Hopen in Hstep. }
    destruct (bfs_step_exact W H prev e rest HVp Hopen) as (st1 & Hstep1 & Hcl1 & _).
    rewrite Hstep in Hstep1. injection Hstep1 as <- Hr.
    destruct (Node.eqb e (END prev)) eqn:HeE; [clear Hr|done].
    apply Node_eqb_true in HeE. rewrite HEp in HeE.
    assert (e ∈ (e :: rest) ++ closed prev) as Hin by (by left).
    destruct (bf_chain _ _ _ _ _ _ _ _ Hinv e Hin) as [Hwalk Hlast].
    destruct (chain_head e) as (t & Hch).
    exists e. split; [by rewrite Hcl1, last_snoc|]. split; [done|].
    assert (moves (chain_route e) = Node.depth e) as Hmoves.
    { unfold moves, chain_route. by rewrite length_rev, length_fmap, chain_length. }
    split; [|split; [done|]].
    - unfold r, chain_route. split; [|split; [|split]].
      + by rewrite head_rev, fmap_last, Hlast.
      + by rewrite last_rev, Hch, <- HeE.
      + apply is_path_rev. rewrite Hch in *. simpl in Hwalk. rewrite fmap_cons.
        by apply is_path_cons.
      + apply Forall_forall. intros c Hc.
        apply list_elem_of_In, in_rev, list_elem_of_In in Hc.
        apply list_elem_of_fmap in Hc as (m & -> & Hm).
        assert (m ∈ open prev ++ closed prev) as Hm'.
        { rewrite Hopen.
          destruct (chain_in_lists _ _ _ _ _ _ _ Hrunp e ltac:(by rewrite Hopen) m Hm)
            as [->|?]; [done | apply elem_of_app; by right]. }
        pose proof (ri_interior _ _ _ _ _ _ _ Hrunp m Hm') as Hi.
        pose proof (interior_in_range _ _ _ _ Hi) as Hr.
        split; [done|]. simpl.
        intros Hw. apply (ri_pass _ _ _ _ _ _ _ Hrunp m Hm').
        by apply (ri_walls _ _ _ _ _ _ _ Hrunp).
    - intros l Hl. apply (bf_short _ _ _ _ _ _ _ _ Hinv e l Hin).
      unfold r in Hl. by rewrite HeE. }
  split; [exact Hfound|].
  destruct (search_terminates W H (GRID s) ALG_BFS (Z.to_nat (W * H)) s Hrun)
    as (st & b & Hsearch & _).
  { rewrite Hcl. simpl. unfold interior_size.
    pose proof (v_start _ _ _ HV) as Hi. unfold node_interior, interior in Hi. nia. }
  split.
  - intros [l Hl]. exists st. destruct b; [done|]. exfalso.
    destruct (bfs_search_last W H _ s st false HVs Hrun Hop Hcl Hsearch)
      as (prev & HVp & Hrunp & HSp & HEp & HDp & Hinv & Hstep).
    apply step_false in Hstep as [Hnil ->]. rewrite Hnil in Hinv.
    pose proof (all_discovered _ _ _ _ _ _ _ Hinv l _ Hl) as Hend.
    apply list_elem_of_fmap in Hend as (w & Hpos & Hw).
    pose proof (bf_noend _ _ _ _ _ _ _ _ Hinv w Hw) as Hne.
    apply Node_eqb_false in Hne. congruence.
  - intros Hno. exists st. destruct b; [|done]. exfalso. apply Hno.
    destruct (Hfound _ _ Hsearch) as (e & _ & _ & Hr & _). eauto.
Qed.

Lemma bfs_shortest_route_witness :
  valid 6 6 (example_state ALG_BFS false) = true ∧
  ∃ e, last (closed (example_finished ALG_BFS false)) = Some e ∧
       chain_route e = [(1, 1); (1, 2); (1, 3); (1, 4); (2, 4); (3, 4); (4, 4)] ∧
       ∀ l, route 6 6 (GRID (example_seeded ALG_BFS false)) false (1, 1) (4, 4) l →
            (6 ≤ moves l)%nat.
Proof.
  assert (valid 6 6 (example_state ALG_BFS false) = true) as HV
    by (vm_compute; reflexivity).
  assert (start 6 6 (example_state ALG_BFS false)
          = Return (example_seeded ALG_BFS false)) as Hst
    by (vm_compute; reflexivity).
  assert (search (step ALG_BFS) 36 (example_seeded ALG_BFS false)
          = Return (example_finished ALG_BFS false, Some true)) as Hsearch
    by (vm_compute; reflexivity).
  split; [exact HV|].
  destruct (proj1 (bfs_shortest_route 6 6 _ _ HV Hst) 36%nat _ Hsearch)
    as (e & Hlast & _ & _ & _ & Hmin).
  assert (chain_route <$> last (closed (example_finished ALG_BFS false))
          = Some [(1, 1); (1, 2); (1, 3); (1, 4); (2, 4); (3, 4); (4, 4)]) as Hc
    by (vm_compute; reflexivity).
  assert (Node.depth <$> last (closed (example_finished ALG_BFS false)) = Some 6%nat)
    as Hd by (vm_compute; reflexivity).
  rewrite Hlast in Hc, Hd. injection Hc as Hc. injection Hd as Hd.
  exists e. split; [exact Hlast|]. split; [exact Hc|].
  intros l Hl. rewrite <- Hd. exact (Hmin l Hl).
Defined.
